(** * SARSA agent of rlcard: a shallow embedding of [sarsa_agent.py]

    The agent walks the whole game tree of the environment it is given,
    keeps two dictionaries keyed by the observation string (action
    qualities and action probabilities), and persists them with pickle.

    Numbers.  The source computes with numpy [float64].  Here a number is
    an exact real or one of the three non-finite values, combined by the
    IEEE 754 rules for infinities and NaN; rounding, overflow and signed
    zeros are not modelled.  Where rounding decides what the code does,
    in the repeated update of one slot, the update rule is also given
    in binary64 ([update_slot_f64]). *)

From Stdlib Require Import Reals Lra ZArith.
From Stdlib Require Import Floats.PrimFloat.
From stdpp Require Import base list gmap strings.

Set Warnings "-clear-no-such-hyp".

(** ** Numbers *)

Inductive num : Type :=
| Fin (r : R)
| NegInf
| PosInf
| NaN.

Definition Rpos (r : R) : bool := if Rlt_dec 0 r then true else false.
Definition Rneg (r : R) : bool := if Rlt_dec r 0 then true else false.

Definition nneg (x : num) : num :=
  match x with
  | Fin r => Fin (- r)
  | NegInf => PosInf
  | PosInf => NegInf
  | NaN => NaN
  end.

Definition nadd (x y : num) : num :=
  match x, y with
  | NaN, _ | _, NaN => NaN
  | Fin a, Fin b => Fin (a + b)
  | PosInf, NegInf | NegInf, PosInf => NaN
  | PosInf, _ | _, PosInf => PosInf
  | NegInf, _ | _, NegInf => NegInf
  end.

Definition nsub (x y : num) : num := nadd x (nneg y).

(** An infinity scaled by a finite factor: the sign follows the factor,
    and a zero factor gives NaN. *)
Definition scale_inf (positive : bool) (r : R) : num :=
  if Rpos r then (if positive then PosInf else NegInf)
  else if Rneg r then (if positive then NegInf else PosInf)
  else NaN.

Definition nmul (x y : num) : num :=
  match x, y with
  | NaN, _ | _, NaN => NaN
  | Fin a, Fin b => Fin (a * b)
  | PosInf, Fin r | Fin r, PosInf => scale_inf true r
  | NegInf, Fin r | Fin r, NegInf => scale_inf false r
  | PosInf, PosInf | NegInf, NegInf => PosInf
  | PosInf, NegInf | NegInf, PosInf => NegInf
  end.

Definition ndiv (x y : num) : num :=
  match x, y with
  | NaN, _ | _, NaN => NaN
  | Fin a, Fin b =>
      if Rpos b || Rneg b then Fin (a / b)
      else if Rpos a then PosInf else if Rneg a then NegInf else NaN
  | Fin _, _ => Fin 0
  | PosInf, Fin r => if Rneg r then NegInf else PosInf
  | NegInf, Fin r => if Rneg r then PosInf else NegInf
  | _, _ => NaN
  end.

(** [x > y] of two floats; false as soon as one is NaN. *)
Definition ngt (x y : num) : bool :=
  match x, y with
  | NaN, _ | _, NaN => false
  | Fin a, Fin b => if Rlt_dec b a then true else false
  | PosInf, PosInf => false
  | PosInf, _ => true
  | _, NegInf => match x with NegInf => false | _ => true end
  | _, _ => false
  end.

Definition is_nan (x : num) : bool :=
  match x with NaN => true | _ => false end.

Definition is_fin (x : num) : bool :=
  match x with Fin _ => true | _ => false end.

(** ** [scipy.special.softmax]

    The library function, written from its definition: the exponential
    of every entry over the sum of all of them.  [exp(-inf)] is [0]; a
    NaN or [+inf] entry, or a vector without a finite entry, makes every
    entry NaN (the shift by the maximum is then [inf - inf]).
    [softmax_values] gives the entries of the result for a vector that
    is not empty; on an empty array the library raises [ValueError] (the
    maximum of a zero-size array), which is [softmax] below. *)

Definition expR (x : num) : R :=
  match x with Fin r => exp r | _ => 0%R end.

Definition sum_exp (x : list num) : R :=
  foldr Rplus 0%R (expR <$> x).

Definition softmax_defined (x : list num) : bool :=
  forallb (fun v => match v with Fin _ | NegInf => true | _ => false end) x
  && existsb is_fin x.

Definition softmax_values (x : list num) : list num :=
  if softmax_defined x
  then (fun v => Fin (expR v / sum_exp x)) <$> x
  else (fun _ => NaN) <$> x.

(** ** Exceptions and the state monad of the agent's methods

    A method runs on the agent object and either returns a value, raises
    with whatever it had already written, or (for the recursive walk
    only) runs out of the fuel that bounds the recursion. *)

Inductive exn : Type :=
| IndexError
| TypeError
| ValueError
| FileNotFoundError
| EnvError
| DegenerateDistribution.

Inductive res (S A : Type) : Type :=
| Ok (v : A) (s : S)
| Raise (e : exn) (s : S)
| OutOfFuel.
Arguments Ok {S A} v s.
Arguments Raise {S A} e s.
Arguments OutOfFuel {S A}.

Definition M (S A : Type) : Type := S -> res S A.

Definition ret {S A} (v : A) : M S A := fun s => Ok v s.
Definition raise {S A} (e : exn) : M S A := fun s => Raise e s.
Definition bind {S A B} (m : M S A) (k : A -> M S B) : M S B :=
  fun s =>
    match m s with
    | Ok v s' => k v s'
    | Raise e s' => Raise e s'
    | OutOfFuel => OutOfFuel
    end.
Definition get {S} : M S S := fun s => Ok s s.
Definition modify {S} (f : S -> S) : M S unit := fun s => Ok tt (f s).

(** [l[i]] on a list or array: [IndexError] out of range. *)
Definition index {S A} (l : list A) (i : nat) : M S A :=
  match l !! i with
  | Some v => ret v
  | None => raise IndexError
  end.

(** [softmax(x)]: [ValueError] on an array without entries. *)
Definition softmax {S} (x : list num) : M S (list num) :=
  match x with
  | [] => raise ValueError
  | _ :: _ => ret (softmax_values x)
  end.

Notation "'do' x <- m ; k" := (bind m (fun x => k))
  (at level 10, x pattern, m at level 100, k at level 200,
   format "'[v' 'do'  x  <-  m ; '/' k ']'").
Notation "'run' m ; k" := (bind m (fun _ => k))
  (at level 10, m at level 100, k at level 200,
   format "'[v' 'run'  m ; '/' k ']'").

(** ** The environment interface *)

(** The state dictionary the environment hands to a player: the keys the
    agent reads. *)
Record State : Type := {
  obs : string;                       (* state['obs'].tostring() *)
  legal_actions : list nat;           (* list(state['legal_actions'].keys()) *)
  raw_legal_actions : list string     (* state['raw_legal_actions'] *)
}.

(** An entry of [env.agents]: another [SARSAAgent], or some other agent
    whose [step] picks an action from the state. *)
Inductive agent_obj : Type :=
| Sarsa
| Other (step : State -> nat).

(** The methods and attributes of [env] used by the agent. *)
Class Env (E : Type) : Type := {
  num_actions : E -> nat;
  reset : E -> E;
  is_over : E -> bool;
  get_payoffs : E -> list num;
  get_player_id : E -> nat;
  get_state : E -> nat -> State;
  step : E -> nat -> option E;      (* [None]: the environment raised *)
  step_back : E -> E;
  get_agents : E -> list agent_obj
}.

(** ** The agent object *)

Record SARSAAgent (E : Type) : Type := mkAgent {
  gamma : R;
  alpha : R;
  agent_id : nat;
  env : E;
  model_path : string;
  policy : gmap string (list num);      (* state_str -> action probabilities *)
  a : nat;
  qualities : gmap string (list num);   (* state_str -> action qualities *)
  iteration : Z
}.
Arguments mkAgent {E}.
Arguments gamma {E}.
Arguments alpha {E}.
Arguments agent_id {E}.
Arguments env {E}.
Arguments model_path {E}.
Arguments policy {E}.
Arguments a {E}.
Arguments qualities {E}.
Arguments iteration {E}.

Section Agent.
Context {E : Type} `{Env E}.

Abbreviation agent := (SARSAAgent E).

Definition set_agent_id (v : nat) (self : agent) : agent :=
  mkAgent (gamma self) (alpha self) v (env self) (model_path self)
          (policy self) (a self) (qualities self) (iteration self).
Definition set_env (v : E) (self : agent) : agent :=
  mkAgent (gamma self) (alpha self) (agent_id self) v (model_path self)
          (policy self) (a self) (qualities self) (iteration self).
Definition set_policy (v : gmap string (list num)) (self : agent) : agent :=
  mkAgent (gamma self) (alpha self) (agent_id self) (env self) (model_path self)
          v (a self) (qualities self) (iteration self).
Definition set_a (v : nat) (self : agent) : agent :=
  mkAgent (gamma self) (alpha self) (agent_id self) (env self) (model_path self)
          (policy self) v (qualities self) (iteration self).
Definition set_qualities (v : gmap string (list num)) (self : agent) : agent :=
  mkAgent (gamma self) (alpha self) (agent_id self) (env self) (model_path self)
          (policy self) (a self) v (iteration self).
Definition set_iteration (v : Z) (self : agent) : agent :=
  mkAgent (gamma self) (alpha self) (agent_id self) (env self) (model_path self)
          (policy self) (a self) (qualities self) v.

(** [__init__]: both dictionaries are empty [defaultdict(list)]. *)
Definition init (e : E) (path : string) (alpha0 gamma0 : R) : agent :=
  mkAgent gamma0 alpha0 0 e path ∅ 0 ∅ 0%Z.

(** [k in d.keys()] *)
Definition has_key {V} (d : gmap string V) (k : string) : bool :=
  match d !! k with Some _ => true | None => false end.

(** ** Masking *)

(** Modelled from the spec: [remove_illegal] of [rlcard.utils.utils],
    which [action_probs] calls and which is not among the sources.  The
    mass of every illegal action is zeroed and the rest is divided by its
    sum; when no legal action carries positive mass the call fails with
    [DegenerateDistribution]. *)
Definition mask (probs : list num) (legal : list nat) : list num :=
  imap (fun i p => if bool_decide (i ∈ legal) then p else Fin 0) probs.

Definition total (v : list num) : num := foldl nadd (Fin 0) v.

Definition positive_mass (probs : list num) (legal : list nat) : bool :=
  existsb (fun i => match probs !! i with
                    | Some p => ngt p (Fin 0)
                    | None => false
                    end) legal.

Definition remove_illegal {S} (probs : list num) (legal : list nat)
  : M S (list num) :=
  if positive_mass probs legal
  then let masked := mask probs legal in
       ret ((fun p => ndiv p (total masked)) <$> masked)
  else raise DegenerateDistribution.

(** ** [action_probs] *)

(** The array of [-inf] with [0] written at every legal index below
    [num_actions]. *)
Definition new_tactions (n : nat) (legal : list nat) : list num :=
  foldl (fun tactions action =>
           if bool_decide (action ∈ legal)
           then <[action := Fin 0]> tactions
           else tactions)
        (replicate n NegInf) (seq 0 n).

(** The [policy] and [action_values] arguments are always [self.policy]
    and [self.qualities]; the method reads and writes the agent.  In the
    [else] branch [policy[obs]] is a [defaultdict] read: a missing key is
    inserted with the empty list. *)
Definition action_probs (obs : string) (legal : list nat)
  : M agent (list num) :=
  do self <- get;
  do probs <-
    (if negb (has_key (policy self) obs) && negb (has_key (qualities self) obs)
     then
       let tactions := new_tactions (num_actions (env self)) legal in
       run modify (fun self => set_qualities (<[obs := tactions]> (qualities self)) self);
       do probs <- softmax tactions;
       run modify (fun self => set_policy (<[obs := probs]> (policy self)) self);
       ret probs
     else
       match policy self !! obs with
       | Some probs => ret probs
       | None =>
           run modify (fun self => set_policy (<[obs := []]> (policy self)) self);
           ret []
       end);
  remove_illegal probs legal.

(** ** [update_policy] *)

(** The loop [for i in next_state_values: qf[i] += alpha * (... - qf[i])].
    [qf] is the array stored in [self.qualities[obs]], so every
    assignment is visible in the dictionary at once, also when a later
    index raises. *)
Fixpoint update_loop (obs : string) (qf : list num)
    (next_state_values : list (nat * num)) : M agent (list num) :=
  match next_state_values with
  | [] => ret qf
  | (i, target) :: rest =>
      do self <- get;
      do q <- index qf i;
      let qf' := <[i := nadd q (nmul (Fin (alpha self)) (nsub target q))]> qf in
      run modify (fun self => set_qualities (<[obs := qf']> (qualities self)) self);
      update_loop obs qf' rest
  end.

(** [next_state_values] is a dict, here the list of its items in
    insertion order.  [self.qualities[obs]] is a [defaultdict] read. *)
Definition update_policy (obs : string) (next_state_values : list (nat * num))
    (legal : list nat) : M agent unit :=
  do self <- get;
  do qf <-
    match qualities self !! obs with
    | Some qf => ret qf
    | None =>
        run modify (fun self => set_qualities (<[obs := []]> (qualities self)) self);
        ret []
    end;
  do qf <- update_loop obs qf next_state_values;
  run modify (fun self => set_qualities (<[obs := qf]> (qualities self)) self);
  do probs <- softmax qf;
  modify (fun self => set_policy (<[obs := probs]> (policy self)) self).

(** ** [eval_step] *)

(** [np.argmax]: the first index of the largest entry, the first NaN if
    there is one; [ValueError] on an empty array. *)
Definition better (x best : num) : bool :=
  negb (is_nan best) && (is_nan x || ngt x best).

Fixpoint argmax_from (best_i : nat) (best : num) (i : nat) (l : list num) : nat :=
  match l with
  | [] => best_i
  | x :: rest =>
      if better x best
      then argmax_from i x (S i) rest
      else argmax_from best_i best (S i) rest
  end.

Definition argmax {S} (l : list num) : M S nat :=
  match l with
  | [] => raise ValueError
  | x :: rest => ret (argmax_from 0 x 1 rest)
  end.

(** The comprehension
    [{raw[i]: float(probs[legal[i]]) for i in range(len(legal))}]. *)
Fixpoint info_probs {S} (raw : list string) (legal : list nat) (probs : list num)
    (range : list nat) (acc : gmap string num) : M S (gmap string num) :=
  match range with
  | [] => ret acc
  | i :: rest =>
      do key <- index raw i;
      do action <- index legal i;
      do p <- index probs action;
      info_probs raw legal probs rest (<[key := p]> acc)
  end.

Definition eval_step (state : State) : M agent (nat * gmap string num) :=
  do probs <- action_probs (obs state) (legal_actions state);
  do action <- argmax probs;
  do info <- info_probs (raw_legal_actions state) (legal_actions state) probs
                        (seq 0 (length (legal_actions state))) ∅;
  ret (action, info).

(** ** [get_state] *)

Definition agent_get_state (player_id : nat) : M agent (string * list nat) :=
  do self <- get;
  let state := get_state (env self) player_id in
  ret (obs state, legal_actions state).

(** ** [traverse_tree] *)

Definition env_step (action : nat) : M agent unit :=
  do self <- get;
  match step (env self) action with
  | Some e => modify (set_env e)
  | None => raise EnvError
  end.

Definition env_step_back : M agent unit :=
  modify (fun self => set_env (step_back (env self)) self).

(** [quality[action] = q] on the items of a dict: an existing key keeps
    its place. *)
Fixpoint dict_set (d : list (nat * num)) (k : nat) (v : num) : list (nat * num) :=
  match d with
  | [] => [(k, v)]
  | (k', v') :: rest =>
      if bool_decide (k' = k) then (k, v) :: rest else (k', v') :: dict_set rest k v
  end.

(** [env.agents[current_player].step(state)].  The [step] of another
    [SARSAAgent] returns a pair, which the environment does not take as
    an action. *)
Definition opponent_step (current_player : nat) (state : State) : M agent nat :=
  do self <- get;
  do opponent <- index (get_agents (env self)) current_player;
  match opponent with
  | Other f => ret (f state)
  | Sarsa => raise TypeError
  end.

(** The loop over the legal actions of the agent's own node; [rec] is the
    recursive call. *)
Fixpoint children_loop (rec : M agent num) (probs : list num)
    (actions : list nat) (value : num) (quality : list (nat * num))
  : M agent (num * list (nat * num)) :=
  match actions with
  | [] => ret (value, quality)
  | action :: rest =>
      do action_prob <- index probs action;
      run env_step action;
      do q <- rec;
      run env_step_back;
      children_loop rec probs rest
        (nadd value (nmul action_prob q)) (dict_set quality action q)
  end.

Fixpoint traverse_tree (fuel : nat) : M agent num :=
  match fuel with
  | O => fun _ => OutOfFuel
  | S fuel =>
      do self <- get;
      if is_over (env self) then
        index (get_payoffs (env self)) (agent_id self)
      else
        let current_player := get_player_id (env self) in
        if negb (current_player =? agent_id self) then
          let state := get_state (env self) current_player in
          do action <- opponent_step current_player state;
          run env_step action;
          do Vstate <- traverse_tree fuel;
          run env_step_back;
          ret Vstate
        else
          do (obs, legal) <- agent_get_state current_player;
          do probs <- action_probs obs legal;
          do (value, quality) <-
            children_loop (traverse_tree fuel) probs legal (Fin 0) [];
          run update_policy obs quality legal;
          do self <- get;
          ret (nmul value (Fin (gamma self)))
  end.

(** ** [train] and [find_agent] *)

Fixpoint first_sarsa (id : nat) (agents : list agent_obj) : option nat :=
  match agents with
  | [] => None
  | Sarsa :: _ => Some id
  | Other _ :: rest => first_sarsa (S id) rest
  end.

Definition find_agent : M agent unit :=
  do self <- get;
  match first_sarsa 0 (get_agents (env self)) with
  | Some id => modify (set_agent_id id)
  | None => ret tt
  end.

Definition train (fuel : nat) : M agent unit :=
  run modify (fun self => set_iteration (iteration self + 1)%Z self);
  run modify (fun self => set_a (size (policy self)) self);
  run modify (fun self => set_env (reset (env self)) self);
  run find_agent;
  do _ <- traverse_tree fuel;
  ret tt.

End Agent.

(** ** Persistence *)

(** The directory at [model_path]: the three pickle files, each one
    present with its unpickled content or absent. *)
Record model_dir : Type := mkDir {
  policy_pkl : option (gmap string (list num));
  qualities_pkl : option (gmap string (list num));
  iteration_pkl : option Z
}.

Definition empty_dir : model_dir := mkDir None None None.

Section Persistence.
Context {E : Type}.

(** [open(path, 'rb')] followed by [pickle.load]. *)
Definition read_pkl {A} (file : option A) : M (SARSAAgent E) A :=
  match file with
  | Some content => ret content
  | None => raise FileNotFoundError
  end.

(** [save]: creates the directory when it is missing, then writes the
    three files.  The agent is only read.  The file system is a map from
    a path string to the directory found there: that two strings may
    name one directory, and that [os.makedirs] also creates the parents
    of the path, is not modelled, so the map says what is at the path
    string a call uses and nothing about other spellings or about the
    parents. *)
Definition save (self : SARSAAgent E) (fs : gmap string model_dir)
  : gmap string model_dir :=
  let fs := if has_key fs (model_path self) then fs
            else <[model_path self := empty_dir]> fs in
  let d := default empty_dir (fs !! model_path self) in
  let d := mkDir (Some (policy self)) (qualities_pkl d) (iteration_pkl d) in
  let d := mkDir (policy_pkl d) (Some (qualities self)) (iteration_pkl d) in
  let d := mkDir (policy_pkl d) (qualities_pkl d) (Some (iteration self)) in
  <[model_path self := d]> fs.

(** [load]: returns at once when [model_path] does not exist; otherwise
    the three attributes are assigned one after the other from the
    files, with no check of what was read. *)
Definition load (fs : gmap string model_dir) : M (SARSAAgent E) unit :=
  do self <- get;
  match fs !! model_path self with
  | None => ret tt
  | Some d =>
      do p <- read_pkl (policy_pkl d);
      run modify (set_policy p);
      do q <- read_pkl (qualities_pkl d);
      run modify (set_qualities q);
      do i <- read_pkl (iteration_pkl d);
      modify (set_iteration i)
  end.

End Persistence.

(** ** Finite game trees as an environment *)

(** Modelled from the spec: the environment ([rlcard]'s [Env] with
    [allow_step_back]), which is not among the sources.  A node is
    terminal with its payoffs, or has a player to move, that player's
    observation and one child per legal action; [step] moves to the child
    of a legal action and remembers the node it left, [step_back] returns
    to the node left by the last pending [step]. *)
Inductive tree : Type :=
| Leaf (payoffs : list num)
| Node (player : nat) (observation : string) (raw : list string)
       (children : list (nat * tree)).

Fixpoint child (children : list (nat * tree)) (action : nat) : option tree :=
  match children with
  | [] => None
  | (k, t) :: rest => if bool_decide (k = action) then Some t else child rest action
  end.

Fixpoint height (t : tree) : nat :=
  match t with
  | Leaf _ => 1
  | Node _ _ _ children =>
      S (foldr Nat.max 0 (map (fun kid => height (snd kid)) children))
  end.

Record game : Type := mkGame {
  g_num_actions : nat;
  g_agents : list agent_obj;
  g_root : tree;
  g_current : tree;
  g_trail : list tree
}.

Definition game_at (g : game) (t : tree) (trail : list tree) : game :=
  mkGame (g_num_actions g) (g_agents g) (g_root g) t trail.

Definition game_state (g : game) : State :=
  match g_current g with
  | Leaf _ => Build_State "" [] []
  | Node _ o raw children => Build_State o (children.*1) raw
  end.

Definition game_step (g : game) (action : nat) : option game :=
  match g_current g with
  | Leaf _ => None
  | Node _ _ _ children =>
      match child children action with
      | Some t => Some (game_at g t (g_current g :: g_trail g))
      | None => None
      end
  end.

Definition game_step_back (g : game) : game :=
  match g_trail g with
  | [] => g
  | t :: trail => game_at g t trail
  end.

#[export] Instance game_env : Env game := {|
  num_actions := g_num_actions;
  reset := fun g => game_at g (g_root g) [];
  is_over := fun g => match g_current g with Leaf _ => true | Node _ _ _ _ => false end;
  get_payoffs := fun g => match g_current g with Leaf p => p | Node _ _ _ _ => [] end;
  get_player_id := fun g => match g_current g with Leaf _ => 0 | Node p _ _ _ => p end;
  get_state := fun g _ => game_state g;
  step := game_step;
  step_back := game_step_back;
  get_agents := g_agents
|}.

(** ** The example script [limit_holdem_human.py]

    After a game the script shows the actions of the game from the last
    state of the first player's trajectory.  A state is given by the key
    the script reads, [action_record], a list of (player, action)
    pairs. *)

(** [l[-i]]: the [i]-th element from the end, [l[0]] for [i = 0];
    [IndexError] beyond the list. *)
Definition neg_index {S A} (l : list A) (i : nat) : M S A :=
  if bool_decide (i = 0) then index l 0
  else if bool_decide (i <= length l) then index l (length l - i)
  else raise IndexError.

(** The loop [for i in range(1, len(action_record)+1):
    _action_list.insert(0, action_record[-i])]. *)
Fixpoint action_list_loop {S A} (action_record : list A) (range : list nat)
    (_action_list : list A) : M S (list A) :=
  match range with
  | [] => ret _action_list
  | i :: rest =>
      do x <- neg_index action_record i;
      action_list_loop action_record rest (x :: _action_list)
  end.

(** The pairs the script prints for [trajectories]: those of the action
    record of [trajectories[0][-1]], nothing when [trajectories[0]] is
    empty. *)
Definition shown_actions {S} (trajectories : list (list (list (nat * string))))
  : M S (list (nat * string)) :=
  do first <- index trajectories 0;
  if negb (length first =? 0) then
    do action_record <- neg_index first 1;
    action_list_loop action_record (seq 1 (length action_record)) []
  else ret [].

(** ** A small game and a model directory used as concrete inputs *)

(** One decision node of seat 0 with two legal actions, leading to the
    payoffs [+1] and [-1] for seat 0. *)
Definition two_node_tree : tree :=
  Node 0 "root" ["call"; "fold"]
       [(0, Leaf [Fin 1; Fin (-1)]); (1, Leaf [Fin (-1); Fin 1])].

Definition two_node_game : game :=
  mkGame 2 [Sarsa; Other (fun _ => 0)] two_node_tree two_node_tree [].

Definition fresh_agent : SARSAAgent game :=
  init two_node_game "./sarsa_model" (1 / 10) (4 / 10).

(** A directory whose policy file knows a state that the qualities file
    does not, and whose vectors are shorter than the two actions of the
    game. *)
Definition mismatched_dir : model_dir :=
  mkDir (Some {["s" := [Fin 1]]}) (Some ∅) (Some 7%Z).

Definition mismatched_fs : gmap string model_dir :=
  {["./sarsa_model" := mismatched_dir]}.

(** The Store invariant: the two dictionaries have the same keys. *)
Definition store_inv {E} (self : SARSAAgent E) : Prop :=
  dom (policy self) = dom (qualities self).

(** The agent a method leaves behind, whether it returned or raised. *)
Definition final {S A} (P : S -> Prop) (r : res S A) : Prop :=
  match r with
  | Ok _ s | Raise _ s => P s
  | OutOfFuel => True
  end.

(** [action] is a greedy choice in [probs]: no entry is larger and
    every entry at a lower index is strictly smaller. *)
Definition is_greedy (probs : list num) (action : nat) : Prop :=
  exists p,
    probs !! action = Some p
    /\ (forall j q, probs !! j = Some q -> ngt q p = false)
    /\ (forall j q, j < action -> probs !! j = Some q -> ngt p q = true).

Definition no_nan (l : list num) : Prop := Forall (fun p => is_nan p = false) l.

(** ** Assertions on the outcome of a method *)

(** [triple D P m Q R]: from a state with [P], [m] returns a value and a
    state with [Q], or raises in a state with [R]; running out of fuel is
    allowed only when [D] holds. *)
Definition triple {S A} (D : Prop) (P : S -> Prop) (m : M S A)
    (Q : A -> S -> Prop) (R : S -> Prop) : Prop :=
  forall s, P s ->
    match m s with
    | Ok v s' => Q v s'
    | Raise _ s' => R s'
    | OutOfFuel => D
    end.

(** The Store invariant together with a set of fingerprints known to be
    stored. *)
Definition stored {E} (X : gset string) (self : SARSAAgent E) : Prop :=
  store_inv self /\ X ⊆ dom (qualities self).

(** ** The value of a node, as the spec words it *)

(** The sum of the child values [qs] weighted by the probabilities [ps]
    of the actions leading to them. *)
Definition weighted_sum (ps qs : list num) : num :=
  foldl nadd (Fin 0) (zip_with nmul ps qs).

(** The map from each action to the value of its child. *)
Definition quality_of (actions : list nat) (qs : list num) : list (nat * num) :=
  foldl (fun quality '(action, q) => dict_set quality action q) []
        (zip actions qs).

(** [children_values fuel s actions qs s']: from the agent [s], stepping
    into each of [actions] in turn, recursing and stepping back yields
    the child values [qs] and leaves the agent [s']. *)
Inductive children_values {E} `{Env E} (fuel : nat)
  : SARSAAgent E -> list nat -> list num -> SARSAAgent E -> Prop :=
| cv_nil s : children_values fuel s [] [] s
| cv_cons s action rest e1 q s2 qs s3 :
    step (env s) action = Some e1 ->
    traverse_tree fuel (set_env e1 s) = Ok q s2 ->
    children_values fuel (set_env (step_back (env s2)) s2) rest qs s3 ->
    children_values fuel s (action :: rest) (q :: qs) s3.

(** Everything of the agent but its environment and its two
    dictionaries. *)
Definition same_params {E} (s0 s : SARSAAgent E) : Prop :=
  gamma s = gamma s0 /\ alpha s = alpha s0 /\ agent_id s = agent_id s0
  /\ model_path s = model_path s0 /\ a s = a s0 /\ iteration s = iteration s0.

(** The state the two-node game shows to seat 0 at its root. *)
Definition root_state : State := Build_State "root" [0; 1] ["call"; "fold"].

(** ** Well-formed games and stores

    The conditions under which the walk returns: what the spec asks of
    the environment and of the opponents, and the shape [action_probs]
    and [update_policy] give to the entries of the store.  [legal_of]
    gives the legal actions of a fingerprint. *)

Section WellFormed.
Variables (n : nat) (agents : list agent_obj) (id : nat)
          (legal_of : string -> list nat).

(** A quality vector over the action space, finite at the legal indices
    and [-inf] at the others. *)
Definition shaped (legal : list nat) (qf : list num) : Prop :=
  length qf = n
  /\ forall i q, qf !! i = Some q ->
       if bool_decide (i ∈ legal) then is_fin q = true else q = NegInf.

Definition wf_store {E} (s : SARSAAgent E) : Prop :=
  forall o,
    match qualities s !! o with
    | Some qf =>
        shaped (legal_of o) qf
        /\ (exists i, i < n /\ i ∈ legal_of o)
        /\ policy s !! o = Some (softmax_values qf)
    | None => policy s !! o = None
    end.

(** Terminal nodes pay the agent a finite amount; at the agent's nodes
    the legal actions are those of the fingerprint, not empty and inside
    the action space; at the other nodes the player to move is an
    opponent whose action is legal. *)
Inductive wf_tree : tree -> Prop :=
| wf_leaf payoffs r :
    payoffs !! id = Some (Fin r) ->
    wf_tree (Leaf payoffs)
| wf_agent_node o raw children :
    children <> [] ->
    (forall action, action ∈ children.*1 <-> action ∈ legal_of o) ->
    (forall action, action ∈ children.*1 -> action < n) ->
    Forall (fun kid => wf_tree (snd kid)) children ->
    wf_tree (Node id o raw children)
| wf_opponent_node p o raw children f :
    p <> id ->
    agents !! p = Some (Other f) ->
    is_Some (child children (f (Build_State o (children.*1) raw))) ->
    Forall (fun kid => wf_tree (snd kid)) children ->
    wf_tree (Node p o raw children).

End WellFormed.

(** The agent [s] sits at the environment [g], plays seat [id] and has a
    well-formed store. *)
Definition ready (id : nat) (legal_of : string -> list nat) (g : game)
    (s : SARSAAgent game) : Prop :=
  env s = g /\ agent_id s = id /\ wf_store (g_num_actions g) legal_of s.

(** The game [g] is well formed from its current node on. *)
Definition wf_game (id : nat) (legal_of : string -> list nat) (g : game) : Prop :=
  wf_tree (g_num_actions g) (g_agents g) id legal_of (g_current g).

(** The values of an action-to-value map are all finite. *)
Definition finite_values (quality : list (nat * num)) : Prop :=
  Forall (fun kv => is_fin (snd kv) = true) quality.

(** The seat [find_agent] gives the agent: the first [SARSAAgent] of the
    environment's agents, the seat it had when there is none. *)
Definition seat {E} `{Env E} (self : SARSAAgent E) : nat :=
  default (agent_id self) (first_sarsa 0 (get_agents (env self))).

(** Every fingerprint of the two-node game has the legal actions 0 and 1. *)
Definition two_node_legal (o : string) : list nat := [0; 1].

(** ** Vocabulary of the statements *)



(** The agent after the first visit of the root of the two-node game. *)
Definition seen_agent : SARSAAgent game :=
  set_policy {["root" := [Fin (1 / 2); Fin (1 / 2)]]}
    (set_qualities {["root" := [Fin 0; Fin 0]]} fresh_agent).





(** The sum of a list of reals. *)
Definition sumR (l : list R) : R := foldr Rplus 0%R l.

(** The masked vector of a vector of reals. *)
Definition maskR (rs : list R) (legal : list nat) : list R :=
  imap (fun i r => if bool_decide (i ∈ legal) then r else 0%R) rs.

(** The number of legal actions among the indices of the action space. *)
Definition legal_count (n : nat) (legal : list nat) : nat :=
  length (filter (fun i => i ∈ legal) (seq 0 n)).

(** The uniform distribution over the legal actions, zero elsewhere. *)
Definition uniform_masses (n : nat) (legal : list nat) : list R :=
  (fun i => if bool_decide (i ∈ legal)
            then (1 / INR (legal_count n legal))%R
            else 0%R) <$> seq 0 n.

Definition uniform_over_legal (n : nat) (legal : list nat) : list num :=
  Fin <$> uniform_masses n legal.

(** The quality a fresh entry gives to index [i]. *)
Definition fresh_quality (legal : list nat) (i : nat) : num :=
  if bool_decide (i ∈ legal) then Fin 0 else NegInf.

(** The agent's environment is [g]. *)
Definition at_node (g : game) (s : SARSAAgent game) : Prop := env s = g.

(** A directory left without its qualities file. *)
Definition half_written_dir : model_dir :=
  mkDir (Some {["s" := [Fin 1]]}) None (Some 7%Z).

Definition half_written_fs : gmap string model_dir :=
  {["./sarsa_model" := half_written_dir]}.

(** [k] training iterations, one after the other. *)
Fixpoint repeat_train {E} `{Env E} (k : nat) (fuel : nat)
  : M (SARSAAgent E) unit :=
  match k with
  | O => ret tt
  | S k => run train fuel; repeat_train k fuel
  end.

(** [ms] is a probability distribution over the action space whose
    support is the legal actions. *)
Definition distribution_on (legal : list nat) (ms : list R) : Prop :=
  sumR ms = 1%R
  /\ forall i r, ms !! i = Some r ->
       if bool_decide (i ∈ legal) then (0 < r)%R else r = 0%R.

(** Every quality vector of [s0] is still stored in [s], with the
    length it had. *)
Definition keeps_vectors {E} (s0 s : SARSAAgent E) : Prop :=
  forall o qf, qualities s0 !! o = Some qf ->
    exists qf', qualities s !! o = Some qf' /\ length qf' = length qf.

(** The agent [s] has been left at [g] or below it: its environment is
    [g], or its trail of pending steps is that of [g] with more steps on
    top. *)
Definition left_inside (g : game) (s : SARSAAgent game) : Prop :=
  env s = g
  \/ exists pre, pre <> [] /\ g_trail (env s) = pre ++ g_trail g.

(** A game in which the opponent, after a legal first action, picks an
    action the environment does not have. *)
Definition broken_tree : tree :=
  Node 1 "root" ["go"]
       [(0, Node 1 "reply" ["stop"] [(0, Leaf [Fin 1; Fin (-1)])])].

Definition broken_opponent (state : State) : nat :=
  if String.eqb (obs state) "root" then 0 else 5.

Definition broken_game : game :=
  mkGame 1 [Sarsa; Other broken_opponent] broken_tree broken_tree [].

Definition broken_agent : SARSAAgent game :=
  init broken_game "./sarsa_model" (1 / 10) (4 / 10).

(** The root state with a name for its first action only. *)
Definition short_state : State := Build_State "root" [0; 1] ["call"].

(** An agent that has a quality vector for the root and no probability
    vector. *)
Definition orphan_agent : SARSAAgent game :=
  set_qualities {["root" := [Fin 0; Fin 0]]} fresh_agent.

(** An agent that knows one fingerprint, with a single action. *)
Definition single_agent : SARSAAgent game :=
  set_policy {["s" := softmax_values [Fin 0]]}
    (set_qualities {["s" := [Fin 0]]} fresh_agent).

(** ** Payoff bounds *)

(** Every finite quality of the store lies in [[-B, B]]. *)
Definition bounded_store {E} (B : R) (s : SARSAAgent E) : Prop :=
  forall o qf i r,
    qualities s !! o = Some qf -> qf !! i = Some (Fin r) ->
    (- B <= r <= B)%R.

(** The payoffs of seat [id] at the leaves of the tree lie in [[-B, B]],
    and no node lists an action twice. *)
Inductive payoffs_within (id : nat) (B : R) : tree -> Prop :=
| pw_leaf payoffs :
    (forall r, payoffs !! id = Some (Fin r) -> (- B <= r <= B)%R) ->
    payoffs_within id B (Leaf payoffs)
| pw_node p o raw children :
    NoDup children.*1 ->
    Forall (fun kid => payoffs_within id B (snd kid)) children ->
    payoffs_within id B (Node p o raw children).

(** The total mass [ms] gives to the actions of [actions]. *)
Definition picked (ms : list R) (actions : list nat) : R :=
  foldr (fun action acc => (default 0 (ms !! action) + acc)%R) 0%R actions.

(** The values of an action-to-value map are finite and in [[-B, B]]. *)
Definition values_within (B : R) (quality : list (nat * num)) : Prop :=
  Forall (fun kv => exists r, snd kv = Fin r /\ (- B <= r <= B)%R) quality.

(** The agent is ready at [g], its step size is [al], its discount [ga],
    and its store is within [[-B, B]]. *)
Definition ready_within (id : nat) (legal_of : string -> list nat)
    (B al ga : R) (g : game) (s : SARSAAgent game) : Prop :=
  ready id legal_of g s /\ bounded_store B s /\ alpha s = al /\ gamma s = ga.

(** ** A static action space *)

(** The number of actions is a constant of the environment: [reset],
    [step] and [step_back] leave it as it is. *)
Definition static_actions (E : Type) `{Env E} : Prop :=
  (forall e, num_actions (reset e) = num_actions e)
  /\ (forall e action e', step e action = Some e' ->
        num_actions e' = num_actions e)
  /\ (forall e, num_actions (step_back e) = num_actions e).

(** The Store invariant with [X] stored, in an environment that has
    actions. *)
Definition live {E} `{Env E} (X : gset string) (self : SARSAAgent E) : Prop :=
  stored X self /\ 0 < num_actions (env self).

(** A game without actions, over at once, and a new agent for it. *)
Definition empty_game : game := mkGame 0 [Sarsa] (Leaf [Fin 0]) (Leaf [Fin 0]) [].

Definition zero_agent : SARSAAgent game :=
  init empty_game "./sarsa_model" (1 / 10) (4 / 10).

(** * Theorems *)

(** ** Equations of the monad *)

Lemma bind_Ok {S A B} (m : M S A) (k : A -> M S B) (s s' : S) (v : A) :
  m s = Ok v s' -> bind m k s = k v s'.
Proof. intros Hm. unfold bind. by rewrite Hm. Qed.

Lemma bind_Raise {S A B} (m : M S A) (k : A -> M S B) (s s' : S) (e : exn) :
  m s = Raise e s' -> bind m k s = Raise e s'.
Proof. intros Hm. unfold bind. by rewrite Hm. Qed.

Lemma bind_assoc {S A B C} (m : M S A) (f : A -> M S B) (k : B -> M S C)
    (s : S) :
  bind (bind m f) k s = bind m (fun x => bind (f x) k) s.
Proof. unfold bind. by destruct (m s). Qed.

Lemma bind_get {S B} (k : S -> M S B) (s : S) : bind get k s = k s s.
Proof. reflexivity. Qed.

Lemma bind_modify {S B} (f : S -> S) (k : unit -> M S B) (s : S) :
  bind (modify f) k s = k tt (f s).
Proof. reflexivity. Qed.

Lemma bind_ret {S A B} (v : A) (k : A -> M S B) (s : S) :
  bind (ret v) k s = k v s.
Proof. reflexivity. Qed.

(** [softmax] returns on a vector with entries and raises on the empty
    one; it never writes. *)
Lemma softmax_Ok {S} (x : list num) (s : S) :
  x <> [] -> softmax x s = Ok (softmax_values x) s.
Proof. by destruct x. Qed.

Lemma softmax_length_Ok {S} (x : list num) (s : S) :
  0 < length x -> softmax x s = Ok (softmax_values x) s.
Proof. destruct x; simpl; [lia | done]. Qed.

Lemma softmax_nil {S} (s : S) : softmax [] s = Raise ValueError s.
Proof. reflexivity. Qed.

(** ** Persistence *)

Ltac run_monad :=
  unfold bind, get, modify, ret, raise, read_pkl, index in *; simpl in *.

(** C10: [load] with a model location that does not exist returns
    normally and leaves the agent, with both dictionaries and the
    iteration counter, exactly as it was. *)
Theorem load_missing_is_noop {E} (fs : gmap string model_dir) (self : SARSAAgent E) :
  fs !! model_path self = None ->
  load fs self = Ok tt self.
Proof.
  intros Hmiss. unfold load. run_monad. now rewrite Hmiss.
Qed.

Lemma load_missing_is_noop_witness :
  (∅ : gmap string model_dir) !! model_path fresh_agent = None
  /\ load ∅ fresh_agent = Ok tt fresh_agent.
Proof.
  split; [reflexivity | apply load_missing_is_noop; reflexivity].
Defined.

(** C9 fails on the code: [load] accepts a directory whose two mappings
    have different key sets and whose vectors are shorter than the action
    space; it returns normally and the agent holds the file contents. *)
Lemma load_mismatched_accepted :
  dom ({["s" := [Fin 1]]} : gmap string (list num)) <> dom (∅ : gmap string (list num))
  /\ (forall v : list num,
        ({["s" := [Fin 1]]} : gmap string (list num)) !! "s" = Some v ->
        length v <> num_actions (env fresh_agent))
  /\ load mismatched_fs fresh_agent
     = Ok tt (set_iteration 7 (set_qualities ∅ (set_policy {["s" := [Fin 1]]} fresh_agent)))
  /\ set_iteration 7 (set_qualities ∅ (set_policy {["s" := [Fin 1]]} fresh_agent))
     <> fresh_agent.
Proof.
  split; [| split; [| split]].
  - rewrite dom_singleton_L, dom_empty_L. set_solver.
  - intros v Hv. rewrite lookup_singleton_eq in Hv. injection Hv as <-.
    simpl. discriminate.
  - reflexivity.
  - intros Heq. apply (f_equal iteration) in Heq. discriminate.
Qed.

(** C9, as the code has it: [load] does not validate.  When the location
    and its three files exist, it returns normally and the policy, the
    qualities and the iteration counter of the agent are the contents of
    the files, whatever their key sets and vector lengths. *)
Theorem load_replaces_without_check {E} (fs : gmap string model_dir)
    (self : SARSAAgent E) (d : model_dir)
    (p q : gmap string (list num)) (i : Z) :
  fs !! model_path self = Some d ->
  policy_pkl d = Some p ->
  qualities_pkl d = Some q ->
  iteration_pkl d = Some i ->
  load fs self = Ok tt (set_iteration i (set_qualities q (set_policy p self))).
Proof.
  intros Hd Hp Hq Hi. unfold load. run_monad.
  rewrite Hd, Hp, Hq, Hi. reflexivity.
Qed.

Lemma load_replaces_without_check_witness :
  load mismatched_fs fresh_agent
  = Ok tt (set_iteration 7 (set_qualities ∅ (set_policy {["s" := [Fin 1]]} fresh_agent))).
Proof.
  apply (load_replaces_without_check mismatched_fs fresh_agent mismatched_dir);
    reflexivity.
Defined.

(** ** The update rule *)

Section Update.
Context {E : Type}.
Implicit Types (self : SARSAAgent E) (qf : list num) (obs : string).

Lemma set_qualities_id self qf obs :
  qualities self !! obs = Some qf ->
  set_qualities (<[obs := qf]> (qualities self)) self = self.
Proof.
  intros Hq. destruct self; unfold set_qualities; simpl in *.
  now rewrite insert_id.
Qed.

(** The loop of [update_policy] on in-range indices: it returns, the
    stored array is the returned one, untouched slots keep their value
    and, when no index repeats, every listed slot has moved once. *)
Lemma update_loop_spec obs (items : list (nat * num)) :
  forall qf self,
    qualities self !! obs = Some qf ->
    (forall i, i ∈ items.*1 -> i < length qf) ->
    exists qf',
      update_loop obs qf items self
      = Ok qf' (set_qualities (<[obs := qf']> (qualities self)) self)
      /\ length qf' = length qf
      /\ (forall i, i ∉ items.*1 -> qf' !! i = qf !! i)
      /\ (NoDup items.*1 ->
          forall i target q, (i, target) ∈ items -> qf !! i = Some q ->
            qf' !! i
            = Some (nadd q (nmul (Fin (alpha self)) (nsub target q)))).
Proof.
  induction items as [| [k t] items IH]; intros qf self Hq Hrange.
  - exists qf. simpl. unfold ret. rewrite set_qualities_id by done.
    repeat split; try done. intros _ i target q Hin. by apply elem_of_nil in Hin.
  - cbn [update_loop]. unfold bind at 1, get. unfold bind at 1, index.
    assert (Hk : k < length qf) by (apply Hrange; simpl; left).
    destruct (lookup_lt_is_Some_2 qf k Hk) as [qk Hqk]. rewrite Hqk.
    unfold ret at 1. unfold bind at 1, modify.
    set (qf1 := <[k := nadd qk (nmul (Fin (alpha self)) (nsub t qk))]> qf).
    set (self1 := set_qualities (<[obs := qf1]> (qualities self)) self).
    destruct (IH qf1 self1) as (qf' & Hrun & Hlen & Hother & Hmoved).
    { subst self1. simpl. apply lookup_insert_eq. }
    { intros i Hi. subst qf1. rewrite length_insert. apply Hrange. simpl. by right. }
    exists qf'. split; [| split; [| split]].
    + rewrite Hrun. subst self1. simpl. rewrite insert_insert_eq. reflexivity.
    + rewrite Hlen. subst qf1. apply length_insert.
    + intros i Hi. simpl in Hi. apply not_elem_of_cons in Hi as [Hne Hi].
      rewrite Hother by done. subst qf1. by apply list_lookup_insert_ne.
    + intros Hnd i target q Hin Hqi. simpl in Hnd.
      apply NoDup_cons in Hnd as [Hfresh Hnd].
      apply elem_of_cons in Hin as [Heq | Hin].
      * injection Heq as -> ->.
        rewrite Hother by done. subst qf1.
        rewrite list_lookup_insert_eq by done.
        rewrite Hqk in Hqi. by injection Hqi as ->.
      * assert (Hne : k <> i).
        { intros ->. apply Hfresh. apply list_elem_of_fmap.
          by exists (i, target). }
        subst self1. simpl in Hmoved. apply Hmoved; try done.
        subst qf1. by rewrite list_lookup_insert_ne.
Qed.

(** [update_policy] on a stored fingerprint with entries and in-range,
    distinct indices. *)
Lemma update_policy_spec self obs qf
    (next_state_values : list (nat * num)) (legal : list nat) :
  qualities self !! obs = Some qf ->
  qf <> [] ->
  NoDup next_state_values.*1 ->
  (forall i, i ∈ next_state_values.*1 -> i < length qf) ->
  exists qf',
    update_policy obs next_state_values legal self
    = Ok tt (set_policy (<[obs := softmax_values qf']> (policy self))
               (set_qualities (<[obs := qf']> (qualities self)) self))
    /\ length qf' = length qf
    /\ (forall i target q,
          (i, target) ∈ next_state_values -> qf !! i = Some q ->
          qf' !! i = Some (nadd q (nmul (Fin (alpha self)) (nsub target q))))
    /\ (forall i, i ∉ next_state_values.*1 -> qf' !! i = qf !! i).
Proof.
  intros Hq Hne Hnd Hrange.
  destruct (update_loop_spec obs next_state_values qf self Hq Hrange)
    as (qf' & Hrun & Hlen & Hother & Hmoved).
  exists qf'. split; [| split; [| split]]; auto.
  unfold update_policy. rewrite bind_get, Hq, bind_ret.
  rewrite (bind_Ok _ _ _ _ _ Hrun), bind_modify.
  rewrite (bind_Ok _ _ _ _ _ (softmax_length_Ok qf' _ ltac:(
    rewrite Hlen; destruct qf; [done | simpl; lia]))).
  unfold modify. simpl. by rewrite insert_insert_eq.
Qed.

(** [update_policy] on a stored fingerprint whose vector has no entry,
    with no target: nothing is moved and [softmax] raises. *)
Lemma update_policy_empty self obs (legal : list nat) :
  qualities self !! obs = Some [] ->
  update_policy obs [] legal self = Raise ValueError self.
Proof.
  intros Hq. unfold update_policy. rewrite bind_get, Hq, bind_ret.
  cbn [update_loop]. rewrite bind_ret, bind_modify.
  by rewrite (set_qualities_id self [] obs Hq).
Qed.

(** C2: for a stored fingerprint and a map of targets whose indices are
    slots of the stored quality vector, [update_policy] returns when the
    vector has entries; the stored quality vector has every supplied
    slot moved by [q + alpha * (target - q)] and every other slot
    unchanged, and the stored probability vector is the softmax of the
    whole updated quality vector.  A stored vector without entries
    leaves no slot to supply; [softmax] then raises [ValueError] and
    nothing is written. *)
Theorem update_policy_moves_supplied_slots self obs qf
    (next_state_values : list (nat * num)) (legal : list nat) :
  qualities self !! obs = Some qf ->
  NoDup next_state_values.*1 ->
  (forall i, i ∈ next_state_values.*1 -> i < length qf) ->
  (qf <> [] ->
   exists qf',
     update_policy obs next_state_values legal self
     = Ok tt (set_policy (<[obs := softmax_values qf']> (policy self))
                (set_qualities (<[obs := qf']> (qualities self)) self))
     /\ length qf' = length qf
     /\ (forall i target q,
           (i, target) ∈ next_state_values -> qf !! i = Some q ->
           qf' !! i = Some (nadd q (nmul (Fin (alpha self)) (nsub target q))))
     /\ (forall i, i ∉ next_state_values.*1 -> qf' !! i = qf !! i))
  /\ (qf = [] ->
      next_state_values = []
      /\ update_policy obs next_state_values legal self
         = Raise ValueError self).
Proof.
  intros Hq Hnd Hrange. split.
  - intros Hne. by apply update_policy_spec.
  - intros ->.
    assert (Hnil : next_state_values = []).
    { destruct next_state_values as [| [i t] rest]; [done |].
      specialize (Hrange i ltac:(simpl; left)). simpl in Hrange. lia. }
    split; [done |]. rewrite Hnil. by apply update_policy_empty.
Qed.

End Update.

Lemma update_policy_moves_supplied_slots_witness :
  exists qf',
    update_policy "root" [(0, Fin 1); (1, Fin (-1))] [0; 1] seen_agent
    = Ok tt (set_policy (<[ "root" := softmax_values qf']> (policy seen_agent))
               (set_qualities (<[ "root" := qf']> (qualities seen_agent)) seen_agent))
    /\ length qf' = 2
    /\ (forall i target q,
          (i, target) ∈ [(0, Fin 1); (1, Fin (-1))] ->
          [Fin 0; Fin 0] !! i = Some q ->
          qf' !! i = Some (nadd q (nmul (Fin (alpha seen_agent)) (nsub target q))))
    /\ (forall i, i ∉ [(0, Fin 1); (1, Fin (-1))].*1 ->
          qf' !! i = [Fin 0; Fin 0] !! i).
Proof.
  apply (update_policy_moves_supplied_slots seen_agent "root" [Fin 0; Fin 0]).
  - reflexivity.
  - simpl. repeat constructor; set_solver.
  - simpl. intros i Hi.
    repeat (apply elem_of_cons in Hi as [-> | Hi]; [lia |]).
    by apply elem_of_nil in Hi.
  - discriminate.
Defined.

Section Contraction.
Context {E : Type}.
Implicit Types (self : SARSAAgent E).

Local Open Scope R_scope.







End Contraction.




(** ** The fresh quality vector *)

Lemma tactions_fold (legal : list nat) (k : nat) :
  forall (s : nat) (t : list num),
    foldl (fun tactions action =>
             if bool_decide (action ∈ legal)
             then <[action := Fin 0]> tactions
             else tactions) t (seq s k)
    = imap (fun i v => if bool_decide (s <= i < s + k /\ i ∈ legal)
                       then Fin 0 else v) t.
Proof.
  induction k as [| k IH]; intros s t.
  - simpl. apply list_eq. intros i. rewrite list_lookup_imap.
    destruct (t !! i) eqn:Hi; simpl; [| done].
    rewrite bool_decide_eq_false_2; [done | lia].
  - simpl. rewrite IH. apply list_eq. intros i.
    rewrite !list_lookup_imap.
    destruct (bool_decide (s ∈ legal)) eqn:Hs.
    + apply bool_decide_eq_true in Hs.
      destruct (decide (i = s)) as [-> | Hne].
      * destruct (t !! s) eqn:Hts.
        -- rewrite list_lookup_insert_eq by (by eapply lookup_lt_Some).
           simpl. f_equal. rewrite bool_decide_eq_false_2 by lia.
           rewrite bool_decide_eq_true_2; [done | split; [lia | done]].
        -- rewrite list_insert_ge by (by apply lookup_ge_None). by rewrite Hts.
      * rewrite list_lookup_insert_ne by done.
        destruct (t !! i); simpl; [| done].
        f_equal. repeat case_bool_decide; try done; exfalso; naive_solver lia.
    + apply bool_decide_eq_false in Hs.
      destruct (t !! i); simpl; [| done]. f_equal.
      destruct (decide (i = s)) as [-> | ?];
        repeat case_bool_decide; try done; exfalso; naive_solver lia.
Qed.

Lemma new_tactions_eq (n : nat) (legal : list nat) :
  new_tactions n legal = fresh_quality legal <$> seq 0 n.
Proof.
  unfold new_tactions. rewrite tactions_fold. apply list_eq. intros i.
  rewrite list_lookup_imap, list_lookup_fmap.
  destruct (decide (i < n)) as [Hlt | Hge].
  - rewrite lookup_replicate_2 by done. rewrite lookup_seq_lt by done. simpl.
    unfold fresh_quality. f_equal.
    destruct (decide (i ∈ legal)) as [Hin | Hout].
    + rewrite !bool_decide_eq_true_2; try done. split; [lia | done].
    + rewrite !bool_decide_eq_false_2; try done. by intros [_ ?].
  - rewrite (proj1 (lookup_replicate_None n NegInf i)) by lia.
    rewrite lookup_seq_ge by lia. done.
Qed.

Lemma new_tactions_length (n : nat) (legal : list nat) :
  length (new_tactions n legal) = n.
Proof. by rewrite new_tactions_eq, length_fmap, length_seq. Qed.

(** ** The branches of [action_probs] *)

Section Branches.
Context {E : Type} `{Env E}.
Implicit Types (self : SARSAAgent E).

(** A stored probability vector is masked and nothing is written. *)
Lemma action_probs_known self obs (stored : list num) (legal : list nat) :
  policy self !! obs = Some stored ->
  action_probs obs legal self = remove_illegal stored legal self.
Proof.
  intros Hp. unfold action_probs. rewrite bind_get. unfold has_key.
  rewrite Hp. simpl andb. cbv iota. by rewrite bind_ret.
Qed.

(** A quality vector without a probability vector: the [defaultdict]
    read stores the empty list, which is then masked. *)
Lemma action_probs_orphan self obs (qf : list num) (legal : list nat) :
  policy self !! obs = None ->
  qualities self !! obs = Some qf ->
  action_probs obs legal self
  = remove_illegal [] legal (set_policy (<[obs := []]> (policy self)) self).
Proof.
  intros Hp Hq. unfold action_probs. rewrite bind_get. unfold has_key.
  rewrite Hp, Hq. simpl andb. cbv iota.
  by rewrite bind_assoc, bind_modify, bind_ret.
Qed.

(** The first visit with an action space that is not empty: both entries
    are written, then the new probability vector is masked. *)
Lemma action_probs_unseen self obs (legal : list nat) :
  policy self !! obs = None ->
  qualities self !! obs = None ->
  0 < num_actions (env self) ->
  let tactions := new_tactions (num_actions (env self)) legal in
  action_probs obs legal self
  = remove_illegal (softmax_values tactions) legal
      (set_policy (<[obs := softmax_values tactions]> (policy self))
         (set_qualities (<[obs := tactions]> (qualities self)) self)).
Proof.
  intros Hp Hq Hn tactions. unfold action_probs. rewrite bind_get.
  unfold has_key. rewrite Hp, Hq. simpl andb. cbv iota. fold tactions.
  rewrite bind_assoc, bind_modify, bind_assoc.
  rewrite (bind_Ok _ _ _ _ _ (softmax_length_Ok tactions _ ltac:(
    unfold tactions; by rewrite new_tactions_length))).
  by rewrite bind_assoc, bind_modify, bind_ret.
Qed.

(** The first visit with an empty action space: the empty quality vector
    is written, [softmax] raises and no probability vector is written. *)
Lemma action_probs_unseen_empty self obs (legal : list nat) :
  policy self !! obs = None ->
  qualities self !! obs = None ->
  num_actions (env self) = 0 ->
  action_probs obs legal self
  = Raise ValueError (set_qualities (<[obs := []]> (qualities self)) self).
Proof.
  intros Hp Hq Hn. unfold action_probs. rewrite bind_get.
  unfold has_key. rewrite Hp, Hq. simpl andb. cbv iota. rewrite Hn.
  by rewrite bind_assoc, bind_modify.
Qed.

End Branches.

(** ** Masking *)

Section Masking.
Local Open Scope R_scope.

Lemma total_fin_acc (l : list R) :
  forall acc, foldl nadd (Fin acc) (Fin <$> l) = Fin (acc + sumR l).
Proof.
  induction l as [| r l IH]; intros acc; simpl.
  - f_equal. lra.
  - rewrite IH. f_equal. lra.
Qed.

Lemma total_fin (l : list R) : total (Fin <$> l) = Fin (sumR l).
Proof. unfold total. rewrite total_fin_acc. f_equal. lra. Qed.

Lemma sumR_nonneg (l : list R) : Forall (fun r => 0 <= r) l -> 0 <= sumR l.
Proof. induction 1; simpl; lra. Qed.

Lemma sumR_lookup_le (l : list R) (i : nat) (r : R) :
  Forall (fun r => 0 <= r) l -> l !! i = Some r -> r <= sumR l.
Proof.
  intros Hall. revert i. induction Hall as [| x l Hx Hall IH]; intros i Hi.
  - by rewrite lookup_nil in Hi.
  - pose proof (sumR_nonneg l Hall). destruct i as [| i]; simpl in *.
    + injection Hi as ->. lra.
    + specialize (IH i Hi). lra.
Qed.

Lemma sumR_scale (l : list R) (c : R) :
  sumR ((fun r => r / c) <$> l) = sumR l / c.
Proof.
  induction l as [| r l IH].
  - simpl. unfold Rdiv. by rewrite Rmult_0_l.
  - rewrite fmap_cons. unfold sumR in *. cbn [foldr]. rewrite IH.
    unfold Rdiv. ring.
Qed.

Lemma mask_fin (rs : list R) (legal : list nat) :
  mask (Fin <$> rs) legal = Fin <$> maskR rs legal.
Proof.
  unfold mask, maskR. apply list_eq. intros i.
  rewrite list_lookup_imap, !list_lookup_fmap, list_lookup_imap.
  destruct (rs !! i); simpl; [| done]. by destruct (bool_decide _).
Qed.

Lemma maskR_nonneg (rs : list R) (legal : list nat) :
  Forall (fun r => 0 <= r) rs -> Forall (fun r => 0 <= r) (maskR rs legal).
Proof.
  intros Hall. apply Forall_lookup. intros i r Hi.
  unfold maskR in Hi. rewrite list_lookup_imap in Hi.
  destruct (rs !! i) as [x |] eqn:Hx; simpl in Hi; [| done].
  injection Hi as <-. destruct (bool_decide _); [| lra].
  by eapply (proj1 (Forall_lookup _ _) Hall).
Qed.

Lemma positive_mass_sum (rs : list R) (legal : list nat) :
  Forall (fun r => 0 <= r) rs ->
  positive_mass (Fin <$> rs) legal = true ->
  0 < sumR (maskR rs legal).
Proof.
  intros Hall Hpos. unfold positive_mass in Hpos.
  apply existsb_exists in Hpos as (i & Hin & Hi).
  apply list_elem_of_In in Hin. rewrite list_lookup_fmap in Hi.
  destruct (rs !! i) as [r |] eqn:Hr; simpl in Hi; [| done].
  destruct (Rlt_dec 0 r) as [Hlt |]; [| done].
  apply Rlt_le_trans with r; [done |].
  apply (sumR_lookup_le _ i); [by apply maskR_nonneg |].
  unfold maskR. rewrite list_lookup_imap, Hr. simpl.
  by rewrite bool_decide_eq_true_2.
Qed.

Lemma ndiv_fin_pos (x c : R) : 0 < c -> ndiv (Fin x) (Fin c) = Fin (x / c).
Proof.
  intros Hc. simpl. unfold Rpos. by destruct (Rlt_dec 0 c).
Qed.

(** Masking a vector of non-negative masses with positive legal mass. *)
Lemma remove_illegal_fin {S : Type} (s : S) (rs : list R) (legal : list nat) :
  Forall (fun r => 0 <= r) rs ->
  positive_mass (Fin <$> rs) legal = true ->
  remove_illegal (Fin <$> rs) legal s
  = Ok (Fin <$> ((fun r => r / sumR (maskR rs legal)) <$> maskR rs legal)) s.
Proof.
  intros Hall Hpos. pose proof (positive_mass_sum rs legal Hall Hpos) as Hsum.
  unfold remove_illegal. rewrite Hpos. unfold ret. f_equal.
  rewrite mask_fin, total_fin. rewrite <- !list_fmap_compose.
  apply list_fmap_ext. intros _ x _. simpl. by apply ndiv_fin_pos.
Qed.

(** Every vector [action_probs] hands out is the masked stored vector,
    and the only exceptions it raises are the one of the masking and,
    when the action space is empty, the [ValueError] of [softmax]. *)
Lemma action_probs_masks {E} `{Env E} (self : SARSAAgent E) obs
    (legal : list nat) :
  match action_probs obs legal self with
  | Ok probs self' =>
      exists stored,
        policy self' !! obs = Some stored
        /\ remove_illegal stored legal self' = Ok probs self'
  | Raise e self' =>
      (e = DegenerateDistribution
       /\ exists stored,
            policy self' !! obs = Some stored
            /\ positive_mass stored legal = false)
      \/ (e = ValueError /\ num_actions (env self) = 0%nat)
  | OutOfFuel => False
  end.
Proof.
  assert (Hmask : forall stored (s1 : SARSAAgent E),
             policy s1 !! obs = Some stored ->
             match remove_illegal stored legal s1 with
             | Ok probs self' =>
                 exists stored,
                   policy self' !! obs = Some stored
                   /\ remove_illegal stored legal self' = Ok probs self'
             | Raise e self' =>
                 (e = DegenerateDistribution
                  /\ exists stored,
                       policy self' !! obs = Some stored
                       /\ positive_mass stored legal = false)
                 \/ (e = ValueError /\ num_actions (env self) = 0%nat)
             | OutOfFuel => False
             end).
  { intros stored s1 Hst. unfold remove_illegal.
    destruct (positive_mass stored legal) eqn:Hpos; simpl.
    - exists stored. split; [done |]. unfold remove_illegal. by rewrite Hpos.
    - left. split; [done |]. by exists stored. }
  destruct (policy self !! obs) as [stored |] eqn:Hp.
  { rewrite (action_probs_known self obs stored) by done. by apply Hmask. }
  destruct (qualities self !! obs) as [qf |] eqn:Hq.
  { rewrite (action_probs_orphan self obs qf) by done.
    apply Hmask. simpl. apply lookup_insert_eq. }
  destruct (decide (num_actions (env self) = 0%nat)) as [Hz | Hnz].
  - rewrite action_probs_unseen_empty by done. by right.
  - rewrite action_probs_unseen by (done || lia).
    apply Hmask. simpl. apply lookup_insert_eq.
Qed.

(** C5: every vector [action_probs] hands out has been masked to the
    legal set.  Masking a vector of non-negative masses: when a legal
    action carries positive mass the call returns the vector with every
    illegal entry zero, every legal entry divided by the legal total, and
    the entries summing to 1; when none does it raises
    [DegenerateDistribution], as it does on the softmax of a quality
    vector that is [-inf] everywhere.  [action_probs] raises nothing
    else, but for the [ValueError] of [softmax] on a first visit in an
    environment without actions. *)
Theorem masking_renormalises_or_fails {E} `{Env E} (s : SARSAAgent E)
    (rs : list R) (legal : list nat) :
  Forall (fun r => 0 <= r) rs ->
  (positive_mass (Fin <$> rs) legal = true ->
     exists ms : list R,
       remove_illegal (Fin <$> rs) legal s = Ok (Fin <$> ms) s
       /\ length ms = length rs
       /\ (forall i, i ∉ legal -> (i < length rs)%nat -> ms !! i = Some 0)
       /\ (forall i r, i ∈ legal -> rs !! i = Some r ->
             ms !! i = Some (r / sumR (maskR rs legal)))
       /\ sumR ms = 1)
  /\ (positive_mass (Fin <$> rs) legal = false ->
        remove_illegal (Fin <$> rs) legal s = Raise DegenerateDistribution s)
  /\ (forall qf : list num,
        Forall (fun q => q = NegInf) qf ->
        remove_illegal (softmax_values qf) legal s = Raise DegenerateDistribution s)
  /\ (forall obs,
        match action_probs obs legal s with
        | Ok probs s' =>
            exists stored,
              policy s' !! obs = Some stored
              /\ remove_illegal stored legal s' = Ok probs s'
        | Raise e s' =>
            (e = DegenerateDistribution
             /\ exists stored,
                  policy s' !! obs = Some stored
                  /\ positive_mass stored legal = false)
            \/ (e = ValueError /\ num_actions (env s) = 0%nat)
        | OutOfFuel => False
        end).
Proof.
  intros Hall. split; [| split; [| split]];
    [| | | intros obs; apply action_probs_masks].
  - intros Hpos. pose proof (positive_mass_sum rs legal Hall Hpos) as Hsum.
    set (c := sumR (maskR rs legal)) in *.
    exists ((fun r => r / c) <$> maskR rs legal).
    split; [| split; [| split; [| split]]].
    + by apply remove_illegal_fin.
    + unfold maskR. by rewrite length_fmap, length_imap.
    + intros i Hout Hlt. destruct (lookup_lt_is_Some_2 rs i Hlt) as [r Hr].
      unfold maskR. rewrite list_lookup_fmap, list_lookup_imap, Hr. simpl.
      rewrite bool_decide_eq_false_2 by done. f_equal. unfold Rdiv. ring.
    + intros i r Hin Hr.
      unfold maskR. rewrite list_lookup_fmap, list_lookup_imap, Hr. simpl.
      by rewrite bool_decide_eq_true_2.
    + rewrite sumR_scale. fold c. field. lra.
  - intros Hzero. unfold remove_illegal. by rewrite Hzero.
  - intros qf Hqf. unfold remove_illegal.
    assert (Hsm : softmax_values qf = (fun _ => NaN) <$> qf).
    { unfold softmax_values, softmax_defined.
      assert (Hnone : existsb is_fin qf = false).
      { induction Hqf as [| q qf -> _ IH]; simpl; [done | exact IH]. }
      rewrite Hnone. by rewrite andb_false_r. }
    assert (Hzero : positive_mass (softmax_values qf) legal = false).
    { rewrite Hsm. unfold positive_mass. clear Hqf Hsm.
      induction legal as [| i legal IH]; simpl; [done |].
      rewrite IH, list_lookup_fmap. by destruct (qf !! i). }
    by rewrite Hzero.
Qed.

End Masking.

Lemma masking_renormalises_or_fails_witness :
  exists ms : list R,
    remove_illegal (Fin <$> [(1 / 2)%R; (1 / 2)%R]) [0] fresh_agent
    = Ok (Fin <$> ms) fresh_agent
    /\ length ms = 2
    /\ ms !! 1 = Some 0%R
    /\ sumR ms = 1%R.
Proof.
  assert (Hnn : Forall (fun r => (0 <= r)%R) [(1 / 2)%R; (1 / 2)%R])
    by (repeat constructor; lra).
  destruct (masking_renormalises_or_fails fresh_agent _ [0] Hnn)
    as [Hok _].
  destruct Hok as (ms & Hrun & Hlen & Hzero & _ & Hsum).
  { unfold positive_mass. simpl. by destruct (Rlt_dec 0 (1 / 2)); [| lra]. }
  exists ms. repeat split; try done.
  apply Hzero; [set_solver | simpl; lia].
Defined.

(** ** First visit *)

Lemma sum_exp_fresh (legal : list nat) (l : list nat) :
  sum_exp (fresh_quality legal <$> l)
  = INR (length (filter (fun i => i ∈ legal) l)).
Proof.
  unfold sum_exp. induction l as [| i l IH]; [done |].
  rewrite fmap_cons. cbn [fmap list_fmap foldr] in *. rewrite IH.
  unfold fresh_quality at 1. destruct (decide (i ∈ legal)) as [Hin | Hout].
  - rewrite bool_decide_eq_true_2 by done. rewrite filter_cons_True by done.
    cbn [length expR]. rewrite S_INR, exp_0. lra.
  - rewrite bool_decide_eq_false_2 by done. rewrite filter_cons_False by done.
    cbn [expR]. lra.
Qed.

Lemma softmax_defined_fresh (legal : list nat) (l : list nat) :
  (exists i, i ∈ l /\ i ∈ legal) ->
  softmax_defined (fresh_quality legal <$> l) = true.
Proof.
  intros (i & Hil & Hin). unfold softmax_defined.
  apply andb_true_iff. split.
  - apply forallb_forall. intros v Hv. apply list_elem_of_In in Hv.
    apply list_elem_of_fmap in Hv as (j & -> & _).
    unfold fresh_quality. by destruct (bool_decide _).
  - apply existsb_exists. exists (Fin 0). split; [| done].
    apply list_elem_of_In. apply list_elem_of_fmap. exists i. split; [| done].
    unfold fresh_quality. by rewrite bool_decide_eq_true_2.
Qed.

(** The softmax of a fresh quality vector is the uniform distribution
    over the legal actions. *)
Lemma softmax_fresh_uniform (n : nat) (legal : list nat) :
  (exists i, i < n /\ i ∈ legal) ->
  softmax_values (new_tactions n legal) = uniform_over_legal n legal.
Proof.
  intros (i & Hlt & Hin). rewrite new_tactions_eq. unfold softmax_values.
  rewrite softmax_defined_fresh.
  2:{ exists i. split; [| done]. apply elem_of_seq. lia. }
  rewrite sum_exp_fresh. unfold uniform_over_legal, uniform_masses, legal_count.
  rewrite <- !list_fmap_compose. apply list_fmap_ext. intros _ j _. simpl.
  unfold fresh_quality. destruct (bool_decide (j ∈ legal)); cbn [expR].
  - by rewrite exp_0.
  - f_equal. unfold Rdiv. apply Rmult_0_l.
Qed.

Lemma legal_count_pos (n : nat) (legal : list nat) (i : nat) :
  i < n -> i ∈ legal -> 0 < legal_count n legal.
Proof.
  intros Hlt Hin. unfold legal_count.
  assert (Hf : i ∈ filter (fun i => i ∈ legal) (seq 0 n)).
  { apply list_elem_of_filter. split; [done |]. apply elem_of_seq. lia. }
  destruct (filter _ _); [by apply elem_of_nil in Hf | simpl; lia].
Qed.

Lemma uniform_masses_lookup (n : nat) (legal : list nat) (i : nat) :
  i < n ->
  uniform_masses n legal !! i
  = Some (if bool_decide (i ∈ legal)
          then (1 / INR (legal_count n legal))%R else 0%R).
Proof.
  intros Hlt. unfold uniform_masses.
  rewrite list_lookup_fmap, lookup_seq_lt by done. done.
Qed.

Lemma uniform_masses_nonneg (n : nat) (legal : list nat) :
  Forall (fun r => (0 <= r)%R) (uniform_masses n legal).
Proof.
  apply Forall_fmap, Forall_forall. intros i _. simpl.
  destruct (bool_decide _); [| lra].
  destruct (legal_count n legal) as [| k].
  - simpl INR. unfold Rdiv. rewrite Rinv_0. lra.
  - apply Rlt_le, Rdiv_lt_0_compat; [lra |]. apply lt_0_INR. lia.
Qed.

Lemma positive_mass_uniform (n : nat) (legal : list nat) :
  (exists i, i < n /\ i ∈ legal) ->
  positive_mass (uniform_over_legal n legal) legal = true.
Proof.
  intros (i & Hlt & Hin). unfold positive_mass.
  apply existsb_exists. exists i. split; [by apply list_elem_of_In |].
  unfold uniform_over_legal.
  rewrite list_lookup_fmap, uniform_masses_lookup by done.
  rewrite bool_decide_eq_true_2 by done.
  simpl. destruct (Rlt_dec _ _) as [| Hn]; [done |]. exfalso. apply Hn.
  apply Rdiv_lt_0_compat; [lra |]. apply lt_0_INR.
  by eapply legal_count_pos.
Qed.

Section FirstVisit.
Context {E : Type} `{Env E}.
Implicit Types (self : SARSAAgent E).

(** The first visit of [obs]: what is stored and what is returned. *)
Lemma action_probs_fresh self obs (legal : list nat) :
  policy self !! obs = None ->
  qualities self !! obs = None ->
  (exists i, i < num_actions (env self) /\ i ∈ legal) ->
  let n := num_actions (env self) in
  exists ms : list R,
    length ms = n
    /\ action_probs obs legal self
       = Ok (Fin <$> ms)
            (set_policy (<[obs := uniform_over_legal n legal]> (policy self))
               (set_qualities (<[obs := new_tactions n legal]> (qualities self))
                  self)).
Proof.
  intros Hp Hq Hlegal n.
  exists ((fun r => (r / sumR (maskR (uniform_masses n legal) legal))%R)
            <$> maskR (uniform_masses n legal) legal).
  split.
  { unfold maskR, uniform_masses.
    by rewrite length_fmap, length_imap, length_fmap, length_seq. }
  rewrite action_probs_unseen;
    [| done | done | destruct Hlegal as (i & Hi & _); lia].
  fold n. cbv zeta. rewrite softmax_fresh_uniform by done.
  unfold uniform_over_legal at 1.
  rewrite remove_illegal_fin; [done | apply uniform_masses_nonneg |].
  by apply positive_mass_uniform.
Qed.

(** C7: on the first visit of a fingerprint with a legal action in the
    action space, [action_probs] returns and stores a quality vector over
    the whole action space, [0] at every legal index and [-inf] at every
    other, together with its softmax as probability vector, which is the
    uniform distribution over the legal actions and zero elsewhere. *)
Theorem first_visit_creates_uniform self obs (legal : list nat) :
  policy self !! obs = None ->
  qualities self !! obs = None ->
  (exists i, i < num_actions (env self) /\ i ∈ legal) ->
  let n := num_actions (env self) in
  let tactions := new_tactions n legal in
  (exists probs,
     action_probs obs legal self
     = Ok probs (set_policy (<[obs := softmax_values tactions]> (policy self))
                   (set_qualities (<[obs := tactions]> (qualities self)) self)))
  /\ length tactions = n
  /\ (forall i, i < n ->
        tactions !! i = Some (if bool_decide (i ∈ legal) then Fin 0 else NegInf))
  /\ softmax_values tactions = uniform_over_legal n legal
  /\ (forall i, i < n ->
        uniform_over_legal n legal !! i
        = Some (if bool_decide (i ∈ legal)
                then Fin (1 / INR (legal_count n legal)) else Fin 0)).
Proof.
  intros Hp Hq Hlegal n tactions.
  assert (Hsm : softmax_values tactions = uniform_over_legal n legal)
    by (by apply softmax_fresh_uniform).
  split; [| split; [| split; [| split]]]; [| | | exact Hsm |].
  - destruct (action_probs_fresh self obs legal Hp Hq Hlegal) as (ms & _ & Hrun).
    exists (Fin <$> ms). by rewrite Hsm.
  - subst tactions. rewrite new_tactions_eq. by rewrite length_fmap, length_seq.
  - intros i Hi. subst tactions. rewrite new_tactions_eq.
    rewrite list_lookup_fmap, lookup_seq_lt by done. done.
  - intros i Hi. unfold uniform_over_legal.
    rewrite list_lookup_fmap, uniform_masses_lookup by done. simpl.
    by destruct (bool_decide _).
Qed.

End FirstVisit.

Lemma first_visit_creates_uniform_witness :
  let n := num_actions (env fresh_agent) in
  let tactions := new_tactions n [0; 1] in
  (exists probs,
     action_probs "root" [0; 1] fresh_agent
     = Ok probs (set_policy (<[ "root" := softmax_values tactions]> (policy fresh_agent))
                   (set_qualities (<[ "root" := tactions]> (qualities fresh_agent))
                      fresh_agent)))
  /\ length tactions = n
  /\ (forall i, i < n ->
        tactions !! i = Some (if bool_decide (i ∈ [0; 1]) then Fin 0 else NegInf))
  /\ softmax_values tactions = uniform_over_legal n [0; 1]
  /\ (forall i, i < n ->
        uniform_over_legal n [0; 1] !! i
        = Some (if bool_decide (i ∈ [0; 1])
                then Fin (1 / INR (legal_count n [0; 1])) else Fin 0)).
Proof.
  apply (first_visit_creates_uniform fresh_agent "root" [0; 1]).
  - reflexivity.
  - reflexivity.
  - exists 0. split; [simpl; lia | set_solver].
Defined.

(** ** Greedy action selection *)

Lemma ngt_irrefl (x : num) : ngt x x = false.
Proof. destruct x; simpl; try done. destruct (Rlt_dec r r); [lra | done]. Qed.

Lemma ngt_raise (x best q : num) :
  is_nan x = false -> is_nan best = false -> is_nan q = false ->
  ngt x best = true -> ngt q best = false ->
  ngt q x = false /\ ngt x q = true.
Proof.
  destruct x, best, q; simpl; try done;
    repeat (destruct (Rlt_dec _ _)); try done; try lra.
Qed.

(** The scan of [np.argmax] keeps, at every position, the first largest
    entry seen so far. *)
Lemma argmax_from_greedy (l : list num) :
  forall (pre : list num) (best_i : nat) (best : num),
    no_nan (pre ++ l) ->
    pre !! best_i = Some best ->
    (forall j q, pre !! j = Some q -> ngt q best = false) ->
    (forall j q, j < best_i -> pre !! j = Some q -> ngt best q = true) ->
    is_greedy (pre ++ l) (argmax_from best_i best (length pre) l).
Proof.
  induction l as [| x l IH]; intros pre best_i best Hnan Hbest Hmax Hfirst.
  - simpl. rewrite app_nil_r. exists best. done.
  - assert (Hx : is_nan x = false).
    { eapply (proj1 (Forall_forall _ _) Hnan). apply elem_of_app. right. left. }
    assert (Hb : is_nan best = false).
    { eapply (proj1 (Forall_forall _ _) Hnan). apply elem_of_app. left.
      by eapply list_elem_of_lookup_2. }
    assert (Hpre : forall j q, pre !! j = Some q -> is_nan q = false).
    { intros j q Hj. eapply (proj1 (Forall_forall _ _) Hnan).
      apply elem_of_app. left. by eapply list_elem_of_lookup_2. }
    cbn [argmax_from]. unfold better. rewrite Hb, Hx. simpl.
    replace (pre ++ x :: l) with ((pre ++ [x]) ++ l) in *
      by (by rewrite <- app_assoc).
    replace (S (length pre)) with (length (pre ++ [x]))
      by (rewrite length_app; simpl; lia).
    destruct (ngt x best) eqn:Hgt.
    + replace (length pre) with (length pre + 0) at 1 by lia.
      apply IH; try done.
      * rewrite Nat.add_0_r. by rewrite lookup_app_r, Nat.sub_diag.
      * intros j q Hj. apply lookup_app_Some in Hj as [Hj | [_ Hj]].
        -- eapply ngt_raise; eauto.
        -- apply list_lookup_singleton_Some in Hj as [_ <-]. apply ngt_irrefl.
      * intros j q Hlt Hj. rewrite Nat.add_0_r in Hlt.
        rewrite lookup_app_l in Hj by done. eapply ngt_raise; eauto.
    + apply IH; try done.
      * rewrite lookup_app_l; [done | by eapply lookup_lt_Some].
      * intros j q Hj. apply lookup_app_Some in Hj as [Hj | [_ Hj]]; [eauto |].
        by apply list_lookup_singleton_Some in Hj as [_ <-].
      * intros j q Hlt Hj. apply lookup_lt_Some in Hbest.
        rewrite lookup_app_l in Hj by lia. eauto.
Qed.

Lemma argmax_greedy {S} (s s' : S) (probs : list num) (action : nat) :
  argmax probs s = Ok action s' ->
  s' = s /\ (no_nan probs -> is_greedy probs action).
Proof.
  destruct probs as [| x l]; simpl; [done |]. unfold ret.
  intros [= <- <-]. split; [done |]. intros Hnan.
  apply (argmax_from_greedy l [x] 0 x); try done.
  - intros [| j] q Hj; simpl in Hj; [| done]. injection Hj as <-. apply ngt_irrefl.
  - intros j q Hlt. lia.
Qed.

(** The diagnostics comprehension: every index of the range contributes
    its entry, and entries of other keys are kept. *)
Lemma info_probs_spec {S} (raw : list string) (legal : list nat)
    (probs : list num) (range : list nat) :
  NoDup raw -> NoDup range ->
  forall (acc info : gmap string num) (s s' : S),
    info_probs raw legal probs range acc s = Ok info s' ->
    s' = s
    /\ (forall i, i ∈ range ->
          exists key action p,
            raw !! i = Some key /\ legal !! i = Some action
            /\ probs !! action = Some p /\ info !! key = Some p)
    /\ (forall key, (forall i, i ∈ range -> raw !! i <> Some key) ->
          info !! key = acc !! key).
Proof.
  intros Hraw Hrange. induction range as [| i range IH]; intros acc info s s' Hrun.
  - simpl in Hrun. injection Hrun as <- <-. split; [done |].
    split; [| done]. intros i Hi. by apply elem_of_nil in Hi.
  - cbn [info_probs] in Hrun. unfold bind, index, ret, raise in Hrun.
    destruct (raw !! i) as [key |] eqn:Hkey; [| done].
    destruct (legal !! i) as [action |] eqn:Hact; [| done].
    destruct (probs !! action) as [p |] eqn:Hp; [| done].
    apply NoDup_cons in Hrange as [Hfresh Hrange].
    destruct (IH Hrange _ _ _ _ Hrun) as (-> & Hin & Hkeep).
    split; [done |]. split.
    + intros j Hj. apply elem_of_cons in Hj as [-> | Hj]; [| by apply Hin].
      exists key, action, p. repeat split; try done.
      rewrite Hkeep; [apply lookup_insert_eq |].
      intros j Hj Hjk.
      assert (j = i) as -> by (eapply NoDup_lookup; [exact Hraw | exact Hjk | exact Hkey]).
      done.
    + intros key' Hother. rewrite Hkeep.
      * apply lookup_insert_ne. intros ->. apply (Hother i); [left | done].
      * intros j Hj. apply Hother. by right.
Qed.

Section EvalStep.
Context {E : Type} `{Env E}.
Implicit Types (self : SARSAAgent E).

(** C6: when [eval_step] returns, its action is the index of the largest
    entry of the masked probability vector, the lowest such index on a
    tie, and its diagnostics map gives, for every legal action, the
    probability of that action under the action's raw name. *)
Theorem eval_step_is_greedy self self' (state : State) (action : nat)
    (info : gmap string num) :
  eval_step state self = Ok (action, info) self' ->
  NoDup (raw_legal_actions state) ->
  exists probs,
    action_probs (obs state) (legal_actions state) self = Ok probs self'
    /\ (no_nan probs -> is_greedy probs action)
    /\ (forall i legal_action,
          legal_actions state !! i = Some legal_action ->
          exists key p,
            raw_legal_actions state !! i = Some key
            /\ probs !! legal_action = Some p
            /\ info !! key = Some p).
Proof.
  intros Hrun Hraw. unfold eval_step in Hrun. unfold bind at 1 in Hrun.
  destruct (action_probs _ _ self) as [probs s1 | |] eqn:Hprobs; try done.
  unfold bind at 1 in Hrun.
  destruct (argmax probs s1) as [act s2 | |] eqn:Harg; try done.
  destruct (argmax_greedy _ _ _ _ Harg) as [-> Hgreedy].
  unfold bind at 1 in Hrun.
  destruct (info_probs _ _ _ _ _ s1) as [inf s3 | |] eqn:Hinfo; try done.
  unfold ret in Hrun. injection Hrun as <- <- <-.
  destruct (info_probs_spec _ _ _ _ Hraw (NoDup_seq 0 _) _ _ _ _ Hinfo)
    as (-> & Hin & _).
  exists probs. split; [done |]. split; [done |].
  intros i legal_action Hi.
  destruct (Hin i) as (key & act' & p & Hkey & Hact & Hp & Hinf).
  { apply elem_of_seq. apply lookup_lt_Some in Hi. lia. }
  rewrite Hi in Hact. injection Hact as <-. by exists key, p.
Qed.

End EvalStep.

(** ** Rules for [triple] *)

Section Rules.
Context {S : Type} (D : Prop).
Implicit Types (P R : S -> Prop).

Lemma triple_ret {A} P R (Q : A -> S -> Prop) (v : A) :
  (forall s, P s -> Q v s) -> triple D P (ret v) Q R.
Proof. intros HQ s HP. by apply HQ. Qed.

Lemma triple_raise {A} P R (Q : A -> S -> Prop) (e : exn) :
  (forall s, P s -> R s) -> triple D P (raise e) Q R.
Proof. intros HR s HP. by apply HR. Qed.

Lemma triple_bind {A B} P R (m : M S A) (k : A -> M S B)
    (Q1 : A -> S -> Prop) (Q2 : B -> S -> Prop) :
  triple D P m Q1 R ->
  (forall v, triple D (Q1 v) (k v) Q2 R) ->
  triple D P (bind m k) Q2 R.
Proof.
  intros Hm Hk s HP. unfold bind. specialize (Hm s HP).
  destruct (m s) as [v s' | e s' |]; try done. by apply Hk.
Qed.

(** Reading the state: the continuation may use that the value read is
    the current state. *)
Lemma triple_get {B} P R (k : S -> M S B) (Q : B -> S -> Prop) :
  (forall s0, triple D (fun s => P s /\ s = s0) (k s0) Q R) ->
  triple D P (bind get k) Q R.
Proof. intros Hk s HP. unfold bind, get. by apply (Hk s). Qed.

Lemma triple_get_pre {B} P R (k : S -> M S B) (Q : B -> S -> Prop) :
  (forall s0, P s0 -> triple D (fun s => s = s0) (k s0) Q R) ->
  triple D P (bind get k) Q R.
Proof. intros Hk s HP. unfold bind, get. by apply (Hk s). Qed.

Lemma triple_modify P R (f : S -> S) (Q : unit -> S -> Prop) :
  (forall s, P s -> Q tt (f s)) -> triple D P (modify f) Q R.
Proof. intros HQ s HP. by apply HQ. Qed.

Lemma triple_index {A} P R (l : list A) (i : nat) (Q : A -> S -> Prop) :
  (forall s v, P s -> l !! i = Some v -> Q v s) ->
  (forall s, P s -> R s) ->
  triple D P (index l i) Q R.
Proof.
  intros HQ HR s HP. unfold index. destruct (l !! i) eqn:Hi.
  - by apply HQ.
  - by apply HR.
Qed.

Lemma triple_weaken {A} (P P' R R' : S -> Prop) (m : M S A)
    (Q Q' : A -> S -> Prop) :
  triple D P' m Q' R' ->
  (forall s, P s -> P' s) ->
  (forall v s, Q' v s -> Q v s) ->
  (forall s, R' s -> R s) ->
  triple D P m Q R.
Proof.
  intros Hm HP HQ HR s Hs. specialize (Hm s (HP s Hs)).
  destruct (m s); auto.
Qed.

Lemma triple_softmax P R (x : list num) (Q : list num -> S -> Prop) :
  (forall s, P s -> x <> [] -> Q (softmax_values x) s) ->
  (forall s, P s -> x = [] -> R s) ->
  triple D P (softmax x) Q R.
Proof.
  intros HQ HR s HP. destruct x as [| v x]; simpl.
  - by apply HR.
  - by apply HQ.
Qed.

Lemma triple_conj {A} (P1 P2 R1 R2 : S -> Prop) (m : M S A)
    (Q1 Q2 : A -> S -> Prop) :
  triple D P1 m Q1 R1 ->
  triple D P2 m Q2 R2 ->
  triple D (fun s => P1 s /\ P2 s) m (fun v s => Q1 v s /\ Q2 v s)
         (fun s => R1 s /\ R2 s).
Proof.
  intros H1 H2 s [HP1 HP2]. specialize (H1 s HP1). specialize (H2 s HP2).
  by destruct (m s).
Qed.

End Rules.

(** ** Methods that write only the two dictionaries *)

Section StoreOnly.
Context {E : Type} `{Env E}.
Variable D : Prop.
Variable I : SARSAAgent E -> Prop.
Hypothesis I_policy : forall s p, I s -> I (set_policy p s).
Hypothesis I_qualities : forall s q, I s -> I (set_qualities q s).

Lemma remove_illegal_keeps (probs : list num) (legal : list nat) :
  triple D I (remove_illegal probs legal) (fun _ => I) I.
Proof. intros s Hs. unfold remove_illegal. by destruct (positive_mass _ _). Qed.

Lemma action_probs_keeps obs (legal : list nat) :
  triple D I (action_probs obs legal) (fun _ => I) I.
Proof.
  intros s Hs. destruct (policy s !! obs) as [stored |] eqn:Hp.
  { rewrite (action_probs_known s obs stored) by done.
    by apply remove_illegal_keeps. }
  destruct (qualities s !! obs) as [qf |] eqn:Hq.
  { rewrite (action_probs_orphan s obs qf) by done.
    by apply remove_illegal_keeps, I_policy. }
  destruct (decide (num_actions (env s) = 0)) as [Hz | Hnz].
  - rewrite action_probs_unseen_empty by done. by apply I_qualities.
  - rewrite action_probs_unseen by (done || lia).
    by apply remove_illegal_keeps, I_policy, I_qualities.
Qed.

Lemma update_loop_keeps obs (items : list (nat * num)) :
  forall qf, triple D I (update_loop obs qf items) (fun _ => I) I.
Proof.
  induction items as [| [i t] items IH]; intros qf.
  - by apply triple_ret.
  - cbn [update_loop]. apply triple_get. intros s1.
    eapply triple_bind with (Q1 := fun _ => I).
    { apply triple_index; [intros s v [Hs ?] ? | intros s [Hs ?]]; exact Hs. }
    intros q. eapply triple_bind; [| intros ?; apply IH].
    apply triple_modify. intros s Hs. by apply I_qualities.
Qed.

Lemma update_policy_keeps obs (items : list (nat * num)) (legal : list nat) :
  triple D I (update_policy obs items legal) (fun _ => I) I.
Proof.
  unfold update_policy. apply triple_get. intros s1.
  eapply triple_bind with (Q1 := fun _ => I).
  - intros s [Hs ->]. destruct (qualities s1 !! obs); [done |].
    by apply I_qualities.
  - intros qf. eapply triple_bind; [by apply update_loop_keeps |].
    intros qf'. eapply triple_bind with (Q1 := fun _ => I).
    + apply triple_modify. intros s Hs. by apply I_qualities.
    + intros ?. eapply triple_bind with (Q1 := fun _ => I).
      * by apply triple_softmax.
      * intros probs. apply triple_modify. intros s Hs. by apply I_policy.
Qed.

End StoreOnly.

(** ** The Store invariant *)

Section Invariant.
Context {E : Type} `{Env E}.
Implicit Types (self : SARSAAgent E) (X : gset string).

Lemma stored_set_agent_id X self (id : nat) :
  stored X self -> stored X (set_agent_id id self).
Proof. done. Qed.

Lemma stored_set_qualities X self obs (qf : list num) :
  obs ∈ X -> stored X self ->
  stored X (set_qualities (<[obs := qf]> (qualities self)) self).
Proof.
  intros Hobs [Hinv HX]. unfold stored, store_inv in *. simpl.
  rewrite dom_insert_L. split; set_solver.
Qed.

Lemma stored_set_policy X self obs (probs : list num) :
  obs ∈ X -> stored X self ->
  stored X (set_policy (<[obs := probs]> (policy self)) self).
Proof.
  intros Hobs [Hinv HX]. unfold stored, store_inv in *. simpl.
  rewrite dom_insert_L. split; set_solver.
Qed.

Lemma stored_subset X Y self : Y ⊆ X -> stored X self -> stored Y self.
Proof. intros HY [Hinv HX]. split; [done | set_solver]. Qed.

Lemma live_subset X Y self : Y ⊆ X -> live X self -> live Y self.
Proof. intros HY [Hs Hn]. split; [by eapply stored_subset | done]. Qed.

Lemma has_key_dom {V} (d : gmap string V) (k : string) :
  has_key d k = true <-> k ∈ dom d.
Proof.
  unfold has_key. rewrite elem_of_dom.
  destruct (d !! k); split; intros Hk; try done.
Qed.

(** The environment has actions before and after [action_probs] and
    [update_policy], which do not write it. *)
Lemma action_probs_actions (D : Prop) obs (legal : list nat) :
  triple D (fun self => 0 < num_actions (env self)) (action_probs obs legal)
         (fun _ self => 0 < num_actions (env self))
         (fun self => 0 < num_actions (env self)).
Proof. by apply (action_probs_keeps D (fun self => 0 < num_actions (env self))). Qed.

Lemma update_policy_actions (D : Prop) obs (items : list (nat * num))
    (legal : list nat) :
  triple D (fun self => 0 < num_actions (env self))
         (update_policy obs items legal)
         (fun _ self => 0 < num_actions (env self))
         (fun self => 0 < num_actions (env self)).
Proof. by apply (update_policy_keeps D (fun self => 0 < num_actions (env self))). Qed.

(** With an action space that is not empty, [action_probs] keeps the
    invariant and leaves [obs] stored. *)
Lemma action_probs_stored (D : Prop) X obs (legal : list nat) :
  triple D (live X) (action_probs obs legal)
         (fun _ => stored (X ∪ {[obs]})) (stored X).
Proof.
  intros s [[Hinv HX] Hn].
  assert (Hdone : forall probs (s' : SARSAAgent E),
             stored (X ∪ {[obs]}) s' ->
             match remove_illegal probs legal s' with
             | Ok _ s'' => stored (X ∪ {[obs]}) s''
             | Raise _ s'' => stored X s''
             | OutOfFuel => D
             end).
  { intros probs s' Hs'. unfold remove_illegal.
    destruct (positive_mass _ _); simpl; [done |].
    eapply stored_subset; [| done]. set_solver. }
  unfold store_inv in Hinv.
  destruct (policy s !! obs) as [probs |] eqn:Hp.
  { rewrite (action_probs_known s obs probs) by done. apply Hdone.
    split; [done |]. apply (elem_of_dom_2 (policy s)) in Hp. set_solver. }
  destruct (qualities s !! obs) as [qf |] eqn:Hq.
  { exfalso. apply (elem_of_dom_2 (qualities s)) in Hq.
    apply (not_elem_of_dom_2 (policy s)) in Hp. set_solver. }
  rewrite action_probs_unseen by done. apply Hdone.
  unfold stored, store_inv. simpl. rewrite !dom_insert_L.
  split; set_solver.
Qed.

Lemma action_probs_live (D : Prop) X obs (legal : list nat) :
  triple D (live X) (action_probs obs legal)
         (fun _ => live (X ∪ {[obs]})) (live X).
Proof.
  eapply triple_weaken.
  - apply triple_conj; [apply (action_probs_stored D X obs legal) |
                        apply (action_probs_actions D obs legal)].
  - intros s [Hs Hn]. split; [by split | done].
  - by intros _ s [Hs Hn].
  - by intros s [Hs Hn].
Qed.

Lemma update_loop_stored (D : Prop) X obs (items : list (nat * num)) :
  obs ∈ X ->
  forall qf, triple D (stored (E:=E) X) (update_loop obs qf items)
                    (fun _ => stored X) (stored X).
Proof.
  intros Hobs. induction items as [| [i t] items IH]; intros qf.
  - by apply triple_ret.
  - cbn [update_loop]. apply triple_get. intros s0.
    eapply triple_bind.
    { apply (triple_index D _ (stored X) _ _ (fun _ s => stored X s)).
      - intros s v Hs Hi. apply Hs.
      - intros s Hs. apply Hs. }
    intros q. eapply triple_bind; [| intros ?; apply IH].
    apply triple_modify. intros s Hs. by apply stored_set_qualities.
Qed.

(** [update_policy] keeps the invariant when [obs] is stored, also when
    [softmax] raises: both dictionaries have the key already. *)
Lemma update_policy_stored (D : Prop) X obs (items : list (nat * num))
    (legal : list nat) :
  obs ∈ X ->
  triple D (stored (E:=E) X) (update_policy obs items legal)
         (fun _ => stored X) (stored X).
Proof.
  intros Hobs. unfold update_policy. apply triple_get. intros s0.
  eapply triple_bind with (Q1 := fun _ => stored X).
  - intros s [Hs ->].
    assert (Hin : obs ∈ dom (qualities s0)) by (destruct Hs; set_solver).
    apply elem_of_dom in Hin as [qf Hqf]. by rewrite Hqf.
  - intros qf. eapply triple_bind; [by apply update_loop_stored |].
    intros qf'. eapply triple_bind with (Q1 := fun _ => stored X).
    + apply triple_modify. intros s Hs. by apply stored_set_qualities.
    + intros ?. eapply triple_bind with (Q1 := fun _ => stored X).
      * by apply triple_softmax.
      * intros probs. apply triple_modify. intros s Hs.
        by apply stored_set_policy.
Qed.

Lemma update_policy_live (D : Prop) X obs (items : list (nat * num))
    (legal : list nat) :
  obs ∈ X ->
  triple D (live X) (update_policy obs items legal)
         (fun _ => live X) (live X).
Proof.
  intros Hobs. apply triple_conj;
    [by apply update_policy_stored | apply update_policy_actions].
Qed.

End Invariant.

(** ** The walk keeps what its steps keep

    [traverse_tree] writes the agent only through [action_probs],
    [update_policy] and the environment attribute.  A family of
    assertions [I X], indexed by the fingerprints known to be stored,
    that these three keep is kept by the whole walk, however it ends. *)

Section Walk.
Context {E : Type} `{Env E}.
Variable D : Prop.
Variable I : gset string -> SARSAAgent E -> Prop.
Hypothesis I_step : forall X s action e,
  I X s -> step (env s) action = Some e -> I X (set_env e s).
Hypothesis I_step_back : forall X s, I X s -> I X (set_env (step_back (env s)) s).
Hypothesis I_subset : forall X Y s, Y ⊆ X -> I X s -> I Y s.
Hypothesis I_action_probs : forall X obs legal,
  triple D (I X) (action_probs obs legal) (fun _ => I (X ∪ {[obs]})) (I X).
Hypothesis I_update_policy : forall X obs items legal,
  obs ∈ X -> triple D (I X) (update_policy obs items legal) (fun _ => I X) (I X).

Lemma env_step_walk X (action : nat) :
  triple D (I X) (env_step action) (fun _ => I X) (I X).
Proof.
  intros s Hs. unfold env_step, bind, get.
  destruct (step (env s) action) eqn:Hstep; simpl; [by eapply I_step | done].
Qed.

Lemma env_step_back_walk X :
  triple D (I X) env_step_back (fun _ => I X) (I X).
Proof. intros s Hs. by apply I_step_back. Qed.

Lemma opponent_step_walk X (player : nat) (state : State) :
  triple D (I X) (opponent_step player state) (fun _ => I X) (I X).
Proof.
  intros s Hs. unfold opponent_step, bind, get, index.
  destruct (get_agents (env s) !! player) as [[| f] |]; done.
Qed.

Lemma children_loop_walk X (rec : M (SARSAAgent E) num)
    (probs : list num) (actions : list nat) :
  triple D (I X) rec (fun _ => I X) (I X) ->
  forall value quality,
    triple D (I X) (children_loop rec probs actions value quality)
           (fun _ => I X) (I X).
Proof.
  intros Hrec. induction actions as [| action rest IH]; intros value quality.
  - by apply triple_ret.
  - cbn [children_loop].
    eapply triple_bind with (Q1 := fun _ => I X).
    { apply triple_index; auto. }
    intros p. eapply triple_bind; [apply env_step_walk |]. intros ?.
    eapply triple_bind; [apply Hrec |]. intros q.
    eapply triple_bind; [apply env_step_back_walk |]. intros ?.
    apply IH.
Qed.

Lemma traverse_tree_walk (fuel : nat) :
  D -> forall X,
  triple D (I X) (traverse_tree fuel) (fun _ => I X) (I X).
Proof.
  intros HD. induction fuel as [| fuel IH]; intros X.
  - intros s _. exact HD.
  - cbn [traverse_tree]. apply triple_get. intros s0.
    destruct (is_over (env s0)).
    { apply triple_index; [intros s v [Hs ?] ? | intros s [Hs ?]]; exact Hs. }
    destruct (negb _).
    + eapply triple_bind with (Q1 := fun _ => I X).
      { intros s [Hs ?]. by apply opponent_step_walk. }
      intros action. eapply triple_bind; [apply env_step_walk |]. intros ?.
      eapply triple_bind; [apply IH |]. intros Vstate.
      eapply triple_bind; [apply env_step_back_walk |]. intros ?.
      by apply triple_ret.
    + eapply triple_bind with (Q1 := fun _ => I X).
      { intros s [Hs _]. exact Hs. }
      intros [obs legal].
      eapply triple_bind; [apply I_action_probs |]. intros probs.
      eapply triple_weaken with (P' := I (X ∪ {[obs]}))
                                (Q' := fun _ => I (X ∪ {[obs]}))
                                (R' := I (X ∪ {[obs]})); auto.
      2, 3: intros; eapply I_subset; [| eassumption]; set_solver.
      eapply triple_bind; [by apply children_loop_walk |].
      intros [value quality].
      eapply triple_bind; [apply I_update_policy; set_solver |]. intros ?.
      apply triple_get. intros s1. apply triple_ret. by intros s [Hs _].
Qed.

End Walk.

Section InvariantWalk.
Context {E : Type} `{Env E}.
Implicit Types (self : SARSAAgent E) (X : gset string).

Lemma traverse_tree_live (D : Prop) (fuel : nat) :
  static_actions E ->
  D -> forall X,
  triple D (live (E:=E) X) (traverse_tree fuel) (fun _ => live X) (live X).
Proof.
  intros (_ & Hstep & Hback) HD. apply traverse_tree_walk; auto.
  - intros X s action e [Hs Hn] He. split; [done |]. simpl.
    by rewrite (Hstep _ _ _ He).
  - intros X s [Hs Hn]. split; [done |]. simpl. by rewrite Hback.
  - intros X Y s. apply live_subset.
  - intros X obs legal. apply action_probs_live.
  - intros X obs items legal. apply update_policy_live.
Qed.

Lemma find_agent_live (D : Prop) X :
  triple D (live (E:=E) X) find_agent (fun _ => live X) (live X).
Proof.
  intros s Hs. unfold find_agent, bind, get.
  by destruct (first_sarsa _ _).
Qed.

Lemma train_live (D : Prop) (fuel : nat) X :
  static_actions E ->
  D -> triple D (live (E:=E) X) (train fuel) (fun _ => live X) (live X).
Proof.
  intros Hstatic HD. pose proof Hstatic as (Hreset & _). unfold train.
  eapply triple_bind with (Q1 := fun _ => live X); [by apply triple_modify |].
  intros ?. eapply triple_bind with (Q1 := fun _ => live X);
    [by apply triple_modify |].
  intros ?. eapply triple_bind with (Q1 := fun _ => live X).
  { apply triple_modify. intros s [Hs Hn]. split; [done |]. simpl.
    by rewrite Hreset. }
  intros ?. eapply triple_bind; [apply find_agent_live |].
  intros ?. eapply triple_bind; [by apply traverse_tree_live |].
  intros ?. by apply triple_ret.
Qed.

Lemma eval_step_live (D : Prop) X (state : State) :
  triple D (live (E:=E) X) (eval_step state) (fun _ => live X) (live X).
Proof.
  unfold eval_step.
  eapply triple_bind with (Q1 := fun _ => live X).
  { intros s Hs.
    pose proof (action_probs_live D X (obs state) (legal_actions state) s Hs)
      as Hap.
    destruct (action_probs _ _ s); auto.
    eapply live_subset; [| exact Hap]. set_solver. }
  intros probs. eapply triple_bind with (Q1 := fun _ => live X).
  { intros s Hs. unfold argmax. by destruct probs. }
  intros action. eapply triple_bind with (Q1 := fun _ => live X).
  - generalize (∅ : gmap string num).
    induction (seq 0 (length (legal_actions state))) as [| i range IH];
      intros acc.
    + by apply triple_ret.
    + cbn [info_probs].
      eapply triple_bind with (Q1 := fun _ => live X); [by apply triple_index |].
      intros key.
      eapply triple_bind with (Q1 := fun _ => live X); [by apply triple_index |].
      intros act.
      eapply triple_bind with (Q1 := fun _ => live X); [by apply triple_index |].
      intros pr. apply IH.
  - intros info. by apply triple_ret.
Qed.

End InvariantWalk.

Section InvariantTheorem.
Context {E : Type} `{Env E}.
Implicit Types (self : SARSAAgent E).

Lemma triple_final {A} (m : M (SARSAAgent E) A) self :
  triple True (live ∅) m (fun _ => live ∅) (live ∅) ->
  store_inv self -> 0 < num_actions (env self) -> final store_inv (m self).
Proof.
  intros Hm Hinv Hn. specialize (Hm self). unfold final.
  destruct (m self); try done; apply Hm; (split; [split |]); done || set_solver.
Qed.

Lemma action_probs_creates_both self obs (legal : list nat) :
  0 < num_actions (env self) ->
  policy self !! obs = None ->
  qualities self !! obs = None ->
  final (fun s => is_Some (policy s !! obs) /\ is_Some (qualities s !! obs))
        (action_probs obs legal self).
Proof.
  intros Hn Hp Hq. rewrite action_probs_unseen by done.
  unfold remove_illegal.
  destruct (positive_mass _ _); simpl; rewrite !lookup_insert_eq; by split.
Qed.

Lemma save_lookup self (fs : gmap string model_dir) :
  save self fs !! model_path self
  = Some (mkDir (Some (policy self)) (Some (qualities self))
                (Some (iteration self))).
Proof. unfold save. by rewrite lookup_insert_eq. Qed.

(** What [save] wrote is what [load] reads back. *)
Lemma load_save self (other : SARSAAgent E) (fs : gmap string model_dir) :
  model_path other = model_path self ->
  load (save self fs) other
  = Ok tt (set_iteration (iteration self)
             (set_qualities (qualities self) (set_policy (policy self) other))).
Proof.
  intros Hpath. unfold load, bind, get. rewrite Hpath, save_lookup. done.
Qed.

Lemma load_equal_keys self (fs : gmap string model_dir) (d : model_dir)
    (p q : gmap string (list num)) :
  fs !! model_path self = Some d ->
  policy_pkl d = Some p -> qualities_pkl d = Some q -> dom p = dom q ->
  final store_inv (load fs self).
Proof.
  intros Hd Hp Hq Hdom. unfold load, bind, get, read_pkl.
  rewrite Hd, Hp, Hq. simpl. by destruct (iteration_pkl d).
Qed.

(** C3, as the code has it.  With an action space that is not empty,
    [action_probs] and [eval_step] keep the two dictionaries on the same
    keys, however they end, and a first visit creates both entries in
    the same call; so do [traverse_tree] and [train] when, in addition,
    the environment keeps its number of actions.  [update_policy] keeps
    the invariant on a stored fingerprint, and [load] on what [save]
    wrote, on a missing location, and on two files with the same
    keys. *)
Theorem store_inv_kept_by_agent_methods self :
  store_inv self ->
  (0 < num_actions (env self) ->
     (forall obs legal, final store_inv (action_probs obs legal self))
     /\ (forall obs legal,
           policy self !! obs = None -> qualities self !! obs = None ->
           final (fun s => is_Some (policy s !! obs)
                           /\ is_Some (qualities s !! obs))
                 (action_probs obs legal self))
     /\ (forall state, final store_inv (eval_step state self))
     /\ (static_actions E ->
           (forall fuel, final store_inv (traverse_tree fuel self))
           /\ (forall fuel, final store_inv (train fuel self))))
  /\ (forall obs next_state_values legal,
        is_Some (qualities self !! obs) ->
        final store_inv (update_policy obs next_state_values legal self))
  /\ (forall fs (other : SARSAAgent E),
        model_path other = model_path self ->
        final store_inv (load (save self fs) other))
  /\ (forall fs, fs !! model_path self = None -> final store_inv (load fs self))
  /\ (forall fs d p q,
        fs !! model_path self = Some d ->
        policy_pkl d = Some p -> qualities_pkl d = Some q -> dom p = dom q ->
        final store_inv (load fs self)).
Proof.
  intros Hinv. split; [| split; [| split; [| split]]].
  - intros Hn. split; [| split; [| split]].
    + intros obs legal. apply triple_final; [| done | done].
      eapply triple_weaken; [apply (action_probs_live True ∅ obs legal) | | |];
        auto.
      intros ? s Hs. eapply live_subset; [| exact Hs]. set_solver.
    + intros obs legal. by apply action_probs_creates_both.
    + intros state. apply triple_final; [| done | done]. apply eval_step_live.
    + intros Hstatic. split; intros fuel; (apply triple_final; [| done | done]).
      * by apply traverse_tree_live.
      * by apply train_live.
  - intros obs items legal Hobs.
    pose proof (update_policy_stored True {[obs]} obs items legal
                  ltac:(set_solver) self) as Hup.
    assert (Hs : stored {[obs]} self).
    { split; [done |]. apply elem_of_dom in Hobs. set_solver. }
    specialize (Hup Hs). unfold final.
    destruct (update_policy _ _ _ self); try done; apply Hup.
  - intros fs other Hpath. by rewrite load_save.
  - intros fs Hmiss. unfold load, bind, get. by rewrite Hmiss.
  - intros fs d p q. apply load_equal_keys.
Qed.

End InvariantTheorem.

Lemma game_static_actions : static_actions game.
Proof.
  split; [done |]. split.
  - intros g action g'. simpl. unfold game_step.
    destruct (g_current g) as [| p o raw children]; [done |].
    destruct (child children action); [| done]. by intros [= <-].
  - intros g. simpl. unfold game_step_back. by destruct (g_trail g).
Qed.

Lemma store_inv_kept_by_agent_methods_witness :
  store_inv fresh_agent
  /\ final store_inv (traverse_tree 2 fresh_agent)
  /\ final store_inv (load (save fresh_agent ∅) fresh_agent).
Proof.
  assert (Hinv : store_inv fresh_agent) by reflexivity.
  destruct (store_inv_kept_by_agent_methods fresh_agent Hinv)
    as (Hlive & _ & Hload & _).
  destruct Hlive as (_ & _ & _ & Hwalk); [simpl; lia |].
  destruct (Hwalk game_static_actions) as [Hwalk' _].
  split; [exact Hinv |]. split; [apply Hwalk' | by apply Hload].
Defined.

(** C3 fails on the code in three places.  From an agent with the
    invariant: loading a directory whose two files have different keys
    returns normally and leaves the two dictionaries on different keys;
    [update_policy] on a fingerprint that is not stored inserts the
    empty quality vector by the [defaultdict] read and raises, leaving
    no probability vector; and a first visit in an environment without
    actions stores the quality vector, then [softmax] raises
    [ValueError] before the probability vector is stored. *)
Lemma store_inv_broken_by_load_update_and_first_visit :
  (store_inv fresh_agent
   /\ exists self',
        load mismatched_fs fresh_agent = Ok tt self'
        /\ ~ store_inv self')
  /\ (exists self',
        update_policy "new" [(0, Fin 1)] [0; 1] fresh_agent
        = Raise IndexError self'
        /\ qualities self' !! "new" = Some []
        /\ policy self' !! "new" = None
        /\ ~ store_inv self')
  /\ (store_inv zero_agent
      /\ exists self',
           action_probs "s" [] zero_agent = Raise ValueError self'
           /\ qualities self' !! "s" = Some []
           /\ policy self' !! "s" = None
           /\ ~ store_inv self').
Proof.
  split; [| split].
  - split; [reflexivity |]. eexists. split; [reflexivity |].
    unfold store_inv. simpl. rewrite dom_singleton_L, dom_empty_L. set_solver.
  - eexists. split; [reflexivity |]. simpl.
    split; [apply lookup_insert_eq |]. split; [done |].
    unfold store_inv. simpl. rewrite dom_insert_L, dom_empty_L. set_solver.
  - split; [reflexivity |]. eexists. split; [reflexivity |]. simpl.
    split; [apply lookup_insert_eq |]. split; [done |].
    unfold store_inv. simpl. rewrite dom_insert_L, dom_empty_L. set_solver.
Qed.

(** ** The value returned at a node *)

Section NodeValue.
Context {E : Type} `{Env E}.
Implicit Types (self s : SARSAAgent E).

Lemma same_params_refl s : same_params s s.
Proof. by repeat split. Qed.

Lemma action_probs_params (D : Prop) s0 obs (legal : list nat) :
  triple D (same_params s0) (action_probs obs legal)
         (fun _ => same_params s0) (same_params s0).
Proof. by apply action_probs_keeps. Qed.

Lemma update_policy_params (D : Prop) s0 obs (items : list (nat * num))
    (legal : list nat) :
  triple D (same_params s0) (update_policy obs items legal)
         (fun _ => same_params s0) (same_params s0).
Proof. by apply update_policy_keeps. Qed.

(** The walk changes nothing of the agent but its environment and its
    two dictionaries. *)
Lemma traverse_tree_params (D : Prop) (fuel : nat) s0 :
  D ->
  triple D (same_params s0) (traverse_tree fuel)
         (fun _ => same_params s0) (same_params s0).
Proof.
  intros HD.
  apply (traverse_tree_walk D (fun _ => same_params s0)); auto.
  - intros ? obs legal. apply action_probs_params.
  - intros ? obs items legal _. apply update_policy_params.
  - exact ∅.
Qed.

(** The loop over the legal actions computes the weighted sum and the
    action-to-value map of the child values. *)
Lemma children_loop_values (fuel : nat) (probs : list num) s (actions : list nat)
    (qs : list num) s' :
  children_values fuel s actions qs s' ->
  forall (ps : list num) (value : num) (quality : list (nat * num)),
    Forall2 (fun action p => probs !! action = Some p) actions ps ->
    children_loop (traverse_tree fuel) probs actions value quality s
    = Ok (foldl nadd value (zip_with nmul ps qs),
          foldl (fun quality '(action, q) => dict_set quality action q)
                quality (zip actions qs)) s'.
Proof.
  induction 1 as [s | s action rest e1 q s2 qs s3 Hstep Hrec _ IH];
    intros ps value quality Hps.
  - apply Forall2_nil_inv_l in Hps as ->. done.
  - apply Forall2_cons_inv_l in Hps as (p & ps' & Hp & Hps & ->).
    cbn [children_loop]. unfold bind at 1, index. rewrite Hp. unfold ret at 1.
    unfold bind at 1, env_step. unfold bind at 1, get. rewrite Hstep.
    unfold modify at 1. unfold bind at 1. rewrite Hrec.
    unfold bind at 1, env_step_back, modify.
    rewrite (IH ps' _ _ Hps). done.
Qed.

Lemma env_step_Ok s (action : nat) (e1 : E) :
  step (env s) action = Some e1 -> env_step action s = Ok tt (set_env e1 s).
Proof. intros Hstep. unfold env_step. by rewrite bind_get, Hstep. Qed.

Lemma children_values_params (fuel : nat) s0 s (actions : list nat)
    (qs : list num) s' :
  children_values fuel s actions qs s' -> same_params s0 s -> same_params s0 s'.
Proof.
  induction 1 as [s | s action rest e1 q s2 qs s3 Hstep Hrec _ IH]; [done |].
  intros Hs. apply IH.
  pose proof (traverse_tree_params True fuel s0 Logic.I (set_env e1 s) Hs) as Hw.
  rewrite Hrec in Hw. exact Hw.
Qed.

(** The value returned at a node of the agent. *)
Lemma traverse_tree_agent_node (fuel : nat) self probs s1 ps qs s2 s3 :
  is_over (env self) = false ->
  get_player_id (env self) = agent_id self ->
  let state := get_state (env self) (get_player_id (env self)) in
  action_probs (obs state) (legal_actions state) self = Ok probs s1 ->
  Forall2 (fun action p => probs !! action = Some p) (legal_actions state) ps ->
  children_values fuel s1 (legal_actions state) qs s2 ->
  update_policy (obs state) (quality_of (legal_actions state) qs)
                (legal_actions state) s2 = Ok tt s3 ->
  traverse_tree (S fuel) self
  = Ok (nmul (weighted_sum ps qs) (Fin (gamma self))) s3.
Proof.
  intros Hover Hturn state Hprobs Hps Hkids Hupd.
  assert (Hgamma : gamma s3 = gamma self).
  { pose proof (action_probs_params True self (obs state) (legal_actions state)
                  self (same_params_refl self)) as H1.
    rewrite Hprobs in H1.
    pose proof (children_values_params _ _ _ _ _ _ Hkids H1) as H2.
    pose proof (update_policy_params True self (obs state)
                  (quality_of (legal_actions state) qs) (legal_actions state)
                  s2 H2) as H3.
    rewrite Hupd in H3. apply H3. }
  subst state.
  cbn [traverse_tree]. rewrite bind_get, Hover.
  rewrite (proj2 (Nat.eqb_eq _ _) Hturn). cbn [negb].
  rewrite (bind_Ok (agent_get_state (get_player_id (env self))) _ self self
             (obs (get_state (env self) (get_player_id (env self))),
              legal_actions (get_state (env self) (get_player_id (env self))))
             eq_refl).
  cbv beta iota.
  rewrite (bind_Ok _ _ _ _ _ Hprobs).
  rewrite (bind_Ok _ _ _ _ _
             (children_loop_values fuel probs s1 _ qs s2 Hkids ps _ _ Hps)).
  cbv beta iota.
  fold (weighted_sum ps qs).
  fold (quality_of (legal_actions (get_state (env self) (get_player_id (env self)))) qs).
  rewrite (bind_Ok _ _ _ _ _ Hupd). rewrite bind_get. unfold ret.
  by rewrite Hgamma.
Qed.

(** The value returned at a node of another player. *)
Lemma traverse_tree_opponent_node (fuel : nat) self action e1 Vstate s2 :
  is_over (env self) = false ->
  get_player_id (env self) <> agent_id self ->
  opponent_step (get_player_id (env self))
                (get_state (env self) (get_player_id (env self))) self
  = Ok action self ->
  step (env self) action = Some e1 ->
  traverse_tree fuel (set_env e1 self) = Ok Vstate s2 ->
  traverse_tree (S fuel) self = Ok Vstate (set_env (step_back (env s2)) s2).
Proof.
  intros Hover Hturn Hopp Hstep Hrec.
  cbn [traverse_tree]. rewrite bind_get, Hover.
  rewrite (proj2 (Nat.eqb_neq _ _) Hturn). cbn [negb].
  rewrite (bind_Ok _ _ _ _ _ Hopp).
  rewrite (bind_Ok _ _ _ _ _ (env_step_Ok _ _ _ Hstep)).
  rewrite (bind_Ok _ _ _ _ _ Hrec).
  unfold env_step_back. by rewrite bind_modify.
Qed.

(** C1: at a node that is not terminal, when it is the agent's turn
    [traverse_tree] returns the sum of the child values, each weighted by
    the masked probability of its action, times [gamma], applied once;
    when it is another player's turn it returns the value of the child
    that player's action leads to, unchanged. *)
Theorem traverse_tree_node_value (fuel : nat) self :
  is_over (env self) = false ->
  let current_player := get_player_id (env self) in
  let state := get_state (env self) current_player in
  (current_player = agent_id self ->
   forall probs s1 ps qs s2 s3,
     action_probs (obs state) (legal_actions state) self = Ok probs s1 ->
     Forall2 (fun action p => probs !! action = Some p) (legal_actions state) ps ->
     children_values fuel s1 (legal_actions state) qs s2 ->
     update_policy (obs state) (quality_of (legal_actions state) qs)
                   (legal_actions state) s2 = Ok tt s3 ->
     traverse_tree (S fuel) self
     = Ok (nmul (weighted_sum ps qs) (Fin (gamma self))) s3)
  /\ (current_player <> agent_id self ->
      forall action e1 Vstate s2,
        opponent_step current_player state self = Ok action self ->
        step (env self) action = Some e1 ->
        traverse_tree fuel (set_env e1 self) = Ok Vstate s2 ->
        traverse_tree (S fuel) self
        = Ok Vstate (set_env (step_back (env s2)) s2)).
Proof.
  intros Hover current_player state. split.
  - intros Hturn probs s1 ps qs s2 s3. by apply traverse_tree_agent_node.
  - intros Hturn action e1 Vstate s2. by apply traverse_tree_opponent_node.
Qed.

End NodeValue.

Lemma quality_of_two_node :
  quality_of [0; 1] [Fin 1; Fin (-1)] = [(0, Fin 1); (1, Fin (-1))].
Proof. reflexivity. Qed.

Lemma traverse_tree_node_value_witness :
  exists ps s3,
    traverse_tree 2 fresh_agent
    = Ok (nmul (weighted_sum ps [Fin 1; Fin (-1)]) (Fin (gamma fresh_agent))) s3.
Proof.
  destruct (action_probs_fresh fresh_agent "root" [0; 1] eq_refl eq_refl)
    as (ms & Hlen & Hrun).
  { exists 0. split; [simpl; lia | set_solver]. }
  destruct ms as [| m0 [| m1 [| ? ?]]]; try discriminate Hlen.
  set (s1 := set_policy _ _) in Hrun.
  assert (Hkids : exists s2,
             children_values 1 s1 [0; 1] [Fin 1; Fin (-1)] s2
             /\ qualities s2 !! "root" = Some (new_tactions 2 [0; 1])).
  { eexists. split.
    - eapply cv_cons; [reflexivity | reflexivity |].
      eapply cv_cons; [reflexivity | reflexivity |]. apply cv_nil.
    - simpl. apply lookup_insert_eq. }
  destruct Hkids as (s2 & Hkids & Hq).
  destruct (update_policy_spec s2 "root" _ [(0, Fin 1); (1, Fin (-1))] [0; 1] Hq)
    as (qf' & Hupd & _).
  { intros Hnil. apply (f_equal length) in Hnil.
    rewrite new_tactions_length in Hnil. discriminate Hnil. }
  { simpl. apply NoDup_cons. split; [set_solver |]. apply NoDup_singleton. }
  { rewrite new_tactions_eq, length_fmap, length_seq. simpl. intros i Hi.
    repeat (apply elem_of_cons in Hi as [-> | Hi]; [lia |]).
    by apply elem_of_nil in Hi. }
  assert (Hover : is_over (env fresh_agent) = false) by reflexivity.
  destruct (traverse_tree_node_value 1 fresh_agent Hover) as [Hagent _].
  exists [Fin m0; Fin m1]. eexists.
  eapply (Hagent (eq_refl 0) _ s1 _ _ s2 _ Hrun); [| exact Hkids | exact Hupd].
  repeat constructor.
Defined.

(** ** The walk on a finite game tree *)

Lemma child_height (children : list (nat * tree)) (action : nat) (t : tree) :
  child children action = Some t ->
  height t <= foldr Nat.max 0 (map (fun kid => height (snd kid)) children).
Proof.
  induction children as [| [k t'] rest IH]; simpl; [done |].
  destruct (bool_decide (k = action)).
  - intros [= ->]. lia.
  - intros Hc. specialize (IH Hc). lia.
Qed.

Lemma game_step_back_step (g g1 : game) (action : nat) :
  game_step g action = Some g1 -> game_step_back g1 = g.
Proof.
  unfold game_step. destruct g as [n ags root cur trail]; simpl.
  destruct cur as [| p o raw children]; [done |].
  destruct (child children action); [| done]. by intros [= <-].
Qed.

Lemma game_step_height (g g1 : game) (action : nat) (fuel : nat) :
  height (g_current g) <= S fuel ->
  game_step g action = Some g1 -> height (g_current g1) <= fuel.
Proof.
  unfold game_step. destruct (g_current g) as [| p o raw children]; [done |].
  destruct (child children action) as [t |] eqn:Hc; [| done].
  intros Hh [= <-]. simpl in *. apply child_height in Hc. lia.
Qed.

Section GameWalk.
Implicit Types (g : game) (s : SARSAAgent game).

Lemma env_step_game (D : Prop) g (action : nat) :
  triple D (at_node g) (env_step action)
         (fun _ s => exists g1, game_step g action = Some g1 /\ at_node g1 s)
         (fun _ => True).
Proof.
  intros s Hs. unfold env_step. rewrite bind_get. unfold at_node in Hs.
  rewrite Hs. change (step g action) with (game_step g action).
  unfold modify, raise.
  destruct (game_step g action) as [g1 |]; [| done].
  by exists g1.
Qed.

Lemma children_loop_restores (fuel : nat) g (probs : list num) :
  height (g_current g) <= S fuel ->
  (forall g1, height (g_current g1) <= fuel ->
     triple False (at_node g1) (traverse_tree fuel)
            (fun _ => at_node g1) (fun _ => True)) ->
  forall (actions : list nat) value quality,
    triple False (at_node g)
           (children_loop (traverse_tree fuel) probs actions value quality)
           (fun _ => at_node g) (fun _ => True).
Proof.
  intros Hh Hrec. induction actions as [| action rest IH]; intros value quality.
  - by apply triple_ret.
  - cbn [children_loop].
    eapply triple_bind with (Q1 := fun _ => at_node g).
    { apply triple_index; auto. }
    intros p. eapply triple_bind; [apply env_step_game |]. intros ?.
    intros s (g1 & Hstep & Hs).
    assert (Hh1 : height (g_current g1) <= fuel)
      by (by eapply game_step_height).
    pose proof (Hrec g1 Hh1 s Hs) as Hr. unfold bind at 1.
    destruct (traverse_tree fuel s) as [q s' | |]; try done.
    unfold env_step_back. rewrite bind_modify.
    apply IH. unfold at_node in *. simpl. rewrite Hr. simpl.
    by eapply game_step_back_step.
Qed.

(** With fuel for the height of the current node the walk does not run
    out of fuel, and when it returns the environment is the one it was
    called with: same node, same trail of pending steps. *)
Lemma traverse_tree_restores (fuel : nat) :
  forall g, height (g_current g) <= fuel ->
    triple False (at_node g) (traverse_tree fuel)
           (fun _ => at_node g) (fun _ => True).
Proof.
  induction fuel as [| fuel IH]; intros g Hh.
  - destruct (g_current g); simpl in Hh; lia.
  - cbn [traverse_tree]. apply triple_get_pre. intros s0 Hs0.
    eapply triple_weaken with (P' := at_node g) (Q' := fun _ => at_node g)
                              (R' := fun _ => True); auto.
    2:{ by intros s ->. }
    destruct (is_over (env s0)).
    { apply triple_index; auto. }
    destruct (negb _).
    + eapply triple_bind with (Q1 := fun _ => at_node g).
      { intros s Hs. unfold opponent_step, bind, get, index.
        destruct (get_agents (env s) !! _) as [[| f] |]; done. }
      intros action. eapply triple_bind; [apply env_step_game |]. intros ?.
      intros s (g1 & Hstep & Hs).
      assert (Hh1 : height (g_current g1) <= fuel)
        by (by eapply game_step_height).
      pose proof (IH g1 Hh1 s Hs) as Hr. unfold bind at 1.
      destruct (traverse_tree fuel s) as [q s' | |]; try done.
      unfold env_step_back. rewrite bind_modify. unfold ret, at_node in *.
      simpl. rewrite Hr. simpl. by eapply game_step_back_step.
    + eapply triple_bind with (Q1 := fun _ => at_node g).
      { by intros s Hs. }
      intros [obs legal].
      eapply triple_bind with (Q1 := fun _ => at_node g).
      { eapply triple_weaken;
          [apply (action_probs_keeps False (at_node g)) | | |]; auto. }
      intros probs.
      eapply triple_bind; [by apply children_loop_restores |].
      intros [value quality].
      eapply triple_bind with (Q1 := fun _ => at_node g).
      { eapply triple_weaken;
          [apply (update_policy_keeps False (at_node g)) | | |]; auto. }
      intros ?. apply triple_get. intros s1. apply triple_ret. by intros s [Hs _].
Qed.

End GameWalk.

(** ** [eval_step] returns *)

Lemma info_probs_returns {S} (raw : list string) (legal : list nat)
    (probs : list num) (range : list nat) (s : S) :
  (forall i, i ∈ range ->
     i < length raw
     /\ exists action, legal !! i = Some action /\ action < length probs) ->
  forall acc, exists info, info_probs raw legal probs range acc s = Ok info s.
Proof.
  induction range as [| i range IH]; intros Hrange acc.
  - by exists acc.
  - destruct (Hrange i) as (Hraw & action & Hact & Hlt); [left |].
    destruct (lookup_lt_is_Some_2 raw i Hraw) as [key Hkey].
    destruct (lookup_lt_is_Some_2 probs action Hlt) as [p Hp].
    destruct (IH (fun j Hj => Hrange j (list_elem_of_further _ _ _ Hj))
                 (<[key := p]> acc)) as [info Hinfo].
    exists info. cbn [info_probs]. unfold bind, index, ret.
    by rewrite Hkey, Hact, Hp.
Qed.

Lemma eval_step_returns {E} `{Env E} (self s1 : SARSAAgent E) (state : State)
    (probs : list num) :
  action_probs (obs state) (legal_actions state) self = Ok probs s1 ->
  probs <> [] ->
  length (legal_actions state) <= length (raw_legal_actions state) ->
  (forall action, action ∈ legal_actions state -> action < length probs) ->
  exists action info, eval_step state self = Ok (action, info) s1.
Proof.
  intros Hprobs Hne Hraw Hlegal. unfold eval_step.
  rewrite (bind_Ok _ _ _ _ _ Hprobs).
  destruct probs as [| x rest]; [done |]. cbn [argmax]. rewrite bind_ret.
  destruct (info_probs_returns (raw_legal_actions state) (legal_actions state)
              (x :: rest) (seq 0 (length (legal_actions state))) s1) with (acc := (∅ : gmap string num))
    as [info Hinfo].
  { intros i Hi. apply elem_of_seq in Hi. split; [lia |].
    destruct (lookup_lt_is_Some_2 (legal_actions state) i) as [action Hact];
      [lia |].
    exists action. split; [done |].
    apply Hlegal. by eapply list_elem_of_lookup_2. }
  rewrite (bind_Ok _ _ _ _ _ Hinfo). by eexists _, _.
Qed.

Lemma no_nan_fin (ms : list R) : no_nan (Fin <$> ms).
Proof. apply Forall_fmap, Forall_forall. done. Qed.

Lemma eval_step_is_greedy_witness :
  exists action info self' probs,
    eval_step root_state fresh_agent = Ok (action, info) self'
    /\ action_probs "root" [0; 1] fresh_agent = Ok probs self'
    /\ is_greedy probs action
    /\ (exists p, probs !! 0 = Some p /\ info !! "call" = Some p)
    /\ (exists p, probs !! 1 = Some p /\ info !! "fold" = Some p).
Proof.
  destruct (action_probs_fresh fresh_agent "root" [0; 1] eq_refl eq_refl)
    as (ms & Hlen & Hrun).
  { exists 0. split; [simpl; lia | set_solver]. }
  destruct (eval_step_returns fresh_agent _ root_state _ Hrun)
    as (action & info & Heval).
  { destruct ms; [discriminate Hlen | done]. }
  { simpl. lia. }
  { rewrite length_fmap, Hlen. simpl. intros i Hi.
    repeat (apply elem_of_cons in Hi as [-> | Hi]; [lia |]).
    by apply elem_of_nil in Hi. }
  destruct (eval_step_is_greedy fresh_agent _ root_state action info Heval)
    as (probs & Hprobs & Hgreedy & Hinfo).
  { simpl. apply NoDup_cons. split; [set_solver |]. apply NoDup_singleton. }
  eexists action, info, _, probs. split; [exact Heval |].
  split; [exact Hprobs |]. split.
  - apply Hgreedy. simpl in Hprobs. rewrite Hrun in Hprobs.
    injection Hprobs as <-. apply no_nan_fin.
  - split.
    + destruct (Hinfo 0 0 eq_refl) as (key & p & Hkey & Hp & Hi).
      injection Hkey as <-. by exists p.
    + destruct (Hinfo 1 1 eq_refl) as (key & p & Hkey & Hp & Hi).
      injection Hkey as <-. by exists p.
Defined.

(** ** The walk returns on well-formed games *)

Lemma expR_nonneg (v : num) : (0 <= expR v)%R.
Proof. destruct v; simpl; try lra. left. apply exp_pos. Qed.

Lemma sum_exp_sumR (x : list num) : sum_exp x = sumR (expR <$> x).
Proof. reflexivity. Qed.

Lemma softmax_shaped (n : nat) (legal : list nat) (qf : list num) :
  shaped n legal qf ->
  (exists i, i < n /\ i ∈ legal) ->
  exists ms : list R,
    softmax_values qf = Fin <$> ms
    /\ length ms = n
    /\ Forall (fun r => (0 <= r)%R) ms
    /\ positive_mass (Fin <$> ms) legal = true.
Proof.
  intros [Hlen Hshape] (i & Hlt & Hin).
  destruct (lookup_lt_is_Some_2 qf i) as [qi Hqi]; [lia |].
  pose proof (Hshape i qi Hqi) as Hfin. rewrite bool_decide_eq_true_2 in Hfin by done.
  destruct qi as [ri | | |]; try done.
  assert (Hnn : Forall (fun r => (0 <= r)%R) (expR <$> qf)).
  { apply Forall_fmap, Forall_forall. intros v _. apply expR_nonneg. }
  assert (Hsum : (0 < sum_exp qf)%R).
  { rewrite sum_exp_sumR. apply Rlt_le_trans with (exp ri); [apply exp_pos |].
    apply (sumR_lookup_le _ i); [done |]. by rewrite list_lookup_fmap, Hqi. }
  exists ((fun v => (expR v / sum_exp qf)%R) <$> qf).
  split; [| split; [| split]].
  - unfold softmax_values.
    assert (Hdef : softmax_defined qf = true).
    { unfold softmax_defined. apply andb_true_iff. split.
      - apply forallb_forall. intros v Hv. apply list_elem_of_In in Hv.
        apply list_elem_of_lookup in Hv as [j Hj]. specialize (Hshape j v Hj).
        destruct (bool_decide _); [by destruct v | by subst v].
      - apply existsb_exists. exists (Fin ri). split; [| done].
        apply list_elem_of_In. by eapply list_elem_of_lookup_2. }
    rewrite Hdef. by rewrite <- list_fmap_compose.
  - by rewrite length_fmap.
  - apply Forall_fmap, Forall_forall. intros v _. simpl.
    pose proof (expR_nonneg v). apply Rmult_le_pos; [done |].
    left. by apply Rinv_0_lt_compat.
  - unfold positive_mass. apply existsb_exists. exists i.
    split; [by apply list_elem_of_In |].
    rewrite !list_lookup_fmap, Hqi. simpl.
    destruct (Rlt_dec _ _) as [| Hn]; [done |]. exfalso. apply Hn.
    apply Rdiv_lt_0_compat; [apply exp_pos | done].
Qed.

Lemma shaped_fresh (n : nat) (legal legal' : list nat) :
  (forall action, action ∈ legal <-> action ∈ legal') ->
  shaped n legal' (new_tactions n legal).
Proof.
  intros Hsame. rewrite new_tactions_eq. split.
  - by rewrite length_fmap, length_seq.
  - intros i q Hi. rewrite list_lookup_fmap in Hi.
    destruct (seq 0 n !! i) as [j |] eqn:Hj; [| done].
    apply lookup_seq in Hj as [-> _]. simpl in Hi. injection Hi as <-.
    unfold fresh_quality.
    destruct (decide (i ∈ legal)) as [Hin | Hout].
    + rewrite (bool_decide_eq_true_2 (i ∈ legal)) by done.
      by rewrite (bool_decide_eq_true_2 (i ∈ legal')) by (by apply Hsame).
    + rewrite (bool_decide_eq_false_2 (i ∈ legal)) by done.
      by rewrite (bool_decide_eq_false_2 (i ∈ legal')) by (by rewrite <- Hsame).
Qed.

Lemma dict_set_keys (d : list (nat * num)) (k : nat) (v : num) (k' : nat) :
  k' ∈ (dict_set d k v).*1 <-> k' ∈ d.*1 \/ k' = k.
Proof.
  induction d as [| [k0 v0] d IH]; simpl.
  - rewrite list_elem_of_singleton. set_solver.
  - case_bool_decide; simpl; rewrite ?elem_of_cons; [subst; tauto |].
    rewrite IH. tauto.
Qed.

Lemma dict_set_NoDup (d : list (nat * num)) (k : nat) (v : num) :
  NoDup d.*1 -> NoDup (dict_set d k v).*1.
Proof.
  induction d as [| [k0 v0] d IH]; simpl; intros Hnd.
  - apply NoDup_singleton.
  - apply NoDup_cons in Hnd as [Hfresh Hnd].
    case_bool_decide; simpl; apply NoDup_cons.
    + subst. by split.
    + split; [| by apply IH]. rewrite dict_set_keys. intros [? | ?]; done.
Qed.

Lemma dict_set_finite (d : list (nat * num)) (k : nat) (v : num) :
  finite_values d -> is_fin v = true -> finite_values (dict_set d k v).
Proof.
  unfold finite_values. induction d as [| [k0 v0] d IH]; simpl; intros Hd Hv.
  - by repeat constructor.
  - apply Forall_cons in Hd as [H0 Hd]. case_bool_decide.
    + by constructor.
    + constructor; [done | by apply IH].
Qed.

Lemma child_elem (children : list (nat * tree)) (action : nat) (t : tree) :
  child children action = Some t -> (action, t) ∈ children.
Proof.
  induction children as [| [k t'] rest IH]; simpl; [done |].
  case_bool_decide.
  - intros [= ->]. subst. left.
  - intros Hc. right. by apply IH.
Qed.

Lemma child_is_Some (children : list (nat * tree)) (action : nat) :
  action ∈ children.*1 -> is_Some (child children action).
Proof.
  induction children as [| [k t'] rest IH]; simpl.
  - intros Hin. by apply elem_of_nil in Hin.
  - intros Hin. case_bool_decide; [by eexists |].
    apply elem_of_cons in Hin as [-> | Hin]; [done | by apply IH].
Qed.

Lemma wf_tree_leaf_inv (n : nat) (agents : list agent_obj) (id : nat)
    (legal_of : string -> list nat) (payoffs : list num) :
  wf_tree n agents id legal_of (Leaf payoffs) ->
  exists r, payoffs !! id = Some (Fin r).
Proof. inversion 1; subst. by eexists. Qed.

Lemma wf_tree_node_inv (n : nat) (agents : list agent_obj) (id : nat)
    (legal_of : string -> list nat) p o raw (children : list (nat * tree)) :
  wf_tree n agents id legal_of (Node p o raw children) ->
  Forall (fun kid => wf_tree n agents id legal_of (snd kid)) children
  /\ ((p = id /\ children <> []
       /\ (forall action, action ∈ children.*1 <-> action ∈ legal_of o)
       /\ (forall action, action ∈ children.*1 -> action < n))
      \/ (p <> id
          /\ exists f, agents !! p = Some (Other f)
               /\ is_Some (child children (f (Build_State o (children.*1) raw))))).
Proof.
  inversion 1; subst; (split; [done |]).
  - left. split; [done |]. split; [done |]. split; done.
  - right. split; [done |]. by eexists.
Qed.

Section Returns.
Variables (id : nat) (legal_of : string -> list nat).
Implicit Types (g : game) (s : SARSAAgent game).

Lemma game_step_wf g g1 (action : nat) :
  wf_game id legal_of g -> game_step g action = Some g1 ->
  wf_game id legal_of g1 /\ g_num_actions g1 = g_num_actions g.
Proof.
  unfold wf_game, game_step. intros Hwf.
  destruct (g_current g) as [| p o raw children]; [done |].
  destruct (child children action) as [t |] eqn:Hc; [| done].
  intros [= <-]. simpl. split; [| done]. apply child_elem in Hc.
  assert (Hkids : Forall (fun kid => wf_tree (g_num_actions g) (g_agents g)
                                       id legal_of (snd kid)) children)
    by (by apply wf_tree_node_inv in Hwf as [? _]).
  by apply (proj1 (Forall_forall _ _) Hkids (action, t)).
Qed.

Lemma ready_set_env g g1 s :
  ready id legal_of g s -> g_num_actions g1 = g_num_actions g ->
  ready id legal_of g1 (set_env g1 s).
Proof.
  intros (_ & Hid & Hwf) Hn. unfold ready. rewrite Hn. by repeat split.
Qed.

(** [action_probs] at a node of the agent in a well-formed game. *)
Lemma action_probs_ready g s o (legal : list nat) :
  ready id legal_of g s ->
  (forall action, action ∈ legal <-> action ∈ legal_of o) ->
  (exists action, action ∈ legal /\ action < g_num_actions g) ->
  exists (ms : list R) s1,
    action_probs o legal s = Ok (Fin <$> ms) s1
    /\ length ms = g_num_actions g
    /\ ready id legal_of g s1
    /\ dom (qualities s) ⊆ dom (qualities s1)
    /\ o ∈ dom (qualities s1).
Proof.
  intros (Henv & Hid & Hwf) Hsame (a0 & Ha0 & Hlt).
  pose proof (Hwf o) as Ho.
  destruct (qualities s !! o) as [qf |] eqn:Hq.
  - destruct Ho as (Hshape & Hlegal & Hp).
    destruct (softmax_shaped _ _ _ Hshape Hlegal) as (ms & Hsm & Hlen & Hnn & Hpos).
    assert (Hpos' : positive_mass (Fin <$> ms) legal = true).
    { unfold positive_mass in *. apply existsb_exists.
      apply existsb_exists in Hpos as (i & Hi & Hgt). exists i. split; [| done].
      apply list_elem_of_In. apply Hsame. by apply list_elem_of_In. }
    eexists _, s. split; [| split; [| split; [| split]]].
    + unfold action_probs. rewrite bind_get. unfold has_key. rewrite Hp. simpl.
      rewrite bind_ret, Hsm. by apply remove_illegal_fin.
    + unfold maskR. by rewrite length_fmap, length_imap.
    + done.
    + done.
    + apply elem_of_dom. by eexists.
  - destruct (action_probs_fresh s o legal Ho Hq) as (ms & Hlen & Hrun).
    { exists a0. rewrite Henv. by split. }
    rewrite Henv in Hlen, Hrun. simpl in Hlen, Hrun.
    eexists ms, _. split; [exact Hrun |]. split; [exact Hlen |].
    split; [| split].
    + split; [done |]. split; [done |]. intros o'. simpl.
      destruct (decide (o' = o)) as [-> | Hne].
      * rewrite !lookup_insert_eq. split; [by apply shaped_fresh |].
        split.
        -- exists a0. split; [done | by apply Hsame].
        -- f_equal. symmetry. apply softmax_fresh_uniform. by exists a0.
      * rewrite !lookup_insert_ne by done. apply Hwf.
    + simpl. rewrite dom_insert_L. set_solver.
    + simpl. rewrite dom_insert_L. set_solver.
Qed.

(** [update_policy] with finite targets for legal actions of a stored
    fingerprint. *)
Lemma update_policy_ready g s o (items : list (nat * num)) (legal : list nat) :
  ready id legal_of g s ->
  o ∈ dom (qualities s) ->
  NoDup items.*1 ->
  (forall k, k ∈ items.*1 -> k ∈ legal_of o /\ k < g_num_actions g) ->
  finite_values items ->
  exists s',
    update_policy o items legal s = Ok tt s'
    /\ ready id legal_of g s'
    /\ dom (qualities s) ⊆ dom (qualities s').
Proof.
  intros (Henv & Hid & Hwf) Ho Hnd Hkeys Hfin.
  apply elem_of_dom in Ho as [qf Hq].
  pose proof (Hwf o) as Hwo. rewrite Hq in Hwo.
  destruct Hwo as ([Hlen Hshape] & Hlegal & Hp).
  assert (Hqf : qf <> []).
  { destruct Hlegal as (i0 & Hi0 & _). intros ->. simpl in Hlen. lia. }
  destruct (update_policy_spec s o qf items legal Hq Hqf Hnd)
    as (qf' & Hrun & Hlen' & Hmoved & Hother).
  { intros i Hi. rewrite Hlen. by apply Hkeys. }
  eexists. split; [exact Hrun |]. split.
  - split; [done |]. split; [done |]. intros o'. simpl.
    destruct (decide (o' = o)) as [-> | Hne].
    2:{ rewrite !lookup_insert_ne by done. apply Hwf. }
    rewrite !lookup_insert_eq. split; [| by split].
    split; [lia |]. intros i q' Hi.
    destruct (decide (i ∈ items.*1)) as [Hin | Hout].
    + destruct (Hkeys i Hin) as [Hil Hlt].
      rewrite bool_decide_eq_true_2 by done.
      apply list_elem_of_fmap in Hin as ([i' t] & -> & Hit). simpl in *.
      destruct (lookup_lt_is_Some_2 qf i') as [q Hqi]; [lia |].
      pose proof (Hshape i' q Hqi) as Hfq.
      rewrite bool_decide_eq_true_2 in Hfq by done.
      pose proof (proj1 (Forall_forall _ _) Hfin (i', t) Hit) as Hft.
      simpl in Hft. rewrite (Hmoved i' t q Hit Hqi) in Hi. injection Hi as <-.
      by destruct q, t.
    + rewrite (Hother i Hout) in Hi. by apply Hshape.
  - simpl. rewrite dom_insert_L. set_solver.
Qed.

(** The loop over the children of a node of the agent, given that the
    walk returns on every child. *)
Lemma children_loop_returns (fuel : nat) g (ms : list R) :
  wf_game id legal_of g ->
  height (g_current g) <= S fuel ->
  length ms = g_num_actions g ->
  (forall g1 s1,
     ready id legal_of g1 s1 -> wf_game id legal_of g1 ->
     height (g_current g1) <= fuel ->
     exists r s',
       traverse_tree fuel s1 = Ok (Fin r) s'
       /\ ready id legal_of g1 s'
       /\ dom (qualities s1) ⊆ dom (qualities s')) ->
  forall (actions : list nat),
    (forall action, action ∈ actions ->
       is_Some (game_step g action) /\ action < g_num_actions g) ->
    forall s (v : R) (quality : list (nat * num)),
      ready id legal_of g s -> NoDup quality.*1 -> finite_values quality ->
      exists (r : R) quality' s',
        children_loop (traverse_tree fuel) (Fin <$> ms) actions (Fin v) quality s
        = Ok (Fin r, quality') s'
        /\ ready id legal_of g s'
        /\ dom (qualities s) ⊆ dom (qualities s')
        /\ NoDup quality'.*1
        /\ finite_values quality'
        /\ (forall k, k ∈ quality'.*1 <-> k ∈ quality.*1 \/ k ∈ actions).
Proof.
  intros Hwf Hh Hlen Hrec.
  induction actions as [| action rest IH]; intros Hact s v quality Hs Hnd Hfin.
  - exists v, quality, s. do 5 (split; [done |]). intros k.
    split; [by left | intros [? | Hin]; [done | by apply elem_of_nil in Hin]].
  - destruct (Hact action) as [[g1 Hstep] Hlt]; [left |].
    destruct (lookup_lt_is_Some_2 ms action) as [p Hp]; [lia |].
    destruct (game_step_wf g g1 action Hwf Hstep) as [Hwf1 Hn1].
    destruct (Hrec g1 (set_env g1 s)) as (q & s2 & Hrun & Hs2 & Hdom2).
    { by apply (ready_set_env g). }
    { done. }
    { by eapply game_step_height. }
    set (s3 := set_env (step_back (env s2)) s2).
    assert (Hs3 : ready id legal_of g s3).
    { destruct Hs2 as (Henv2 & Hid2 & Hwf2). unfold ready, s3. simpl.
      rewrite Henv2. rewrite (game_step_back_step g g1 action Hstep).
      rewrite <- Hn1. done. }
    destruct (IH (fun a' Ha' => Hact a' (list_elem_of_further _ _ _ Ha'))
                 s3 (v + p * q)%R (dict_set quality action (Fin q)) Hs3)
      as (r & quality' & s' & Hloop & Hs' & Hdom' & Hnd' & Hfin' & Hkeys').
    { by apply dict_set_NoDup. }
    { by apply dict_set_finite. }
    exists r, quality', s'. split; [| split; [| split; [| split; [| split]]]];
      try done.
    + cbn [children_loop]. unfold index at 1.
      rewrite list_lookup_fmap, Hp. simpl. rewrite bind_ret.
      destruct Hs as (Henv & _).
      rewrite (bind_Ok _ _ _ _ _ (env_step_Ok s action g1
                 ltac:(rewrite Henv; exact Hstep))).
      rewrite (bind_Ok _ _ _ _ _ Hrun).
      unfold env_step_back. rewrite bind_modify. exact Hloop.
    + etrans; [| exact Hdom']. exact Hdom2.
    + intros k. rewrite Hkeys', dict_set_keys, elem_of_cons. tauto.
Qed.

(** On a well-formed game, with fuel for the height of the current node
    and a well-formed store, the walk returns a finite value and leaves
    the environment where it was and the store well formed. *)
Lemma traverse_tree_returns (fuel : nat) :
  forall g s,
    ready id legal_of g s -> wf_game id legal_of g ->
    height (g_current g) <= fuel ->
    exists r s',
      traverse_tree fuel s = Ok (Fin r) s'
      /\ ready id legal_of g s'
      /\ dom (qualities s) ⊆ dom (qualities s').
Proof.
  induction fuel as [| fuel IH]; intros g s Hs Hwf Hh.
  { destruct (g_current g); simpl in Hh; lia. }
  pose proof Hs as (Henv & Hid & Hstore). pose proof Hwf as Hwfg.
  cbn [traverse_tree]. rewrite bind_get, Henv.
  unfold wf_game in Hwf.
  change (is_over g) with
    (match g_current g with Leaf _ => true | Node _ _ _ _ => false end).
  change (get_payoffs g) with
    (match g_current g with Leaf p => p | Node _ _ _ _ => [] end).
  change (get_player_id g) with
    (match g_current g with Leaf _ => 0 | Node p _ _ _ => p end).
  change (get_state g) with (fun _ : nat => game_state g). cbv beta.
  assert (Hstate : forall p o raw children,
             g_current g = Node p o raw children ->
             game_state g = Build_State o (children.*1) raw).
  { intros p o raw children Hc. unfold game_state. by rewrite Hc. }
  assert (Hchild : forall p o raw children action t,
             g_current g = Node p o raw children ->
             child children action = Some t ->
             game_step g action = Some (game_at g t (g_current g :: g_trail g))).
  { intros p o raw children action t Hc Ht. unfold game_step. by rewrite Hc, Ht. }
  rewrite Hid. clear Henv Hid Hstore.
  destruct (g_current g) as [payoffs | p o raw children] eqn:Hcur.
  { apply wf_tree_leaf_inv in Hwf as [r Hpay].
    exists r, s. unfold index. rewrite Hpay.
    split; [done |]. split; [exact Hs | set_solver]. }
  specialize (Hstate _ _ _ _ eq_refl).
  pose proof (fun action t => Hchild _ _ _ _ action t eq_refl) as Hstep_to.
  clear Hchild.
  apply wf_tree_node_inv in Hwf
    as [Hkids [(-> & Hne & Hsame & Hrange) | (Hp & f & Hag & Hmove)]].
  - rewrite Nat.eqb_refl. cbn [negb].
    rewrite (bind_Ok (agent_get_state _) _ s s (o, children.*1)).
    2:{ unfold agent_get_state. rewrite bind_get. destruct Hs as (-> & _).
        change (get_state g ?x) with (game_state g).
        by rewrite Hstate. }
    cbv beta iota.
    destruct (action_probs_ready g s o (children.*1) Hs Hsame)
      as (ms & s1 & Hprobs & Hlen & Hs1 & Hdom1 & Ho1).
    { destruct children as [| [k t] rest]; [done |].
      exists k. split; [left | apply Hrange; left]. }
    rewrite (bind_Ok _ _ _ _ _ Hprobs).
    assert (Hact : forall action, action ∈ children.*1 ->
               is_Some (game_step g action) /\ action < g_num_actions g).
    { intros action Hin. split; [| by apply Hrange].
      destruct (child_is_Some _ _ Hin) as [t Ht].
      rewrite (Hstep_to _ _ Ht). by eexists. }
    assert (Hh' : height (g_current g) <= S fuel) by (by rewrite Hcur).
    destruct (children_loop_returns fuel g ms Hwfg Hh' Hlen IH (children.*1)
                Hact s1 0%R [] Hs1 (NoDup_nil_2 (A:=nat)) (Forall_nil_2 _))
      as (r & quality & s2 & Hloop & Hs2 & Hdom2 & Hnd & Hfin & Hkeys).
    rewrite (bind_Ok _ _ _ _ _ Hloop). cbv beta iota.
    destruct (update_policy_ready g s2 o quality (children.*1) Hs2)
      as (s3 & Hupd & Hs3 & Hdom3); try done.
    { set_solver. }
    { intros k Hk. apply Hkeys in Hk as [Hk | Hk];
        [by apply elem_of_nil in Hk |].
      split; [by apply Hsame | by apply Hrange]. }
    rewrite (bind_Ok _ _ _ _ _ Hupd). rewrite bind_get. unfold ret. simpl.
    eexists _, s3. split; [reflexivity |]. split; [done |].
    etrans; [exact Hdom1 |]. etrans; [exact Hdom2 | exact Hdom3].
  - destruct (Nat.eqb_spec p id) as [-> | _]; [done |].
    cbn [negb]. rewrite Hstate.
    set (action := f {| obs := o; legal_actions := children.*1;
                        raw_legal_actions := raw |}) in *.
    rewrite (bind_Ok (opponent_step p _) _ s s action).
    2:{ unfold opponent_step. rewrite bind_get. destruct Hs as (-> & _).
        change (get_agents g) with (g_agents g). unfold index.
        by rewrite Hag, bind_ret. }
    destruct Hmove as [t Ht].
    pose proof (Hstep_to _ _ Ht) as Hstep.
    set (g1 := game_at g t _) in Hstep.
    destruct (game_step_wf g g1 action Hwfg Hstep) as [Hwf1 Hn1].
    destruct (IH g1 (set_env g1 s)) as (r & s2 & Hrun & Hs2 & Hdom2).
    { by apply (ready_set_env g). }
    { done. }
    { eapply game_step_height; [| exact Hstep]. by rewrite Hcur. }
    rewrite (bind_Ok _ _ _ _ _ (env_step_Ok s action g1
               ltac:(destruct Hs as (-> & _); exact Hstep))).
    rewrite (bind_Ok _ _ _ _ _ Hrun).
    unfold env_step_back. rewrite bind_modify. unfold ret.
    eexists r, _. split; [reflexivity |]. split; [| exact Hdom2].
    destruct Hs2 as (Henv2 & Hid2 & Hwf2). unfold ready. simpl.
    rewrite Henv2. rewrite (game_step_back_step g g1 action Hstep).
    rewrite <- Hn1. done.
Qed.

End Returns.

(** ** The walk leaves the environment where it found it *)

Lemma find_agent_seat (s : SARSAAgent game) :
  exists s',
    find_agent s = Ok tt s'
    /\ env s' = env s /\ agent_id s' = seat s
    /\ policy s' = policy s /\ qualities s' = qualities s.
Proof.
  unfold find_agent, seat. rewrite bind_get.
  destruct (first_sarsa _ _); eexists; (split; [reflexivity | done]).
Qed.

(** C4: on a finite game tree, with fuel for the height of the node the
    environment is at, [traverse_tree] ends, and when it returns the
    environment is exactly the one it was called with: the same node and
    the same trail of pending steps, every [step] undone by one
    [step_back].  On a well-formed game with a well-formed store it does
    return.  The same holds of [train], which leaves the environment
    as [reset] gave it. *)
Theorem traverse_tree_restores_environment (self : SARSAAgent game) (fuel : nat) :
  (height (g_current (env self)) <= fuel ->
     match traverse_tree fuel self with
     | Ok _ self' => env self' = env self
     | Raise _ _ => True
     | OutOfFuel => False
     end
     /\ forall legal_of,
          wf_store (g_num_actions (env self)) legal_of self ->
          wf_game (agent_id self) legal_of (env self) ->
          exists r self',
            traverse_tree fuel self = Ok (Fin r) self'
            /\ env self' = env self)
  /\ (height (g_root (env self)) <= fuel ->
      match train fuel self with
      | Ok _ self' => env self' = reset (env self)
      | Raise _ _ => True
      | OutOfFuel => False
      end
      /\ forall legal_of,
           wf_store (g_num_actions (env self)) legal_of self ->
           wf_game (seat self) legal_of (reset (env self)) ->
           exists self',
             train fuel self = Ok tt self'
             /\ env self' = reset (env self)).
Proof.
  split; intros Hh; split.
  - by apply (traverse_tree_restores fuel (env self) Hh self).
  - intros legal_of Hstore Hwf.
    destruct (traverse_tree_returns (agent_id self) legal_of fuel (env self) self)
      as (r & self' & Hrun & (Henv & _) & _); try done.
    by exists r, self'.
  - unfold train. rewrite !bind_modify.
    set (s1 := set_env _ _).
    destruct (find_agent_seat s1) as (s2 & Hfind & Henv & _).
    rewrite (bind_Ok _ _ _ _ _ Hfind).
    pose proof (traverse_tree_restores fuel (reset (env self)) Hh s2 Henv) as Hw.
    unfold bind. destruct (traverse_tree fuel s2); try done.
  - intros legal_of Hstore Hwf. unfold train. rewrite !bind_modify.
    set (s1 := set_env _ _).
    destruct (find_agent_seat s1) as (s2 & Hfind & Henv & Hseat & Hp & Hq).
    rewrite (bind_Ok _ _ _ _ _ Hfind).
    destruct (traverse_tree_returns (seat self) legal_of fuel
                (reset (env self)) s2)
      as (r & self' & Hrun & (Henv' & _) & _); try done.
    + split; [exact Henv |]. split; [exact Hseat |].
      intros o. specialize (Hstore o). rewrite Hp, Hq. exact Hstore.
    + rewrite (bind_Ok _ _ _ _ _ Hrun). by exists self'.
Qed.

Lemma two_node_game_wf : wf_game 0 two_node_legal two_node_game.
Proof.
  apply wf_agent_node.
  - done.
  - done.
  - simpl. intros action Hin.
    repeat (apply elem_of_cons in Hin as [-> | Hin]; [lia |]).
    by apply elem_of_nil in Hin.
  - repeat constructor; by eapply wf_leaf.
Qed.

Lemma traverse_tree_restores_environment_witness :
  (exists r self',
     traverse_tree 2 fresh_agent = Ok (Fin r) self'
     /\ env self' = env fresh_agent)
  /\ (exists self',
        train 2 fresh_agent = Ok tt self'
        /\ env self' = reset (env fresh_agent)).
Proof.
  destruct (traverse_tree_restores_environment fresh_agent 2) as [Hwalk Htrain].
  split.
  - destruct Hwalk as [_ Hwalk]; [simpl; lia |].
    apply (Hwalk two_node_legal); [done | apply two_node_game_wf].
  - destruct Htrain as [_ Htrain]; [simpl; lia |].
    apply (Htrain two_node_legal); [done | apply two_node_game_wf].
Defined.

(** ** One iteration on the two-node game

    After one [train] from the fresh agent the quality of action 0 has
    moved from 0 toward +1 and that of action 1 toward -1, each by the
    factor [alpha], and the iteration counter is 1. *)

Example train_two_node_game :
  exists self' qf,
    train 2 fresh_agent = Ok tt self'
    /\ iteration self' = 1%Z
    /\ qualities self' !! "root" = Some qf
    /\ qf !! 0 = Some (Fin (1 / 10))
    /\ qf !! 1 = Some (Fin (- (1 / 10))).
Proof.
  unfold train. rewrite !bind_modify.
  set (s0 := set_env _ _).
  assert (Hfind : find_agent s0 = Ok tt (set_agent_id 0 s0)) by reflexivity.
  rewrite (bind_Ok _ _ _ _ _ Hfind).
  set (s := set_agent_id 0 s0).
  destruct (action_probs_fresh s "root" [0; 1] eq_refl eq_refl)
    as (ms & Hlen & Hrun).
  { exists 0. split; [simpl; lia | set_solver]. }
  destruct ms as [| m0 [| m1 [| ? ?]]]; try discriminate Hlen.
  set (s1 := set_policy _ _) in Hrun.
  assert (Hkids : exists s2,
             children_values 1 s1 [0; 1] [Fin 1; Fin (-1)] s2
             /\ qualities s2 !! "root" = Some (new_tactions 2 [0; 1])
             /\ alpha s2 = (1 / 10)%R /\ iteration s2 = 1%Z).
  { eexists. split.
    - eapply cv_cons; [reflexivity | reflexivity |].
      eapply cv_cons; [reflexivity | reflexivity |]. apply cv_nil.
    - simpl. split; [apply lookup_insert_eq | done]. }
  destruct Hkids as (s2 & Hkids & Hq & Halpha & Hiter).
  destruct (update_policy_spec s2 "root" _ [(0, Fin 1); (1, Fin (-1))] [0; 1] Hq)
    as (qf' & Hupd & _ & Hmoved & _).
  { intros Hnil. apply (f_equal length) in Hnil.
    rewrite new_tactions_length in Hnil. discriminate Hnil. }
  { simpl. apply NoDup_cons. split; [set_solver |]. apply NoDup_singleton. }
  { rewrite new_tactions_eq, length_fmap, length_seq. simpl. intros i Hi.
    repeat (apply elem_of_cons in Hi as [-> | Hi]; [lia |]).
    by apply elem_of_nil in Hi. }
  assert (Hover : is_over (env s) = false) by reflexivity.
  rewrite (bind_Ok _ _ _ _ _
             (traverse_tree_agent_node 1 s _ s1 [Fin m0; Fin m1] _ s2 _
                Hover (eq_refl 0) Hrun ltac:(repeat constructor) Hkids Hupd)).
  eexists _, qf'. split; [reflexivity |].
  split; [exact Hiter |]. split; [simpl; apply lookup_insert_eq |].
  rewrite Halpha in Hmoved. split.
  - rewrite (Hmoved 0 (Fin 1) (Fin 0)); [| left |].
    + simpl. do 2 f_equal. lra.
    + rewrite new_tactions_eq. reflexivity.
  - rewrite (Hmoved 1 (Fin (-1)) (Fin 0)); [| right; left |].
    + simpl. do 2 f_equal. lra.
    + rewrite new_tactions_eq. reflexivity.
Qed.

(** * Further properties of the agent *)

(** ** [save] and [load] *)

Section SaveLoad.
Context {E : Type}.
Implicit Types (self other : SARSAAgent E) (fs : gmap string model_dir).

Lemma set_store_id self :
  set_iteration (iteration self)
    (set_qualities (qualities self) (set_policy (policy self) self)) = self.
Proof. by destruct self. Qed.

(** X1: what [save] wrote is what [load] reads back.  An agent with the
    same model path gets exactly the saved policy, qualities and
    iteration counter, whatever the location held before; loading into
    the agent that saved changes nothing. *)
Theorem save_then_load_restores self other fs :
  model_path other = model_path self ->
  load (save self fs) other
  = Ok tt (set_iteration (iteration self)
             (set_qualities (qualities self) (set_policy (policy self) other)))
  /\ load (save self fs) self = Ok tt self.
Proof.
  intros Hpath. split.
  - unfold load. rewrite bind_get, Hpath.
    unfold save. by rewrite lookup_insert_eq.
  - unfold load. rewrite bind_get. unfold save. rewrite lookup_insert_eq.
    simpl. unfold bind, modify, ret. simpl. f_equal. apply set_store_id.
Qed.

(** X2: of two saves to the same model path the last one wins.  The
    directory at that path then holds the three files of the second
    agent, whatever the first had written and whatever was there before,
    and a later [load] from that path reads what the second agent
    saved. *)
Theorem last_save_wins self other (reader : SARSAAgent E) fs :
  model_path other = model_path self ->
  model_path reader = model_path self ->
  save other (save self fs) !! model_path self
  = Some (mkDir (Some (policy other)) (Some (qualities other))
                (Some (iteration other)))
  /\ load (save other (save self fs)) reader
     = Ok tt (set_iteration (iteration other)
                (set_qualities (qualities other)
                   (set_policy (policy other) reader))).
Proof.
  intros Hother Hreader. split.
  - rewrite <- Hother. apply save_lookup.
  - apply load_save. congruence.
Qed.

(** X3: [load] is not atomic.  With the directory present, a missing
    policy file raises and leaves the agent as it was; a missing
    qualities file raises after the policy has been replaced; a missing
    iteration file raises after both dictionaries have been replaced. *)
Theorem load_stops_at_first_missing_file self fs (d : model_dir) :
  fs !! model_path self = Some d ->
  (policy_pkl d = None -> load fs self = Raise FileNotFoundError self)
  /\ (forall p, policy_pkl d = Some p -> qualities_pkl d = None ->
        load fs self = Raise FileNotFoundError (set_policy p self))
  /\ (forall p q, policy_pkl d = Some p -> qualities_pkl d = Some q ->
        iteration_pkl d = None ->
        load fs self
        = Raise FileNotFoundError (set_qualities q (set_policy p self))).
Proof.
  intros Hd. unfold load. rewrite bind_get, Hd. split; [| split].
  - by intros ->.
  - by intros p -> ->.
  - by intros p q -> -> ->.
Qed.

End SaveLoad.

Lemma save_then_load_restores_witness :
  load (save seen_agent ∅) fresh_agent
  = Ok tt (set_iteration (iteration seen_agent)
             (set_qualities (qualities seen_agent)
                (set_policy (policy seen_agent) fresh_agent)))
  /\ load (save seen_agent ∅) seen_agent = Ok tt seen_agent.
Proof. apply (save_then_load_restores seen_agent fresh_agent ∅). reflexivity. Defined.

Lemma load_stops_at_first_missing_file_witness :
  load half_written_fs fresh_agent
  = Raise FileNotFoundError (set_policy {["s" := [Fin 1]]} fresh_agent).
Proof.
  assert (Hd : half_written_fs !! model_path fresh_agent = Some half_written_dir)
    by reflexivity.
  destruct (load_stops_at_first_missing_file fresh_agent half_written_fs
              half_written_dir Hd) as (_ & Hq & _).
  by apply Hq.
Defined.

Lemma last_save_wins_witness :
  save seen_agent (save fresh_agent mismatched_fs) !! "./sarsa_model"
  = Some (mkDir (Some (policy seen_agent)) (Some (qualities seen_agent))
                (Some 0%Z))
  /\ load (save seen_agent (save fresh_agent mismatched_fs)) fresh_agent
     = Ok tt (set_iteration 0
                (set_qualities (qualities seen_agent)
                   (set_policy (policy seen_agent) fresh_agent))).
Proof.
  apply (last_save_wins fresh_agent seen_agent fresh_agent mismatched_fs);
    reflexivity.
Defined.

(** ** [find_agent] and the bookkeeping of [train] *)

Lemma first_sarsa_Some (agents : list agent_obj) :
  forall k i,
    first_sarsa k agents = Some i ->
    k <= i
    /\ agents !! (i - k) = Some Sarsa
    /\ forall j, j < i - k -> agents !! j <> Some Sarsa.
Proof.
  induction agents as [| [| f] rest IH]; intros k i Hi; simpl in Hi; [done | |].
  - injection Hi as <-. rewrite Nat.sub_diag. split; [lia |].
    split; [done |]. intros j Hj. lia.
  - destruct (IH (S k) i Hi) as (Hle & Hat & Hbefore).
    split; [lia |]. replace (i - k) with (S (i - S k)) by lia.
    split; [done |]. intros [| j] Hj; [done |]. simpl. apply Hbefore. lia.
Qed.

Lemma first_sarsa_None (agents : list agent_obj) :
  forall k, first_sarsa k agents = None ->
    forall j, agents !! j <> Some Sarsa.
Proof.
  induction agents as [| [| f] rest IH]; intros k Hk j; simpl in Hk; try done.
  destruct j as [| j]; [done |]. simpl. by eapply IH.
Qed.

Section FindAgent.
Context {E : Type} `{Env E}.
Implicit Types (self : SARSAAgent E).

Lemma set_agent_id_id self : set_agent_id (agent_id self) self = self.
Proof. by destruct self. Qed.

Lemma find_agent_Ok self :
  find_agent self = Ok tt (set_agent_id (seat self) self).
Proof.
  unfold find_agent, seat. rewrite bind_get.
  destruct (first_sarsa 0 (get_agents (env self))); simpl; [done |].
  by rewrite set_agent_id_id.
Qed.

(** X4: [find_agent] always returns and writes nothing but [agent_id].
    The seat it sets is the first position of a [SARSAAgent] among the
    environment's agents: one sits there and none sits before; when the
    environment has no [SARSAAgent] the agent is left as it was. *)
Theorem find_agent_takes_first_sarsa self :
  find_agent self = Ok tt (set_agent_id (seat self) self)
  /\ (forall i, get_agents (env self) !! i = Some Sarsa ->
        get_agents (env self) !! seat self = Some Sarsa
        /\ seat self <= i)
  /\ ((forall i, get_agents (env self) !! i <> Some Sarsa) ->
        find_agent self = Ok tt self).
Proof.
  unfold find_agent, seat. rewrite bind_get.
  destruct (first_sarsa 0 (get_agents (env self))) as [id |] eqn:Hfirst; simpl.
  - destruct (first_sarsa_Some _ _ _ Hfirst) as (_ & Hat & Hbefore).
    rewrite Nat.sub_0_r in Hat, Hbefore.
    split; [done |]. split.
    + intros i Hi. split; [done |].
      destruct (decide (id <= i)) as [| Hlt]; [done |].
      exfalso. apply (Hbefore i); [lia | done].
    + intros Hnone. by destruct (Hnone id).
  - split; [by rewrite set_agent_id_id |]. split; [| done].
    intros i Hi. by destruct (first_sarsa_None _ _ Hfirst i).
Qed.

(** X5: however [train] ends, by returning or by an exception of the
    walk, the iteration counter has grown by one, [a] is the number of
    fingerprints the policy had at the call, the agent sits at the seat
    [find_agent] found in the reset environment, and the step size, the
    discount and the model path are as they were. *)
Theorem train_bookkeeping self (fuel : nat) :
  final (fun self' =>
           iteration self' = (iteration self + 1)%Z
           /\ a self' = size (policy self)
           /\ agent_id self' = seat (set_env (reset (env self)) self)
           /\ alpha self' = alpha self
           /\ gamma self' = gamma self
           /\ model_path self' = model_path self)
        (train fuel self).
Proof.
  unfold train. rewrite !bind_modify.
  set (s1 := set_env _ (set_a _ _)).
  rewrite (bind_Ok _ _ _ _ _ (find_agent_Ok s1)).
  set (s2 := set_agent_id _ s1).
  pose proof (traverse_tree_params True fuel s2 Logic.I s2 (same_params_refl s2))
    as Hw.
  unfold bind, final.
  destruct (traverse_tree fuel s2) as [v s3 | e s3 |]; [| | done];
    destruct Hw as (Hg & Hal & Hid & Hpath & Ha & Hit); unfold ret;
    rewrite Hg, Hal, Hid, Hpath, Ha, Hit; by repeat split.
Qed.

End FindAgent.

Lemma find_agent_takes_first_sarsa_witness :
  find_agent fresh_agent = Ok tt (set_agent_id (seat fresh_agent) fresh_agent)
  /\ get_agents (env fresh_agent) !! seat fresh_agent = Some Sarsa
  /\ seat fresh_agent <= 0.
Proof.
  destruct (find_agent_takes_first_sarsa fresh_agent) as (Hrun & Hfirst & _).
  split; [exact Hrun |]. by apply (Hfirst 0).
Defined.

(** ** What inference writes *)

Lemma info_probs_state {S} (raw : list string) (legal : list nat)
    (probs : list num) (range : list nat) (s : S) :
  forall acc,
    match info_probs raw legal probs range acc s with
    | Ok _ s' => s' = s
    | Raise e s' => e = IndexError /\ s' = s
    | OutOfFuel => False
    end.
Proof.
  induction range as [| i range IH]; intros acc; [done |].
  cbn [info_probs]. unfold bind, index, ret, raise.
  destruct (raw !! i); [| done]. destruct (legal !! i); [| done].
  destruct (probs !! _); [| done]. apply IH.
Qed.

Section Inference.
Context {E : Type} `{Env E}.
Implicit Types (self : SARSAAgent E).

(** [eval_step] leaves the agent as [action_probs] leaves it. *)
Lemma eval_step_final (P : SARSAAgent E -> Prop) self (state : State) :
  final P (action_probs (obs state) (legal_actions state) self) ->
  final P (eval_step state self).
Proof.
  unfold eval_step, final. unfold bind at 1.
  destruct (action_probs _ _ self) as [probs s1 | e s1 |]; try done.
  intros HP. destruct probs as [| x rest]; [done |].
  cbn [argmax]. rewrite bind_ret. unfold bind.
  pose proof (info_probs_state (raw_legal_actions state) (legal_actions state)
                (x :: rest) (seq 0 (length (legal_actions state))) s1 ∅) as Hinfo.
  destruct (info_probs _ _ _ _ _ s1) as [info s2 | e s2 |]; [| | done].
  - by subst s2.
  - by destruct Hinfo as [_ ->].
Qed.

(** X6: on an observation whose probability vector is stored, inference
    only reads: [action_probs] and [eval_step] leave the agent exactly as
    it was, whether they return or raise, and the vector handed out is
    the masking of the stored one. *)
Theorem inference_on_known_observation_reads_only self (state : State)
    (stored : list num) :
  policy self !! obs state = Some stored ->
  final (fun self' => self' = self)
        (action_probs (obs state) (legal_actions state) self)
  /\ final (fun self' => self' = self) (eval_step state self)
  /\ (forall probs self',
        action_probs (obs state) (legal_actions state) self = Ok probs self' ->
        remove_illegal stored (legal_actions state) self = Ok probs self).
Proof.
  intros Hstored.
  assert (Hrun : action_probs (obs state) (legal_actions state) self
                 = remove_illegal stored (legal_actions state) self).
  { unfold action_probs. rewrite bind_get. unfold has_key. rewrite Hstored.
    simpl. by rewrite bind_ret. }
  assert (Hfinal : final (fun self' => self' = self)
                     (action_probs (obs state) (legal_actions state) self)).
  { rewrite Hrun. unfold remove_illegal. by destruct (positive_mass _ _). }
  split; [exact Hfinal |]. split; [by apply eval_step_final |].
  intros probs self' Hok. rewrite Hrun in Hok.
  assert (self' = self) as ->; [| done].
  unfold remove_illegal in Hok. destruct (positive_mass _ _); [| done].
  by injection Hok.
Qed.

(** X7: on an observation that neither dictionary knows, inference
    writes.  With an action space that is not empty, however [eval_step]
    ends, the agent has gained exactly one entry in each dictionary, the
    fresh quality vector and its softmax, and everything else is as it
    was.  With an empty action space [eval_step] raises the
    [ValueError] of [softmax], and the agent has gained the empty
    quality vector only. *)
Theorem inference_on_unseen_observation_writes self (state : State) :
  policy self !! obs state = None ->
  qualities self !! obs state = None ->
  let tactions := new_tactions (num_actions (env self)) (legal_actions state) in
  (0 < num_actions (env self) ->
   final (fun self' =>
            self' = set_policy (<[obs state := softmax_values tactions]> (policy self))
                      (set_qualities (<[obs state := tactions]> (qualities self))
                         self))
         (eval_step state self))
  /\ (num_actions (env self) = 0 ->
      eval_step state self
      = Raise ValueError
          (set_qualities (<[obs state := []]> (qualities self)) self)).
Proof.
  intros Hp Hq tactions. split.
  - intros Hn. apply eval_step_final. rewrite action_probs_unseen by done.
    unfold remove_illegal. by destruct (positive_mass _ _).
  - intros Hn. unfold eval_step.
    by rewrite (bind_Raise _ _ _ _ _
                  (action_probs_unseen_empty self (obs state)
                     (legal_actions state) Hp Hq Hn)).
Qed.

(** X8: a fingerprint that has a quality vector but no probability vector
    is never repaired.  [action_probs] takes it for a known one, the
    [defaultdict] read puts the empty list into the policy, the quality
    vector stays as it is, and the call raises. *)
Theorem quality_without_policy_is_not_repaired self obs qf (legal : list nat) :
  qualities self !! obs = Some qf ->
  policy self !! obs = None ->
  exists e,
    action_probs obs legal self
    = Raise e (set_policy (<[obs := []]> (policy self)) self).
Proof.
  intros Hq Hp. exists DegenerateDistribution.
  rewrite (action_probs_orphan self obs qf) by done. unfold remove_illegal.
  assert (Hzero : positive_mass [] legal = false).
  { unfold positive_mass. induction legal as [| i legal IH]; [done |].
    exact IH. }
  by rewrite Hzero.
Qed.

End Inference.

(** ** How [update_policy] ends *)

Section UpdateOutcome.
Context {E : Type}.
Implicit Types (self s : SARSAAgent E) (qf : list num) (obs : string).

Lemma update_loop_outcome obs (items : list (nat * num)) :
  forall qf s,
    qualities s !! obs = Some qf ->
    match update_loop obs qf items s with
    | Ok qf' s' =>
        (forall i, i ∈ items.*1 -> i < length qf)
        /\ length qf' = length qf
        /\ s' = set_qualities (<[obs := qf']> (qualities s)) s
    | Raise e s' =>
        e = IndexError
        /\ (exists i, i ∈ items.*1 /\ length qf <= i)
        /\ exists qf', length qf' = length qf
             /\ s' = set_qualities (<[obs := qf']> (qualities s)) s
    | OutOfFuel => False
    end.
Proof.
  induction items as [| [i t] items IH]; intros qf s Hq.
  - simpl. unfold ret. split; [| split; [done |]].
    + intros i Hi. by apply elem_of_nil in Hi.
    + by rewrite set_qualities_id.
  - cbn [update_loop]. rewrite bind_get. unfold bind at 1, index.
    destruct (qf !! i) as [q |] eqn:Hqi.
    + unfold ret at 1. rewrite bind_modify.
      set (qf1 := <[i := _]> qf).
      set (s1 := set_qualities (<[obs := qf1]> (qualities s)) s).
      assert (Hq1 : qualities s1 !! obs = Some qf1)
        by (simpl; apply lookup_insert_eq).
      assert (Hlen1 : length qf1 = length qf) by apply length_insert.
      assert (Hs1 : forall qf', set_qualities (<[obs := qf']> (qualities s1)) s1
                                = set_qualities (<[obs := qf']> (qualities s)) s).
      { intros qf'. unfold s1. simpl. by rewrite insert_insert_eq. }
      specialize (IH qf1 s1 Hq1).
      destruct (update_loop obs qf1 items s1) as [qf' s' | e s' |]; [| | done].
      * destruct IH as (Hrange & Hlen & ->). split; [| split].
        -- intros k Hk. simpl in Hk. apply elem_of_cons in Hk as [-> | Hk].
           ++ by eapply lookup_lt_Some.
           ++ rewrite <- Hlen1. by apply Hrange.
        -- lia.
        -- apply Hs1.
      * destruct IH as (-> & (k & Hk & Hout) & qf' & Hlen & ->).
        split; [done |]. split.
        -- exists k. split; [simpl; by right | lia].
        -- exists qf'. split; [lia | apply Hs1].
    + unfold raise. split; [done |]. split.
      * exists i. split; [simpl; left | by apply lookup_ge_None].
      * exists qf. split; [done |]. by rewrite set_qualities_id.
Qed.

(** X9: on a stored fingerprint [update_policy] returns exactly when
    every target index is a slot of the stored vector and the vector has
    entries.  When it returns, only the two entries of that fingerprint
    are written and the quality vector keeps its length.  With an index
    that is no slot it raises [IndexError], the quality vector, still of
    the same length, is the only thing written and the probability
    vector is left as it was, no longer the softmax of the qualities.
    With a stored vector without entries and no target, [softmax] raises
    [ValueError] and nothing is written. *)
Theorem update_policy_outcome self obs qf (items : list (nat * num))
    (legal : list nat) :
  qualities self !! obs = Some qf ->
  match update_policy obs items legal self with
  | Ok _ self' =>
      (forall i, i ∈ items.*1 -> i < length qf)
      /\ qf <> []
      /\ exists qf',
           length qf' = length qf
           /\ self' = set_policy (<[obs := softmax_values qf']> (policy self))
                        (set_qualities (<[obs := qf']> (qualities self)) self)
  | Raise e self' =>
      (e = IndexError
       /\ (exists i, i ∈ items.*1 /\ length qf <= i)
       /\ exists qf',
            length qf' = length qf
            /\ self' = set_qualities (<[obs := qf']> (qualities self)) self)
      \/ (e = ValueError /\ qf = [] /\ items = [] /\ self' = self)
  | OutOfFuel => False
  end.
Proof.
  intros Hq. unfold update_policy. rewrite bind_get, Hq, bind_ret.
  pose proof (update_loop_outcome obs items qf self Hq) as Hloop.
  unfold bind at 1.
  destruct (update_loop obs qf items self) as [qf' s' | e s' |];
    [| by left | done].
  destruct Hloop as (Hrange & Hlen & ->). rewrite bind_modify.
  destruct qf' as [| x qf'].
  - rewrite (bind_Raise _ _ _ _ _ (softmax_nil _)). right.
    assert (qf = []) as -> by (by destruct qf).
    split; [done |]. split; [done |]. split.
    + destruct items as [| [i t] rest]; [done |].
      specialize (Hrange i ltac:(simpl; left)). simpl in Hrange. lia.
    + simpl. rewrite insert_insert_eq.
      by rewrite !(set_qualities_id self [] obs Hq).
  - rewrite (bind_Ok _ _ _ _ _ (softmax_Ok (x :: qf') _ ltac:(done))).
    split; [done |]. split; [intros ->; simpl in Hlen; lia |].
    exists (x :: qf'). split; [done |].
    unfold modify. simpl. by rewrite insert_insert_eq.
Qed.

Lemma update_loop_app obs (pre rest : list (nat * num)) :
  forall qf s qf' s',
    update_loop obs qf pre s = Ok qf' s' ->
    update_loop obs qf (pre ++ rest) s = update_loop obs qf' rest s'.
Proof.
  induction pre as [| [i t] pre IH]; intros qf s qf' s' Hrun.
  - simpl in Hrun. by injection Hrun as <- <-.
  - simpl app. cbn [update_loop] in Hrun |- *.
    rewrite bind_get in Hrun. rewrite bind_get. unfold index in Hrun |- *.
    destruct (qf !! i) as [q |]; [| done].
    rewrite bind_ret, bind_modify in Hrun. rewrite bind_ret, bind_modify.
    by apply IH.
Qed.

(** X10: the targets are applied in the order of the map.  When the
    first index outside the stored vector comes after other targets,
    [update_policy] raises [IndexError] with those earlier slots already
    moved in the stored quality vector, every other slot and the
    probability vector untouched. *)
Theorem update_policy_raises_after_partial_update self obs qf
    (pre rest : list (nat * num)) (i : nat) (target : num) (legal : list nat) :
  qualities self !! obs = Some qf ->
  NoDup pre.*1 ->
  (forall k, k ∈ pre.*1 -> k < length qf) ->
  length qf <= i ->
  exists qf',
    update_policy obs (pre ++ (i, target) :: rest) legal self
    = Raise IndexError (set_qualities (<[obs := qf']> (qualities self)) self)
    /\ (forall k t q, (k, t) ∈ pre -> qf !! k = Some q ->
          qf' !! k = Some (nadd q (nmul (Fin (alpha self)) (nsub t q))))
    /\ (forall k, k ∉ pre.*1 -> qf' !! k = qf !! k).
Proof.
  intros Hq Hnd Hrange Hout.
  destruct (update_loop_spec obs pre qf self Hq Hrange)
    as (qf' & Hrun & Hlen & Hother & Hmoved).
  exists qf'. split; [| split; [by apply Hmoved | done]].
  unfold update_policy. rewrite bind_get, Hq, bind_ret.
  unfold bind at 1. rewrite (update_loop_app obs pre _ _ _ _ _ Hrun).
  cbn [update_loop]. rewrite bind_get. unfold bind at 1, index.
  by rewrite (proj2 (lookup_ge_None qf' i)) by lia.
Qed.

End UpdateOutcome.

(** ** Stored probability vectors are distributions *)

Lemma softmax_distribution (n : nat) (legal : list nat) (qf : list num) :
  shaped n legal qf ->
  (exists i, i < n /\ i ∈ legal) ->
  exists ms : list R,
    softmax_values qf = Fin <$> ms /\ length ms = n /\ distribution_on legal ms.
Proof.
  intros Hshape Hlegal.
  destruct (softmax_shaped n legal qf Hshape Hlegal) as (ms0 & Hsm0 & _).
  destruct Hshape as [Hlen Hshape]. destruct Hlegal as (i0 & Hlt0 & Hin0).
  destruct (lookup_lt_is_Some_2 qf i0) as [q0 Hq0]; [lia |].
  pose proof (Hshape i0 q0 Hq0) as Hfin0.
  rewrite bool_decide_eq_true_2 in Hfin0 by done.
  destruct q0 as [r0 | | |]; try done.
  assert (Hsum : (0 < sum_exp qf)%R).
  { rewrite sum_exp_sumR. apply Rlt_le_trans with (exp r0); [apply exp_pos |].
    apply (sumR_lookup_le _ i0).
    - apply Forall_fmap, Forall_forall. intros v _. apply expR_nonneg.
    - by rewrite list_lookup_fmap, Hq0. }
  assert (Hdef : softmax_defined qf = true).
  { unfold softmax_values in Hsm0. destruct (softmax_defined qf); [done |].
    exfalso. apply (f_equal (fun l => l !! i0)) in Hsm0.
    rewrite !list_lookup_fmap, Hq0 in Hsm0. simpl in Hsm0.
    by destruct (ms0 !! i0). }
  exists ((fun v => (expR v / sum_exp qf)%R) <$> qf).
  split; [| split; [| split]].
  - unfold softmax_values. rewrite Hdef. by rewrite <- list_fmap_compose.
  - by rewrite length_fmap.
  - rewrite (list_fmap_compose expR (fun r => (r / sum_exp qf)%R)).
    rewrite sumR_scale, <- sum_exp_sumR. field. lra.
  - intros i r Hi. rewrite list_lookup_fmap in Hi.
    destruct (qf !! i) as [q |] eqn:Hq; [| done]. simpl in Hi.
    injection Hi as <-. specialize (Hshape i q Hq).
    destruct (bool_decide (i ∈ legal)).
    + destruct q as [x | | |]; try done. simpl.
      apply Rdiv_lt_0_compat; [apply exp_pos | done].
    + subst q. simpl. unfold Rdiv. apply Rmult_0_l.
Qed.

Lemma sumR_zero (l : list R) : Forall (fun r => r = 0%R) l -> sumR l = 0%R.
Proof.
  induction 1 as [| r l -> _ IH]; [done |].
  unfold sumR in *. simpl. rewrite IH. lra.
Qed.

Lemma sumR_single (l : list R) :
  forall (k : nat) (x : R),
    l !! k = Some x ->
    (forall i r, l !! i = Some r -> i <> k -> r = 0%R) ->
    sumR l = x.
Proof.
  induction l as [| y l IH]; intros k x Hk Hzero; [done |].
  change (sumR (y :: l)) with (y + sumR l)%R.
  destruct k as [| k]; simpl in Hk.
  - injection Hk as ->. rewrite sumR_zero; [lra |].
    apply Forall_lookup. intros i r Hi. by apply (Hzero (S i)).
  - rewrite (Hzero 0 y eq_refl) by done.
    rewrite (IH k x Hk); [lra |].
    intros i r Hi Hne. apply (Hzero (S i) r Hi). lia.
Qed.

Section Distributions.
Context {E : Type}.
Implicit Types (s : SARSAAgent E).

(** X11: in a well-formed store every probability vector is a
    distribution over the action space: its entries are finite, sum to
    1, are positive at the legal actions of its fingerprint and zero at
    the others. *)
Theorem stored_policy_is_distribution (n : nat) (legal_of : string -> list nat)
    s o (p : list num) :
  wf_store n legal_of s ->
  policy s !! o = Some p ->
  exists ms : list R,
    p = Fin <$> ms /\ length ms = n /\ distribution_on (legal_of o) ms.
Proof.
  intros Hwf Hp. specialize (Hwf o).
  destruct (qualities s !! o) as [qf |]; [| congruence].
  destruct Hwf as (Hshape & Hlegal & Hpol).
  rewrite Hpol in Hp. injection Hp as <-.
  by apply softmax_distribution.
Qed.

(** X12: where exactly one action of the action space is legal, the
    stored probability of that action is 1 and that of every other
    action is 0, whatever the qualities. *)
Theorem single_legal_action_has_probability_one (n : nat)
    (legal_of : string -> list nat) s o (p : list num) (action : nat) :
  wf_store n legal_of s ->
  policy s !! o = Some p ->
  action < n ->
  (forall i, i < n -> i ∈ legal_of o <-> i = action) ->
  p !! action = Some (Fin 1)
  /\ forall i, i < n -> i <> action -> p !! i = Some (Fin 0).
Proof.
  intros Hwf Hp Hlt Hsingle. specialize (Hwf o).
  destruct (qualities s !! o) as [qf |]; [| congruence].
  destruct Hwf as (Hshape & Hlegal & Hpol).
  rewrite Hpol in Hp. injection Hp as <-.
  destruct (softmax_distribution n _ qf Hshape Hlegal)
    as (ms & -> & Hlen & Hsum & Hsupp).
  assert (Hzero : forall i r, ms !! i = Some r -> i <> action -> r = 0%R).
  { intros i r Hi Hne. specialize (Hsupp i r Hi).
    rewrite bool_decide_eq_false_2 in Hsupp; [done |].
    intros Hin. apply Hne. apply Hsingle; [| done].
    apply lookup_lt_Some in Hi. lia. }
  destruct (lookup_lt_is_Some_2 ms action) as [x Hx]; [lia |].
  split.
  - rewrite list_lookup_fmap, Hx. simpl. do 2 f_equal.
    rewrite <- Hsum. symmetry. by apply (sumR_single ms action).
  - intros i Hi Hne. destruct (lookup_lt_is_Some_2 ms i) as [r Hr]; [lia |].
    rewrite list_lookup_fmap, Hr. simpl. do 2 f_equal. by eapply Hzero.
Qed.

End Distributions.

(** ** Training again and again *)

Section Training.
Variable legal_of : string -> list nat.
Implicit Types (s self : SARSAAgent game).

Lemma seat_stable self self' :
  agent_id self' = seat self ->
  g_agents (env self') = g_agents (env self) ->
  seat self' = seat self.
Proof.
  unfold seat. simpl. intros -> ->.
  by destruct (first_sarsa 0 (g_agents (env self))).
Qed.

(** One iteration on a well-formed game with a well-formed store. *)
Lemma train_returns_ready self (fuel : nat) :
  height (g_root (env self)) <= fuel ->
  wf_store (g_num_actions (env self)) legal_of self ->
  wf_game (seat self) legal_of (reset (env self)) ->
  exists self',
    train fuel self = Ok tt self'
    /\ ready (seat self) legal_of (reset (env self)) self'
    /\ iteration self' = (iteration self + 1)%Z
    /\ dom (qualities self) ⊆ dom (qualities self').
Proof.
  intros Hh Hstore Hwf. unfold train. rewrite !bind_modify.
  set (s1 := set_env _ (set_a _ _)).
  destruct (find_agent_seat s1) as (s2 & Hfind & Henv & Hseat & Hp & Hq).
  rewrite (bind_Ok _ _ _ _ _ Hfind).
  assert (Hready : ready (seat self) legal_of (reset (env self)) s2).
  { split; [exact Henv |]. split; [exact Hseat |].
    intros o. specialize (Hstore o). rewrite Hp, Hq. exact Hstore. }
  destruct (traverse_tree_returns (seat self) legal_of fuel
              (reset (env self)) s2 Hready Hwf Hh)
    as (r & self' & Hrun & Hready' & Hdom).
  pose proof (traverse_tree_params True fuel s2 Logic.I s2 (same_params_refl s2))
    as Hparams.
  rewrite Hrun in Hparams. destruct Hparams as (_ & _ & _ & _ & _ & Hiter).
  rewrite (bind_Ok _ _ _ _ _ Hrun). exists self'.
  split; [done |]. split; [done |]. split.
  - rewrite Hiter. rewrite find_agent_Ok in Hfind. by injection Hfind as <-.
  - by rewrite Hq in Hdom.
Qed.

(** X13: on a well-formed game, from an agent with a well-formed store
    (a new agent has one), any number of training iterations return
    normally, one after the other; the store stays well formed, so every
    quality vector keeps the length of the action space, no fingerprint
    is lost, and the iteration counter has grown by the number of
    iterations. *)
Theorem repeated_training_returns (k : nat) self (fuel : nat) :
  height (g_root (env self)) <= fuel ->
  wf_store (g_num_actions (env self)) legal_of self ->
  wf_game (seat self) legal_of (reset (env self)) ->
  exists self',
    repeat_train k fuel self = Ok tt self'
    /\ wf_store (g_num_actions (env self)) legal_of self'
    /\ iteration self' = (iteration self + Z.of_nat k)%Z
    /\ dom (qualities self) ⊆ dom (qualities self').
Proof.
  revert self. induction k as [| k IH]; intros self Hh Hstore Hwf.
  - exists self. split; [done |]. split; [done |]. split; [lia | done].
  - destruct (train_returns_ready self fuel Hh Hstore Hwf)
      as (s1 & Hrun & (Henv & Hid & Hstore1) & Hiter & Hdom).
    assert (Hseat : seat s1 = seat self).
    { apply seat_stable; [done |]. by rewrite Henv. }
    destruct (IH s1) as (self' & Hrest & Hstore' & Hiter' & Hdom').
    { by rewrite Henv. }
    { by rewrite Henv. }
    { rewrite Hseat, Henv. exact Hwf. }
    exists self'. cbn [repeat_train]. rewrite (bind_Ok _ _ _ _ _ Hrun).
    split; [done |]. split; [by rewrite Henv in Hstore' |].
    split; [lia |]. etrans; [exact Hdom | exact Hdom'].
Qed.

End Training.

Lemma repeated_training_returns_witness :
  exists self',
    repeat_train 3 2 fresh_agent = Ok tt self'
    /\ wf_store 2 two_node_legal self'
    /\ iteration self' = 3%Z.
Proof.
  destruct (repeated_training_returns two_node_legal 3 fresh_agent 2)
    as (self' & Hrun & Hstore & Hiter & _).
  - simpl. lia.
  - done.
  - apply two_node_game_wf.
  - by exists self'.
Defined.

(** ** The greedy action is legal *)

Section LegalChoice.
Variable legal_of : string -> list nat.
Implicit Types (s : SARSAAgent game).

(** The masked vector [action_probs] returns from a well-formed store:
    the stored distribution, zeroed outside the legal actions, over its
    legal total. *)
Lemma action_probs_ready_masked s o (legal : list nat) :
  wf_store (g_num_actions (env s)) legal_of s ->
  (forall action, action ∈ legal <-> action ∈ legal_of o) ->
  (exists action, action ∈ legal /\ action < g_num_actions (env s)) ->
  exists (rs : list R) s1,
    action_probs o legal s
    = Ok (Fin <$> ((fun r => (r / sumR (maskR rs legal))%R) <$> maskR rs legal)) s1
    /\ length rs = g_num_actions (env s)
    /\ distribution_on (legal_of o) rs
    /\ (0 < sumR (maskR rs legal))%R.
Proof.
  intros Hstore Hsame Hlegal.
  destruct (action_probs_ready (agent_id s) legal_of (env s) s o legal)
    as (ms & s1 & Hrun & Hlen & (Henv1 & _ & Hstore1) & _ & Ho); try done.
  pose proof (action_probs_masks s o legal) as Hmask. rewrite Hrun in Hmask.
  destruct Hmask as (stored & Hstored & Hrem).
  specialize (Hstore1 o). apply elem_of_dom in Ho as [qf Hqf].
  rewrite Hqf in Hstore1. destruct Hstore1 as (Hshape & Hex & Hpol).
  rewrite Hpol in Hstored. injection Hstored as <-.
  destruct (softmax_distribution _ _ qf Hshape Hex) as (rs & Hsm & Hlenrs & Hdist).
  rewrite Hsm in Hrem.
  assert (Hnn : Forall (fun r => (0 <= r)%R) rs).
  { apply Forall_lookup. intros i r Hi. destruct Hdist as [_ Hsupp].
    specialize (Hsupp i r Hi). destruct (bool_decide _); lra. }
  assert (Hpos : positive_mass (Fin <$> rs) legal = true).
  { unfold remove_illegal in Hrem. by destruct (positive_mass _ _). }
  exists rs, s1. split; [| split; [done | split; [done |]]].
  - rewrite Hrun. rewrite (remove_illegal_fin s1 rs legal Hnn Hpos) in Hrem.
    by injection Hrem as <-.
  - by apply positive_mass_sum.
Qed.

(** X14: inference from a well-formed store picks a legal action.  On a
    state whose legal actions are those of its fingerprint, not empty
    and inside the action space, and which names each of them,
    [eval_step] returns, and the action it returns is one of the legal
    actions of the state. *)
Theorem eval_step_chooses_legal_action s (state : State) :
  wf_store (g_num_actions (env s)) legal_of s ->
  (forall action,
     action ∈ legal_actions state <-> action ∈ legal_of (obs state)) ->
  legal_actions state <> [] ->
  (forall action, action ∈ legal_actions state ->
     action < g_num_actions (env s)) ->
  length (legal_actions state) <= length (raw_legal_actions state) ->
  exists action info s',
    eval_step state s = Ok (action, info) s'
    /\ action ∈ legal_actions state.
Proof.
  intros Hstore Hsame Hne Hrange Hraw.
  assert (Hex : exists action, action ∈ legal_actions state
                               /\ action < g_num_actions (env s)).
  { destruct (legal_actions state) as [| a0 rest] eqn:Hl; [done |].
    exists a0. split; [left | apply Hrange; left]. }
  destruct (action_probs_ready_masked s (obs state) (legal_actions state)
              Hstore Hsame Hex)
    as (rs & s1 & Hrun & Hlen & [Hsum Hsupp] & Hc).
  set (c := sumR (maskR rs (legal_actions state))) in *.
  set (ms := (fun r => (r / c)%R) <$> maskR rs (legal_actions state)) in *.
  assert (Hlenms : length ms = g_num_actions (env s)).
  { unfold ms, maskR. by rewrite length_fmap, length_imap. }
  assert (Hms : forall i x, ms !! i = Some x ->
            exists r, rs !! i = Some r
              /\ x = ((if bool_decide (i ∈ legal_actions state)
                       then r else 0) / c)%R).
  { intros i x Hi. unfold ms, maskR in Hi.
    rewrite list_lookup_fmap, list_lookup_imap in Hi.
    destruct (rs !! i) as [r |]; [| done]. simpl in Hi.
    injection Hi as <-. by exists r. }
  unfold eval_step. rewrite (bind_Ok _ _ _ _ _ Hrun).
  destruct (argmax (Fin <$> ms) s1) as [action s2 | e s2 |] eqn:Harg.
  2, 3: destruct ms; [simpl in Hlenms; destruct Hex as (? & ? & ?); lia | done].
  destruct (argmax_greedy _ _ _ _ Harg) as [-> Hgreedy].
  specialize (Hgreedy (no_nan_fin ms)).
  rewrite (bind_Ok _ _ _ _ _ Harg).
  destruct (info_probs_returns (raw_legal_actions state) (legal_actions state)
              (Fin <$> ms) (seq 0 (length (legal_actions state))) s1)
    with (acc := (∅ : gmap string num)) as [info Hinfo].
  { intros i Hi. apply elem_of_seq in Hi. split; [lia |].
    destruct (lookup_lt_is_Some_2 (legal_actions state) i) as [act Hact];
      [lia |].
    exists act. split; [done |]. rewrite length_fmap, Hlenms.
    apply Hrange. by eapply list_elem_of_lookup_2. }
  rewrite (bind_Ok _ _ _ _ _ Hinfo). exists action, info, s1.
  split; [done |].
  destruct Hgreedy as (p & Hp & Hmax & _).
  rewrite list_lookup_fmap in Hp.
  destruct (ms !! action) as [x |] eqn:Hx; [| done]. injection Hp as <-.
  destruct (Hms action x Hx) as (r & Hr & ->).
  destruct (decide (action ∈ legal_actions state)) as [| Hout]; [done |].
  exfalso. rewrite bool_decide_eq_false_2 in Hmax by done.
  destruct Hex as (a0 & Ha0 & Hlt0).
  destruct (lookup_lt_is_Some_2 rs a0) as [r0 Hr0]; [lia |].
  pose proof (Hsupp a0 r0 Hr0) as Hpos0.
  rewrite bool_decide_eq_true_2 in Hpos0 by (by apply Hsame).
  specialize (Hmax a0 (Fin (r0 / c))).
  rewrite list_lookup_fmap in Hmax. unfold ms, maskR in Hmax.
  rewrite list_lookup_fmap, list_lookup_imap, Hr0 in Hmax. simpl in Hmax.
  rewrite bool_decide_eq_true_2 in Hmax by done.
  specialize (Hmax eq_refl).
  destruct (Rlt_dec (0 / c) (r0 / c)) as [| Hn]; [done |].
  apply Hn. unfold Rdiv. rewrite Rmult_0_l.
  apply Rmult_lt_0_compat; [done | by apply Rinv_0_lt_compat].
Qed.

End LegalChoice.

(** ** The diagnostics need a name for every legal action *)

Lemma info_probs_Ok_names {S} (raw : list string) (legal : list nat)
    (probs : list num) (range : list nat) :
  forall acc info (s s' : S),
    info_probs raw legal probs range acc s = Ok info s' ->
    forall i, i ∈ range -> is_Some (raw !! i).
Proof.
  induction range as [| i range IH]; intros acc info s s' Hrun j Hj.
  - by apply elem_of_nil in Hj.
  - cbn [info_probs] in Hrun. unfold bind, index, ret, raise in Hrun.
    destruct (raw !! i) as [key |] eqn:Hkey; [| done].
    destruct (legal !! i) as [action |]; [| done].
    destruct (probs !! action) as [p |]; [| done].
    apply elem_of_cons in Hj as [-> | Hj]; [by eexists |].
    by eapply IH.
Qed.

Section ShortNames.
Context {E : Type} `{Env E}.
Implicit Types (self : SARSAAgent E).

(** X15: a state that names fewer raw actions than it has legal actions
    makes [eval_step] raise [IndexError] while it builds the diagnostics,
    after the action has been chosen and with whatever [action_probs]
    wrote left in the agent. *)
Theorem eval_step_needs_a_name_per_action self (state : State)
    (probs : list num) self' :
  action_probs (obs state) (legal_actions state) self = Ok probs self' ->
  probs <> [] ->
  length (raw_legal_actions state) < length (legal_actions state) ->
  eval_step state self = Raise IndexError self'.
Proof.
  intros Hprobs Hne Hshort. unfold eval_step.
  rewrite (bind_Ok _ _ _ _ _ Hprobs).
  destruct probs as [| x rest]; [done |]. cbn [argmax]. rewrite bind_ret.
  pose proof (info_probs_state (raw_legal_actions state) (legal_actions state)
                (x :: rest) (seq 0 (length (legal_actions state))) self' ∅)
    as Hstate.
  unfold bind.
  destruct (info_probs _ _ _ _ _ self') as [info s2 | e s2 |] eqn:Hinfo;
    [| by destruct Hstate as [-> ->] | done].
  exfalso.
  destruct (info_probs_Ok_names _ _ _ _ _ _ _ _ Hinfo
              (length (raw_legal_actions state))) as [key Hkey].
  - apply elem_of_seq. lia.
  - apply lookup_lt_Some in Hkey. lia.
Qed.

End ShortNames.

(** ** Quality vectors are never deleted or resized *)

Section KeepsVectors.
Context {E : Type} `{Env E}.
Implicit Types (self s : SARSAAgent E).

Lemma keeps_vectors_refl s : keeps_vectors s s.
Proof. intros o qf Hq. by exists qf. Qed.

Lemma keeps_vectors_trans s0 s1 s2 :
  keeps_vectors s0 s1 -> keeps_vectors s1 s2 -> keeps_vectors s0 s2.
Proof.
  intros H01 H12 o qf Hq. destruct (H01 o qf Hq) as (qf1 & Hq1 & Hlen1).
  destruct (H12 o qf1 Hq1) as (qf2 & Hq2 & Hlen2). exists qf2.
  split; [done | lia].
Qed.

Lemma keeps_vectors_insert s obs (qf' : list num) :
  (forall qf, qualities s !! obs = Some qf -> length qf' = length qf) ->
  keeps_vectors s (set_qualities (<[obs := qf']> (qualities s)) s).
Proof.
  intros Hlen o qf Hq. simpl. destruct (decide (o = obs)) as [-> | Hne].
  - exists qf'. rewrite lookup_insert_eq. split; [done | by apply Hlen].
  - exists qf. by rewrite lookup_insert_ne.
Qed.

Lemma action_probs_keeps_vectors s obs (legal : list nat) :
  final (keeps_vectors s) (action_probs obs legal s).
Proof.
  assert (Hmask : forall probs (s1 : SARSAAgent E),
             keeps_vectors s s1 ->
             final (keeps_vectors s) (remove_illegal probs legal s1)).
  { intros probs s1 Hs1. unfold remove_illegal.
    by destruct (positive_mass _ _). }
  assert (Hnew : forall qf',
             qualities s !! obs = None ->
             keeps_vectors s (set_qualities (<[obs := qf']> (qualities s)) s)).
  { intros qf' Hq. apply keeps_vectors_insert. intros qf0 Hq0. congruence. }
  destruct (policy s !! obs) as [stored |] eqn:Hp.
  { rewrite (action_probs_known s obs stored) by done.
    apply Hmask, keeps_vectors_refl. }
  destruct (qualities s !! obs) as [qf |] eqn:Hq.
  { rewrite (action_probs_orphan s obs qf) by done.
    apply Hmask. intros o qf0 Hq0. by exists qf0. }
  destruct (decide (num_actions (env s) = 0)) as [Hz | Hnz].
  - rewrite action_probs_unseen_empty by done. by apply Hnew.
  - rewrite action_probs_unseen by (done || lia). apply Hmask.
    by apply (Hnew (new_tactions (num_actions (env s)) legal)).
Qed.

Lemma update_policy_keeps_vectors s obs (items : list (nat * num))
    (legal : list nat) :
  final (keeps_vectors s) (update_policy obs items legal s).
Proof.
  unfold update_policy. rewrite bind_get.
  assert (Hfrom : forall qf s1,
             qualities s1 !! obs = Some qf -> keeps_vectors s s1 ->
             final (keeps_vectors s)
               ((do qf <- update_loop obs qf items;
                 run modify (fun self =>
                       set_qualities (<[obs := qf]> (qualities self)) self);
                 do probs <- softmax qf;
                 modify (fun self =>
                       set_policy (<[obs := probs]> (policy self)) self))
                  s1)).
  { intros qf s1 Hq1 Hs1.
    pose proof (update_loop_outcome obs items qf s1 Hq1) as Hloop.
    unfold bind at 1.
    destruct (update_loop obs qf items s1) as [qf' s' | e s' |]; [| | done].
    - destruct Hloop as (_ & Hlen & ->). rewrite bind_modify.
      assert (Hkept : keeps_vectors s
                        (set_qualities (<[obs := qf']> (qualities s1)) s1)).
      { eapply keeps_vectors_trans; [exact Hs1 |].
        apply keeps_vectors_insert. intros qf0 Hq0. congruence. }
      simpl. rewrite insert_insert_eq.
      destruct qf' as [| x qf']; [exact Hkept |].
      rewrite (bind_Ok _ _ _ _ _ (softmax_Ok (x :: qf') _ ltac:(done))).
      exact Hkept.
    - destruct Hloop as (_ & _ & qf' & Hlen & ->). simpl.
      eapply keeps_vectors_trans; [exact Hs1 |].
      apply keeps_vectors_insert. intros qf0 Hq0. congruence. }
  destruct (qualities s !! obs) as [qf |] eqn:Hq.
  - rewrite bind_ret. apply (Hfrom qf s Hq), keeps_vectors_refl.
  - rewrite bind_assoc, bind_modify, bind_ret. apply Hfrom.
    + simpl. apply lookup_insert_eq.
    + apply keeps_vectors_insert. intros qf0 Hq0. congruence.
Qed.

Lemma traverse_tree_keeps_vectors (fuel : nat) s0 :
  triple True (keeps_vectors s0) (traverse_tree fuel)
         (fun _ => keeps_vectors s0) (keeps_vectors s0).
Proof.
  apply (traverse_tree_walk True (fun _ => keeps_vectors s0)); auto.
  - intros _ obs legal s Hs.
    pose proof (action_probs_keeps_vectors s obs legal) as Hap.
    destruct (action_probs obs legal s); try done;
      by eapply keeps_vectors_trans.
  - intros _ obs items legal _ s Hs.
    pose proof (update_policy_keeps_vectors s obs items legal) as Hup.
    destruct (update_policy obs items legal s); try done;
      by eapply keeps_vectors_trans.
  - exact ∅.
Qed.

(** X16: whatever the environment and however they end, [traverse_tree]
    and [train] never delete a quality vector and never change the
    length of one: every vector stored at the call is still stored
    afterwards, with the same length. *)
Theorem walk_keeps_quality_vectors self (fuel : nat) :
  final (keeps_vectors self) (traverse_tree fuel self)
  /\ final (keeps_vectors self) (train fuel self).
Proof.
  split.
  - pose proof (traverse_tree_keeps_vectors fuel self self
                  (keeps_vectors_refl self)) as Hw.
    unfold final. by destruct (traverse_tree fuel self).
  - unfold train. rewrite !bind_modify.
    set (s1 := set_env _ (set_a _ _)).
    rewrite (bind_Ok _ _ _ _ _ (find_agent_Ok s1)).
    pose proof (traverse_tree_keeps_vectors fuel self
                  (set_agent_id (seat s1) s1)) as Hw.
    unfold bind, final. destruct (traverse_tree fuel _); try done;
      apply Hw; intros o qf Hq; by exists qf.
Qed.

End KeepsVectors.

(** ** An exception leaves the environment inside the tree *)

Lemma left_inside_step (g g1 : game) (action : nat) (s : SARSAAgent game) :
  game_step g action = Some g1 -> left_inside g1 s -> left_inside g s.
Proof.
  unfold game_step. destruct (g_current g) as [| p o raw children] eqn:Hcur;
    [done |].
  destruct (child children action) as [t |]; [| done].
  intros [= <-] [Henv | (pre & Hne & Htrail)]; right.
  - exists [g_current g]. split; [done |]. rewrite Henv. simpl. by rewrite Hcur.
  - exists (pre ++ [g_current g]). split; [by destruct pre |].
    rewrite Htrail. simpl. rewrite <- app_assoc. simpl. by rewrite Hcur.
Qed.

Section RaiseTrail.
Implicit Types (g : game) (s : SARSAAgent game).

Lemma env_step_game_raise g (action : nat) :
  triple True (at_node g) (env_step action)
         (fun _ s => exists g1, game_step g action = Some g1 /\ at_node g1 s)
         (at_node g).
Proof.
  intros s Hs. unfold env_step. rewrite bind_get. unfold at_node in Hs.
  rewrite Hs. change (step g action) with (game_step g action).
  unfold modify, raise.
  destruct (game_step g action) as [g1 |]; [| done].
  by exists g1.
Qed.

Lemma children_loop_trail (fuel : nat) g (probs : list num) :
  (forall g1, triple True (at_node g1) (traverse_tree fuel)
                     (fun _ => at_node g1) (left_inside g1)) ->
  forall (actions : list nat) value quality,
    triple True (at_node g)
           (children_loop (traverse_tree fuel) probs actions value quality)
           (fun _ => at_node g) (left_inside g).
Proof.
  intros Hrec. induction actions as [| action rest IH]; intros value quality.
  - by apply triple_ret.
  - cbn [children_loop].
    eapply triple_bind with (Q1 := fun _ => at_node g).
    { apply triple_index; auto. intros s Hs. by left. }
    intros p. intros s Hs.
    pose proof (env_step_game_raise g action s Hs) as Hstep. unfold bind at 1.
    destruct (env_step action s) as [[] s1 | e s1 |]; [| by left | done].
    destruct Hstep as (g1 & Hstep & Hs1).
    pose proof (Hrec g1 s1 Hs1) as Hr. unfold bind at 1.
    destruct (traverse_tree fuel s1) as [q s2 | e s2 |]; [| | done].
    + unfold env_step_back. rewrite bind_modify.
      apply IH. unfold at_node in *. simpl. rewrite Hr.
      by eapply game_step_back_step.
    + by eapply left_inside_step.
Qed.

Lemma traverse_tree_trail (fuel : nat) :
  forall g, triple True (at_node g) (traverse_tree fuel)
                   (fun _ => at_node g) (left_inside g).
Proof.
  induction fuel as [| fuel IH]; intros g; [done |].
  cbn [traverse_tree]. apply triple_get_pre. intros s0 Hs0.
  eapply triple_weaken with (P' := at_node g) (Q' := fun _ => at_node g)
                            (R' := left_inside g); auto.
  2:{ by intros s ->. }
  destruct (is_over (env s0)).
  { apply triple_index; auto. intros s Hs. by left. }
  destruct (negb _).
  - eapply triple_bind with (Q1 := fun _ => at_node g).
    { intros s Hs. unfold opponent_step, bind, get, index.
      destruct (get_agents (env s) !! _) as [[| f] |]; try done; by left. }
    intros action s Hs.
    pose proof (env_step_game_raise g action s Hs) as Hstep. unfold bind at 1.
    destruct (env_step action s) as [[] s1 | e s1 |]; [| by left | done].
    destruct Hstep as (g1 & Hstep & Hs1).
    pose proof (IH g1 s1 Hs1) as Hr. unfold bind at 1.
    destruct (traverse_tree fuel s1) as [q s2 | e s2 |]; [| | done].
    + unfold env_step_back. rewrite bind_modify. unfold ret, at_node in *.
      simpl. rewrite Hr. by eapply game_step_back_step.
    + by eapply left_inside_step.
  - eapply triple_bind with (Q1 := fun _ => at_node g).
    { by intros s Hs. }
    intros [obs legal].
    eapply triple_bind with (Q1 := fun _ => at_node g).
    { eapply triple_weaken;
        [apply (action_probs_keeps True (at_node g)) | | |]; auto.
      intros s Hs. by left. }
    intros probs.
    eapply triple_bind; [by apply children_loop_trail |].
    intros [value quality].
    eapply triple_bind with (Q1 := fun _ => at_node g).
    { eapply triple_weaken;
        [apply (update_policy_keeps True (at_node g)) | | |]; auto.
      intros s Hs. by left. }
    intros ?. apply triple_get. intros s1. apply triple_ret. by intros s [Hs _].
Qed.

(** X17: [traverse_tree] undoes its steps only on the way back from a
    return.  With any fuel, a walk that returns leaves the environment
    as it found it; a walk that raises leaves it where the exception
    found it, at the node of the call or below it with the steps that
    led there still pending.  In particular, when the walk of the child
    of another player's node raises, the node raises the same exception
    in the same state. *)
Theorem traverse_tree_raise_leaves_steps_pending (fuel : nat)
    (self : SARSAAgent game) :
  match traverse_tree fuel self with
  | Ok _ self' => env self' = env self
  | Raise _ self' => left_inside (env self) self'
  | OutOfFuel => True
  end
  /\ forall action g1 e self',
       is_over (env self) = false ->
       get_player_id (env self) <> agent_id self ->
       opponent_step (get_player_id (env self))
                     (get_state (env self) (get_player_id (env self))) self
       = Ok action self ->
       step (env self) action = Some g1 ->
       traverse_tree fuel (set_env g1 self) = Raise e self' ->
       traverse_tree (S fuel) self = Raise e self'.
Proof.
  split.
  - by apply (traverse_tree_trail fuel (env self) self).
  - intros action g1 e self' Hover Hturn Hopp Hstep Hrec.
    cbn [traverse_tree]. rewrite bind_get, Hover.
    rewrite (proj2 (Nat.eqb_neq _ _) Hturn). cbn [negb].
    rewrite (bind_Ok _ _ _ _ _ Hopp).
    rewrite (bind_Ok _ _ _ _ _ (env_step_Ok _ _ _ Hstep)).
    by rewrite (bind_Raise _ _ _ _ _ Hrec).
Qed.

End RaiseTrail.

Lemma traverse_tree_raise_leaves_steps_pending_witness :
  exists self',
    traverse_tree 2 broken_agent = Raise EnvError self'
    /\ g_trail (env self') = [broken_tree]
    /\ left_inside (env broken_agent) self'.
Proof.
  destruct (traverse_tree_raise_leaves_steps_pending 1 broken_agent)
    as [_ Hnode].
  assert (Hstep : step (env broken_agent) 0
                  = Some (game_at broken_game
                            (Node 1 "reply" ["stop"] [(0, Leaf [Fin 1; Fin (-1)])])
                            [broken_tree])) by reflexivity.
  pose proof (Hnode 0 _ EnvError _ eq_refl ltac:(simpl; lia) eq_refl Hstep eq_refl)
    as Hrun.
  eexists. split; [exact Hrun |]. split; [reflexivity |].
  destruct (traverse_tree_raise_leaves_steps_pending 2 broken_agent)
    as [Htrail _].
  by rewrite Hrun in Htrail.
Defined.

(** ** The actions shown by the example script *)

Lemma action_list_loop_rebuilds {St A} (record : list A) (s : St) (m : nat) :
  forall k,
    k + m = length record ->
    action_list_loop record (seq (S k) m) (drop (length record - k) record) s
    = Ok record s.
Proof.
  induction m as [| m IH]; intros k Hk.
  - simpl. unfold ret. f_equal.
    replace (length record - k) with 0 by lia. apply drop_0.
  - cbn [seq action_list_loop]. unfold neg_index.
    rewrite bool_decide_eq_false_2 by lia.
    rewrite bool_decide_eq_true_2 by lia.
    destruct (lookup_lt_is_Some_2 record (length record - S k)) as [x Hx];
      [lia |].
    unfold index. rewrite Hx, bind_ret.
    replace (x :: drop (length record - k) record)
      with (drop (length record - S k) record).
    + apply IH. lia.
    + rewrite (drop_S _ x _ Hx). do 2 f_equal. lia.
Qed.

(** X18: the script shows the whole action record of the last state of
    the first trajectory, every pair once and in the order of the record;
    it shows nothing when that trajectory is empty, and fails only when
    there is no trajectory at all. *)
Theorem shown_actions_is_last_action_record {St} (s : St)
    (trajectories : list (list (list (nat * string)))) :
  match trajectories with
  | [] => shown_actions trajectories s = Raise IndexError s
  | first :: _ =>
      shown_actions trajectories s = Ok (default [] (last first)) s
  end.
Proof.
  destruct trajectories as [| first others]; [done |].
  unfold shown_actions. unfold index at 1. simpl lookup. cbv iota.
  rewrite bind_ret.
  destruct first as [| st rest] using rev_ind; [done |].
  clear IHrest. rewrite last_snoc. simpl default.
  assert (Hlen : length (rest ++ [st]) = S (length rest))
    by (rewrite length_app; simpl; lia).
  rewrite Hlen. cbn [Nat.eqb negb]. unfold neg_index at 1.
  rewrite bool_decide_eq_false_2 by lia. rewrite Hlen.
  rewrite bool_decide_eq_true_2 by lia.
  replace (S (length rest) - 1) with (length rest) by lia.
  unfold index. rewrite lookup_app_r by lia.
  rewrite Nat.sub_diag. simpl lookup. cbv iota. rewrite bind_ret.
  pose proof (action_list_loop_rebuilds st s (length st) 0) as Hloop.
  rewrite Nat.sub_0_r, drop_all in Hloop. by apply Hloop.
Qed.

(** ** Concrete instances *)

Lemma inference_on_known_observation_reads_only_witness :
  final (fun self' => self' = seen_agent)
        (action_probs "root" [0; 1] seen_agent)
  /\ final (fun self' => self' = seen_agent) (eval_step root_state seen_agent).
Proof.
  destruct (inference_on_known_observation_reads_only seen_agent root_state
              [Fin (1 / 2); Fin (1 / 2)] eq_refl) as (Hprobs & Heval & _).
  by split.
Defined.

Lemma inference_on_unseen_observation_writes_witness :
  final (fun self' =>
           self' = set_policy (<[ "root" := softmax_values (new_tactions 2 [0; 1])]> ∅)
                     (set_qualities (<[ "root" := new_tactions 2 [0; 1]]> ∅)
                        fresh_agent))
        (eval_step root_state fresh_agent).
Proof.
  assert (Hp : policy fresh_agent !! obs root_state = None) by reflexivity.
  assert (Hq : qualities fresh_agent !! obs root_state = None) by reflexivity.
  assert (Hn : 0 < num_actions (env fresh_agent)) by (simpl; lia).
  exact (proj1 (inference_on_unseen_observation_writes fresh_agent root_state
                  Hp Hq) Hn).
Defined.

Lemma quality_without_policy_is_not_repaired_witness :
  exists e,
    action_probs "root" [0; 1] orphan_agent
    = Raise e (set_policy (<[ "root" := []]> (policy orphan_agent)) orphan_agent).
Proof.
  apply (quality_without_policy_is_not_repaired orphan_agent "root"
           [Fin 0; Fin 0] [0; 1]); reflexivity.
Defined.

Lemma update_policy_outcome_witness :
  match update_policy "root" [(0, Fin 1); (5, Fin 1)] [0; 1] seen_agent with
  | Ok _ self' =>
      (forall i, i ∈ [(0, Fin 1); (5, Fin 1)].*1 -> i < 2)
      /\ [Fin 0; Fin 0] <> []
      /\ exists qf',
           length qf' = 2
           /\ self' = set_policy (<[ "root" := softmax_values qf']> (policy seen_agent))
                        (set_qualities (<[ "root" := qf']> (qualities seen_agent))
                           seen_agent)
  | Raise e self' =>
      (e = IndexError
       /\ (exists i, i ∈ [(0, Fin 1); (5, Fin 1)].*1 /\ 2 <= i)
       /\ exists qf',
            length qf' = 2
            /\ self' = set_qualities (<[ "root" := qf']> (qualities seen_agent))
                         seen_agent)
      \/ (e = ValueError /\ [Fin 0; Fin 0] = []
          /\ [(0, Fin 1); (5, Fin 1)] = [] /\ self' = seen_agent)
  | OutOfFuel => False
  end.
Proof.
  apply (update_policy_outcome seen_agent "root" [Fin 0; Fin 0]). reflexivity.
Defined.

Lemma update_policy_raises_after_partial_update_witness :
  exists qf',
    update_policy "root" ([(0, Fin 1)] ++ [(5, Fin 1)]) [0; 1] seen_agent
    = Raise IndexError
        (set_qualities (<[ "root" := qf']> (qualities seen_agent)) seen_agent)
    /\ qf' !! 0 = Some (nadd (Fin 0) (nmul (Fin (alpha seen_agent))
                                          (nsub (Fin 1) (Fin 0))))
    /\ qf' !! 1 = Some (Fin 0).
Proof.
  destruct (update_policy_raises_after_partial_update seen_agent "root"
              [Fin 0; Fin 0] [(0, Fin 1)] [] 5 (Fin 1) [0; 1] eq_refl)
    as (qf' & Hrun & Hmoved & Hother).
  - simpl. apply NoDup_singleton.
  - simpl. intros k Hk. apply list_elem_of_singleton in Hk as ->. lia.
  - simpl. lia.
  - exists qf'. split; [exact Hrun |]. split.
    + apply Hmoved; [left | done].
    + rewrite Hother; [done |]. simpl. set_solver.
Defined.

Lemma single_agent_wf : wf_store 1 (fun _ => [0]) single_agent.
Proof.
  intros o. simpl. destruct (decide (o = "s")) as [-> | Hne].
  - rewrite !lookup_singleton_eq. split; [| split; [| done]].
    + split; [done |]. intros [| i] q Hi; simpl in Hi; [| done].
      by injection Hi as <-.
    + exists 0. split; [lia | set_solver].
  - by rewrite !lookup_singleton_ne.
Qed.

Lemma single_legal_action_has_probability_one_witness :
  softmax_values [Fin 0] !! 0 = Some (Fin 1).
Proof.
  destruct (single_legal_action_has_probability_one 1 (fun _ => [0])
              single_agent "s" (softmax_values [Fin 0]) 0 single_agent_wf)
    as [Hone _]; try done.
  - lia.
  - intros i Hi. split; [intros _; lia | intros ->; set_solver].
Defined.

Lemma stored_policy_is_distribution_witness :
  exists ms : list R,
    softmax_values [Fin 0] = Fin <$> ms /\ length ms = 1
    /\ distribution_on [0] ms.
Proof.
  apply (stored_policy_is_distribution 1 (fun _ => [0]) single_agent "s"
           (softmax_values [Fin 0]) single_agent_wf).
  reflexivity.
Defined.

Lemma eval_step_chooses_legal_action_witness :
  exists action info s',
    eval_step root_state fresh_agent = Ok (action, info) s'
    /\ action ∈ [0; 1].
Proof.
  apply (eval_step_chooses_legal_action two_node_legal fresh_agent root_state).
  - done.
  - done.
  - done.
  - simpl. intros action Hin.
    repeat (apply elem_of_cons in Hin as [-> | Hin]; [lia |]).
    by apply elem_of_nil in Hin.
  - simpl. lia.
Defined.

Lemma eval_step_needs_a_name_per_action_witness :
  exists self', eval_step short_state fresh_agent = Raise IndexError self'.
Proof.
  destruct (action_probs_fresh fresh_agent "root" [0; 1] eq_refl eq_refl)
    as (ms & Hlen & Hrun).
  { exists 0. split; [simpl; lia | set_solver]. }
  eexists.
  apply (eval_step_needs_a_name_per_action fresh_agent short_state _ _ Hrun).
  - destruct ms; [discriminate Hlen | done].
  - simpl. lia.
Defined.

(** ** Values and qualities stay within the payoffs *)

Section PickedMass.
Local Open Scope R_scope.

Lemma sumR_insert (ms : list R) :
  forall (k : nat) (x y : R),
    ms !! k = Some x -> sumR (<[k := y]> ms) = sumR ms - x + y.
Proof.
  induction ms as [| m ms IH]; intros k x y Hk; [done |].
  destruct k as [| k]; simpl in Hk.
  - injection Hk as <-. change (y + sumR ms = m + sumR ms - m + y). lra.
  - change (m + sumR (<[k := y]> ms) = m + sumR ms - x + y).
    rewrite (IH k x y Hk). lra.
Qed.

Lemma picked_insert_other (ms : list R) (k : nat) (y : R) (actions : list nat) :
  k ∉ actions -> picked (<[k := y]> ms) actions = picked ms actions.
Proof.
  induction actions as [| action rest IH]; intros Hout; [done |].
  apply not_elem_of_cons in Hout as [Hne Hout]. simpl.
  rewrite list_lookup_insert_ne by done. by rewrite IH.
Qed.

(** Distinct actions pick at most the total mass. *)
Lemma picked_le_sum (actions : list nat) :
  forall ms : list R,
    NoDup actions -> Forall (fun r => 0 <= r) ms ->
    picked ms actions <= sumR ms.
Proof.
  induction actions as [| action rest IH]; intros ms Hnd Hnn.
  - simpl. by apply sumR_nonneg.
  - apply NoDup_cons in Hnd as [Hfresh Hnd]. simpl.
    destruct (ms !! action) as [x |] eqn:Hx; simpl.
    + rewrite <- (picked_insert_other ms action 0 rest Hfresh).
      pose proof (sumR_insert ms action x 0 Hx) as Hsum.
      assert (Hnn' : Forall (fun r => 0 <= r) (<[action := 0]> ms)).
      { apply Forall_insert; [done | lra]. }
      specialize (IH (<[action := 0]> ms) Hnd Hnn'). lra.
    + specialize (IH ms Hnd Hnn). lra.
Qed.

Lemma picked_nonneg (ms : list R) (actions : list nat) :
  Forall (fun r => 0 <= r) ms -> 0 <= picked ms actions.
Proof.
  intros Hnn. induction actions as [| action rest IH]; simpl; [lra |].
  destruct (ms !! action) as [x |] eqn:Hx; simpl; [| lra].
  pose proof (proj1 (Forall_lookup _ _) Hnn action x Hx). lra.
Qed.

(** The masked and renormalised vector is a distribution. *)
Lemma renormalised_sum (rs : list R) (legal : list nat) :
  Forall (fun r => 0 <= r) rs ->
  0 < sumR (maskR rs legal) ->
  Forall (fun r => 0 <= r)
         ((fun r => r / sumR (maskR rs legal)) <$> maskR rs legal)
  /\ sumR ((fun r => r / sumR (maskR rs legal)) <$> maskR rs legal) = 1.
Proof.
  intros Hnn Hc. split.
  - apply Forall_fmap. eapply Forall_impl; [by apply maskR_nonneg |].
    intros r Hr. simpl. apply Rmult_le_pos; [done |].
    left. by apply Rinv_0_lt_compat.
  - rewrite sumR_scale. field. lra.
Qed.

End PickedMass.

Lemma dict_set_within (B : R) (d : list (nat * num)) (k : nat) (r : R) :
  values_within B d -> (- B <= r <= B)%R ->
  values_within B (dict_set d k (Fin r)).
Proof.
  unfold values_within. induction d as [| [k0 v0] d IH]; simpl; intros Hd Hr.
  - repeat constructor. by exists r.
  - apply Forall_cons in Hd as [H0 Hd]. case_bool_decide.
    + constructor; [by exists r | done].
    + constructor; [done | by apply IH].
Qed.

Lemma values_within_finite (B : R) (d : list (nat * num)) :
  values_within B d -> finite_values d.
Proof.
  unfold values_within, finite_values. intros Hd.
  eapply Forall_impl; [exact Hd |].
  intros [k v] (r & Hv & _). simpl in *. by subst v.
Qed.

Lemma payoffs_within_node_inv (id : nat) (B : R) p o raw
    (children : list (nat * tree)) :
  payoffs_within id B (Node p o raw children) ->
  NoDup children.*1
  /\ Forall (fun kid => payoffs_within id B (snd kid)) children.
Proof. by inversion 1. Qed.

Lemma payoffs_within_leaf_inv (id : nat) (B : R) (payoffs : list num) (r : R) :
  payoffs_within id B (Leaf payoffs) -> payoffs !! id = Some (Fin r) ->
  (- B <= r <= B)%R.
Proof. inversion 1 as [? Hin |]. apply Hin. Qed.

Lemma payoffs_within_step (id : nat) (B : R) (g g1 : game) (action : nat) :
  payoffs_within id B (g_current g) -> game_step g action = Some g1 ->
  payoffs_within id B (g_current g1).
Proof.
  unfold game_step. intros Hpw.
  destruct (g_current g) as [| p o raw children]; [done |].
  destruct (child children action) as [t |] eqn:Hc; [| done].
  intros [= <-]. simpl. apply child_elem in Hc.
  apply payoffs_within_node_inv in Hpw as [_ Hkids].
  by apply (proj1 (Forall_forall _ _) Hkids (action, t)).
Qed.

Lemma bounded_store_insert {E} (B : R) (s : SARSAAgent E) (o : string)
    (qf : list num) :
  bounded_store B s ->
  (forall i r, qf !! i = Some (Fin r) -> (- B <= r <= B)%R) ->
  bounded_store B (set_qualities (<[o := qf]> (qualities s)) s).
Proof.
  intros Hs Hqf o' qf' i r Hq Hi. simpl in Hq.
  destruct (decide (o' = o)) as [-> | Hne].
  - rewrite lookup_insert_eq in Hq. injection Hq as <-. by eapply Hqf.
  - rewrite lookup_insert_ne in Hq by done. by eapply Hs.
Qed.

Section Bounded.
Variables (id : nat) (legal_of : string -> list nat) (B al ga : R).
Hypothesis B_nonneg : (0 <= B)%R.
Hypothesis al_unit : (0 <= al <= 1)%R.
Hypothesis ga_unit : (0 <= ga <= 1)%R.
Implicit Types (g : game) (s : SARSAAgent game).

Lemma ready_within_set_env g g1 s :
  ready_within id legal_of B al ga g s -> g_num_actions g1 = g_num_actions g ->
  ready_within id legal_of B al ga g1 (set_env g1 s).
Proof.
  intros (Hready & Hbound & Hal & Hga) Hn.
  split; [by apply (ready_set_env id legal_of g) | by split].
Qed.

(** [action_probs] at a node of the agent: the vector returned is a
    distribution, and a vector it creates holds zeros only. *)
Lemma action_probs_within g s o (legal : list nat) :
  ready_within id legal_of B al ga g s ->
  (forall action, action ∈ legal <-> action ∈ legal_of o) ->
  (exists action, action ∈ legal /\ action < g_num_actions g) ->
  exists (ms : list R) s1,
    action_probs o legal s = Ok (Fin <$> ms) s1
    /\ length ms = g_num_actions g
    /\ Forall (fun r => (0 <= r)%R) ms
    /\ sumR ms = 1%R
    /\ ready_within id legal_of B al ga g s1
    /\ dom (qualities s) ⊆ dom (qualities s1)
    /\ o ∈ dom (qualities s1).
Proof.
  intros (Hready & Hbound & Hal & Hga) Hsame Hex.
  pose proof Hready as (Henv & Hid & Hstore).
  destruct (action_probs_ready id legal_of g s o legal Hready Hsame Hex)
    as (ms0 & s1 & Hrun0 & Hlen0 & Hready1 & Hdom & Ho).
  rewrite <- Henv in Hex, Hstore.
  destruct (action_probs_ready_masked legal_of s o legal Hstore Hsame Hex)
    as (rs & s1' & Hrun & Hlenrs & [Hsum Hsupp] & Hc).
  rewrite Hrun in Hrun0. injection Hrun0 as Hms <-.
  assert (Hnn : Forall (fun r => (0 <= r)%R) rs).
  { apply Forall_lookup. intros i r Hi. specialize (Hsupp i r Hi).
    destruct (bool_decide _); lra. }
  destruct (renormalised_sum rs legal Hnn Hc) as [Hnn' Hone].
  eexists _, s1'. split; [exact Hrun |].
  split; [unfold maskR; rewrite length_fmap, length_imap, Hlenrs;
          by rewrite Henv |].
  split; [done |]. split; [done |]. split; [| by split].
  pose proof (action_probs_params True s o legal s (same_params_refl s)) as Hpar.
  rewrite Hrun in Hpar. destruct Hpar as (Hg' & Ha' & _).
  split; [done |]. split; [| split; congruence].
  assert (Hq1 : s1' = s
                \/ s1' = set_policy
                           (<[o := softmax_values (new_tactions (num_actions (env s)) legal)]>
                              (policy s))
                           (set_qualities
                              (<[o := new_tactions (num_actions (env s)) legal]>
                                 (qualities s)) s)).
  { pose proof (Hstore o) as Hso.
    destruct (qualities s !! o) as [qf |] eqn:Hq.
    - destruct Hso as (_ & _ & Hp).
      rewrite (action_probs_known s o _ legal Hp) in Hrun.
      unfold remove_illegal in Hrun.
      destruct (positive_mass _ _); [| done]. unfold ret in Hrun.
      injection Hrun as _ <-. by left.
    - assert (Hn : 0 < num_actions (env s)).
      { destruct Hex as (a0 & _ & Hlt).
        exact (Nat.le_lt_trans _ _ _ (Nat.le_0_l a0) Hlt). }
      rewrite (action_probs_unseen s o legal Hso Hq Hn) in Hrun.
      unfold remove_illegal in Hrun.
      destruct (positive_mass _ _); [| done]. unfold ret in Hrun.
      injection Hrun as _ <-. by right. }
  destruct Hq1 as [-> | ->]; [done |].
  change (bounded_store B
            (set_qualities (<[o := new_tactions (num_actions (env s)) legal]>
                              (qualities s)) s)).
  apply bounded_store_insert; [done |].
  intros i r Hi. rewrite new_tactions_eq, list_lookup_fmap in Hi.
  destruct (seq 0 _ !! i); [| done]. simpl in Hi. unfold fresh_quality in Hi.
  destruct (bool_decide _); [| done]. injection Hi as <-. lra.
Qed.

(** [update_policy] with targets within the bound: every quality it
    moves stays between the old one and the target. *)
Lemma update_policy_within g s o (items : list (nat * num)) (legal : list nat) :
  ready_within id legal_of B al ga g s ->
  o ∈ dom (qualities s) ->
  NoDup items.*1 ->
  (forall k, k ∈ items.*1 -> k ∈ legal_of o /\ k < g_num_actions g) ->
  values_within B items ->
  exists s',
    update_policy o items legal s = Ok tt s'
    /\ ready_within id legal_of B al ga g s'
    /\ dom (qualities s) ⊆ dom (qualities s').
Proof.
  intros (Hready & Hbound & Hal & Hga) Ho Hnd Hkeys Hin.
  destruct (update_policy_ready id legal_of g s o items legal Hready Ho Hnd Hkeys
              (values_within_finite B items Hin)) as (s' & Hrun & Hready' & Hdom).
  exists s'. split; [done |]. split; [| done]. split; [done |].
  pose proof Hready as (Henv & Hid & Hwf).
  apply elem_of_dom in Ho as [qf Hq].
  pose proof (Hwf o) as Hwo. rewrite Hq in Hwo.
  destruct Hwo as ([Hlen Hshape] & Hlegal & _).
  assert (Hqf : qf <> []).
  { destruct Hlegal as (i0 & Hi0 & _). intros ->. simpl in Hlen. lia. }
  destruct (update_policy_spec s o qf items legal Hq Hqf Hnd)
    as (qf' & Hrun' & Hlen' & Hmoved & Hother).
  { intros i Hi. rewrite Hlen. by apply Hkeys. }
  rewrite Hrun' in Hrun. injection Hrun as <-.
  split; [| by split].
  change (bounded_store B (set_qualities (<[o := qf']> (qualities s)) s)).
  apply bounded_store_insert; [done |].
  intros i r Hi.
  destruct (decide (i ∈ items.*1)) as [Hin' | Hout].
  - destruct (Hkeys i Hin') as [_ Hlt].
    apply list_elem_of_fmap in Hin' as ([i' t] & -> & Hit). simpl in *.
    destruct (lookup_lt_is_Some_2 qf i') as [q Hqi]; [lia |].
    rewrite (Hmoved i' t q Hit Hqi) in Hi.
    destruct (proj1 (Forall_forall _ _) Hin (i', t) Hit) as (rt & Ht & Hrt).
    simpl in Ht. subst t.
    destruct q as [rq | | |].
    + simpl in Hi. injection Hi as <-.
      pose proof (Hbound o qf i' rq Hq Hqi) as Hrq. rewrite Hal.
      clear - Hrq Hrt al_unit. nra.
    + simpl in Hi. by destruct (scale_inf true (alpha s)).
    + simpl in Hi. by destruct (scale_inf false (alpha s)).
    + done.
  - rewrite (Hother i Hout) in Hi. by eapply Hbound.
Qed.

(** The loop over the children of a node of the agent: with [c] the
    probability mass of the actions still to visit, the running value
    stays within [B * (1 - c)]. *)
Lemma children_loop_within (fuel : nat) g (ms : list R) :
  wf_game id legal_of g ->
  payoffs_within id B (g_current g) ->
  height (g_current g) <= S fuel ->
  length ms = g_num_actions g ->
  Forall (fun r => (0 <= r)%R) ms ->
  (forall g1 s1,
     ready_within id legal_of B al ga g1 s1 -> wf_game id legal_of g1 ->
     payoffs_within id B (g_current g1) ->
     height (g_current g1) <= fuel ->
     exists r s',
       traverse_tree fuel s1 = Ok (Fin r) s'
       /\ ready_within id legal_of B al ga g1 s'
       /\ dom (qualities s1) ⊆ dom (qualities s')
       /\ (- B <= r <= B)%R) ->
  forall (actions : list nat),
    (forall action, action ∈ actions ->
       is_Some (game_step g action) /\ action < g_num_actions g) ->
    forall s (v : R) (quality : list (nat * num)),
      ready_within id legal_of B al ga g s ->
      NoDup quality.*1 -> values_within B quality ->
      (- (B * (1 - picked ms actions)) <= v <= B * (1 - picked ms actions))%R ->
      exists (r : R) quality' s',
        children_loop (traverse_tree fuel) (Fin <$> ms) actions (Fin v) quality s
        = Ok (Fin r, quality') s'
        /\ ready_within id legal_of B al ga g s'
        /\ dom (qualities s) ⊆ dom (qualities s')
        /\ NoDup quality'.*1
        /\ values_within B quality'
        /\ (forall k, k ∈ quality'.*1 <-> k ∈ quality.*1 \/ k ∈ actions)
        /\ (- B <= r <= B)%R.
Proof.
  intros Hwf Hpw Hh Hlen Hnn Hrec.
  induction actions as [| action rest IH];
    intros Hact s v quality Hs Hnd Hin Hv.
  - exists v, quality, s. do 5 (split; [done |]). split.
    + intros k.
      split; [by left | intros [? | Hk]; [done | by apply elem_of_nil in Hk]].
    + simpl in Hv. lra.
  - destruct (Hact action) as [[g1 Hstep] Hlt]; [left |].
    destruct (lookup_lt_is_Some_2 ms action) as [p Hp]; [lia |].
    destruct (game_step_wf id legal_of g g1 action Hwf Hstep) as [Hwf1 Hn1].
    destruct (Hrec g1 (set_env g1 s)) as (q & s2 & Hrun & Hs2 & Hdom2 & Hq).
    { by apply (ready_within_set_env g). }
    { done. }
    { by eapply payoffs_within_step. }
    { by eapply game_step_height. }
    set (s3 := set_env (step_back (env s2)) s2).
    assert (Hs3 : ready_within id legal_of B al ga g s3).
    { destruct Hs2 as ((Henv2 & Hid2 & Hwf2) & Hb2 & Hal2 & Hga2).
      split; [| by split]. unfold ready, s3. simpl.
      rewrite Henv2. rewrite (game_step_back_step g g1 action Hstep).
      rewrite <- Hn1. done. }
    assert (Hp0 : (0 <= p)%R)
      by exact (proj1 (Forall_lookup _ _) Hnn action p Hp).
    assert (Hv' : (- (B * (1 - picked ms rest)) <= v + p * q
                   <= B * (1 - picked ms rest))%R).
    { simpl in Hv. rewrite Hp in Hv. simpl in Hv.
      clear - Hv Hp0 Hq B_nonneg. nra. }
    destruct (IH (fun a' Ha' => Hact a' (list_elem_of_further _ _ _ Ha'))
                 s3 (v + p * q)%R (dict_set quality action (Fin q)) Hs3)
      as (r & quality' & s' & Hloop & Hs' & Hdom' & Hnd' & Hin' & Hkeys' & Hr).
    { by apply dict_set_NoDup. }
    { by apply dict_set_within. }
    { exact Hv'. }
    exists r, quality', s'.
    split; [| split; [| split; [| split; [| split; [| split]]]]]; try done.
    + cbn [children_loop]. unfold index at 1.
      rewrite list_lookup_fmap, Hp. simpl. rewrite bind_ret.
      destruct Hs as ((Henv & _) & _).
      rewrite (bind_Ok _ _ _ _ _ (env_step_Ok s action g1
                 ltac:(rewrite Henv; exact Hstep))).
      rewrite (bind_Ok _ _ _ _ _ Hrun).
      unfold env_step_back. rewrite bind_modify. exact Hloop.
    + etrans; [| exact Hdom']. exact Hdom2.
    + intros k. rewrite Hkeys', dict_set_keys, elem_of_cons. tauto.
Qed.

(** On a well-formed game whose payoffs for the agent are within
    [[-B, B]], with a step size and a discount in [[0, 1]], the walk
    returns a value within [[-B, B]] and keeps the store within it. *)
Lemma traverse_tree_within (fuel : nat) :
  forall g s,
    ready_within id legal_of B al ga g s -> wf_game id legal_of g ->
    payoffs_within id B (g_current g) ->
    height (g_current g) <= fuel ->
    exists r s',
      traverse_tree fuel s = Ok (Fin r) s'
      /\ ready_within id legal_of B al ga g s'
      /\ dom (qualities s) ⊆ dom (qualities s')
      /\ (- B <= r <= B)%R.
Proof.
  induction fuel as [| fuel IH]; intros g s Hsw Hwf Hpw Hh.
  { destruct (g_current g); simpl in Hh; lia. }
  pose proof Hsw as (Hs & Hbound & Hal & Hga).
  pose proof Hs as (Henv & Hid & Hstore). pose proof Hwf as Hwfg.
  pose proof Hpw as Hpwg.
  cbn [traverse_tree]. rewrite bind_get, Henv.
  unfold wf_game in Hwf.
  change (is_over g) with
    (match g_current g with Leaf _ => true | Node _ _ _ _ => false end).
  change (get_payoffs g) with
    (match g_current g with Leaf p => p | Node _ _ _ _ => [] end).
  change (get_player_id g) with
    (match g_current g with Leaf _ => 0 | Node p _ _ _ => p end).
  change (get_state g) with (fun _ : nat => game_state g). cbv beta.
  assert (Hstate : forall p o raw children,
             g_current g = Node p o raw children ->
             game_state g = Build_State o (children.*1) raw).
  { intros p o raw children Hc. unfold game_state. by rewrite Hc. }
  assert (Hchild : forall p o raw children action t,
             g_current g = Node p o raw children ->
             child children action = Some t ->
             game_step g action = Some (game_at g t (g_current g :: g_trail g))).
  { intros p o raw children action t Hc Ht. unfold game_step. by rewrite Hc, Ht. }
  rewrite Hid. clear Henv Hid Hstore.
  destruct (g_current g) as [payoffs | p o raw children] eqn:Hcur.
  { apply wf_tree_leaf_inv in Hwf as [r Hpay].
    exists r, s. unfold index. rewrite Hpay.
    split; [done |]. split; [exact Hsw |]. split; [set_solver |].
    by eapply payoffs_within_leaf_inv. }
  specialize (Hstate _ _ _ _ eq_refl).
  pose proof (fun action t => Hchild _ _ _ _ action t eq_refl) as Hstep_to.
  clear Hchild.
  apply payoffs_within_node_inv in Hpw as [Hdistinct _].
  apply wf_tree_node_inv in Hwf
    as [Hkids [(-> & Hne & Hsame & Hrange) | (Hp & f & Hag & Hmove)]].
  - rewrite Nat.eqb_refl. cbn [negb].
    rewrite (bind_Ok (agent_get_state _) _ s s (o, children.*1)).
    2:{ unfold agent_get_state. rewrite bind_get. destruct Hs as (-> & _).
        change (get_state g ?x) with (game_state g).
        by rewrite Hstate. }
    cbv beta iota.
    destruct (action_probs_within g s o (children.*1) Hsw Hsame)
      as (ms & s1 & Hprobs & Hlen & Hnn & Hone & Hs1 & Hdom1 & Ho1).
    { destruct children as [| [k t] rest]; [done |].
      exists k. split; [left | apply Hrange; left]. }
    rewrite (bind_Ok _ _ _ _ _ Hprobs).
    assert (Hact : forall action, action ∈ children.*1 ->
               is_Some (game_step g action) /\ action < g_num_actions g).
    { intros action Hin. split; [| by apply Hrange].
      destruct (child_is_Some _ _ Hin) as [t Ht].
      rewrite (Hstep_to _ _ Ht). by eexists. }
    assert (Hh' : height (g_current g) <= S fuel) by (by rewrite Hcur).
    assert (Hpw' : payoffs_within id B (g_current g)) by (by rewrite Hcur).
    assert (Hv0 : (- (B * (1 - picked ms children.*1)) <= 0
                   <= B * (1 - picked ms children.*1))%R).
    { pose proof (picked_le_sum _ ms Hdistinct Hnn) as Hle. rewrite Hone in Hle.
      clear - Hle B_nonneg. nra. }
    destruct (children_loop_within fuel g ms Hwfg Hpw' Hh' Hlen Hnn IH
                (children.*1) Hact s1 0%R [] Hs1 (NoDup_nil_2 (A:=nat))
                (Forall_nil_2 _) Hv0)
      as (r & quality & s2 & Hloop & Hs2 & Hdom2 & Hnd & Hin & Hkeys & Hr).
    rewrite (bind_Ok _ _ _ _ _ Hloop). cbv beta iota.
    destruct (update_policy_within g s2 o quality (children.*1) Hs2)
      as (s3 & Hupd & Hs3 & Hdom3); try done.
    { set_solver. }
    { intros k Hk. apply Hkeys in Hk as [Hk | Hk];
        [by apply elem_of_nil in Hk |].
      split; [by apply Hsame | by apply Hrange]. }
    rewrite (bind_Ok _ _ _ _ _ Hupd). rewrite bind_get. unfold ret. simpl.
    eexists _, s3. split; [reflexivity |]. split; [done |]. split.
    + etrans; [exact Hdom1 |]. etrans; [exact Hdom2 | exact Hdom3].
    + destruct Hs3 as (_ & _ & _ & ->). clear - Hr ga_unit B_nonneg. nra.
  - destruct (Nat.eqb_spec p id) as [-> | _]; [done |].
    cbn [negb]. rewrite Hstate.
    set (action := f {| obs := o; legal_actions := children.*1;
                        raw_legal_actions := raw |}) in *.
    rewrite (bind_Ok (opponent_step p _) _ s s action).
    2:{ unfold opponent_step. rewrite bind_get. destruct Hs as (-> & _).
        change (get_agents g) with (g_agents g). unfold index.
        by rewrite Hag, bind_ret. }
    destruct Hmove as [t Ht].
    pose proof (Hstep_to _ _ Ht) as Hstep.
    set (g1 := game_at g t _) in Hstep.
    destruct (game_step_wf id legal_of g g1 action Hwfg Hstep) as [Hwf1 Hn1].
    destruct (IH g1 (set_env g1 s)) as (r & s2 & Hrun & Hs2 & Hdom2 & Hr).
    { by apply (ready_within_set_env g). }
    { done. }
    { eapply payoffs_within_step; [| exact Hstep]. by rewrite Hcur. }
    { eapply game_step_height; [| exact Hstep]. by rewrite Hcur. }
    rewrite (bind_Ok _ _ _ _ _ (env_step_Ok s action g1
               ltac:(destruct Hs as (-> & _); exact Hstep))).
    rewrite (bind_Ok _ _ _ _ _ Hrun).
    unfold env_step_back. rewrite bind_modify. unfold ret.
    eexists r, _. split; [reflexivity |]. split; [| by split].
    destruct Hs2 as ((Henv2 & Hid2 & Hwf2) & Hb2 & Hal2 & Hga2).
    split; [| by split]. unfold ready. simpl.
    rewrite Henv2. rewrite (game_step_back_step g g1 action Hstep).
    rewrite <- Hn1. done.
Qed.

End Bounded.

Lemma two_node_payoffs_within : payoffs_within 0 1 two_node_tree.
Proof.
  apply pw_node.
  - simpl. apply NoDup_cons. split; [set_solver |]. apply NoDup_singleton.
  - apply Forall_cons_2; [| apply Forall_cons_2; [| apply Forall_nil_2]];
      simpl; apply pw_leaf; intros r Hr; simpl in Hr; injection Hr as <-; lra.
Qed.

Lemma fresh_agent_bounded (B : R) : bounded_store B fresh_agent.
Proof. intros o qf i r Hq. simpl in Hq. by rewrite lookup_empty in Hq. Qed.

(** X19: the walk never returns more than the game pays.  On a
    well-formed game whose leaves pay the agent between [-B] and [B] and
    whose nodes list every legal action once, with a step size and a
    discount between 0 and 1 and stored qualities within the bound, the
    walk returns a value between [-B] and [B], and every finite quality
    it leaves in the store is between [-B] and [B] as well. *)
Theorem walk_value_within_payoffs (id : nat) (legal_of : string -> list nat)
    (B : R) (fuel : nat) (g : game) (s : SARSAAgent game) :
  (0 <= B)%R -> (0 <= alpha s <= 1)%R -> (0 <= gamma s <= 1)%R ->
  ready id legal_of g s -> wf_game id legal_of g ->
  payoffs_within id B (g_current g) ->
  bounded_store B s ->
  height (g_current g) <= fuel ->
  exists r s',
    traverse_tree fuel s = Ok (Fin r) s'
    /\ (- B <= r <= B)%R
    /\ bounded_store B s'.
Proof.
  intros HB Hal Hga Hready Hwf Hpw Hb Hh.
  destruct (traverse_tree_within id legal_of B (alpha s) (gamma s) HB Hal Hga
              fuel g s) as (r & s' & Hrun & (_ & Hb' & _) & _ & Hr); try done.
  by exists r, s'.
Qed.

Lemma walk_value_within_payoffs_witness :
  exists r s',
    traverse_tree 2 fresh_agent = Ok (Fin r) s'
    /\ (- 1 <= r <= 1)%R
    /\ bounded_store 1 s'.
Proof.
  apply (walk_value_within_payoffs 0 two_node_legal 1 2 two_node_game
           fresh_agent).
  - lra.
  - simpl. lra.
  - simpl. lra.
  - done.
  - apply two_node_game_wf.
  - apply two_node_payoffs_within.
  - apply fresh_agent_bounded.
  - simpl. lia.
Defined.

Section TrainBounded.
Variables (legal_of : string -> list nat) (B : R).
Hypothesis B_nonneg : (0 <= B)%R.
Implicit Types (self : SARSAAgent game).

(** One iteration keeps the store within the bound. *)
Lemma train_within self (fuel : nat) :
  (0 <= alpha self <= 1)%R -> (0 <= gamma self <= 1)%R ->
  height (g_root (env self)) <= fuel ->
  wf_store (g_num_actions (env self)) legal_of self ->
  wf_game (seat self) legal_of (reset (env self)) ->
  payoffs_within (seat self) B (g_root (env self)) ->
  bounded_store B self ->
  exists self',
    train fuel self = Ok tt self'
    /\ ready_within (seat self) legal_of B (alpha self) (gamma self)
         (reset (env self)) self'.
Proof.
  intros Hal Hga Hh Hstore Hwf Hpw Hb. unfold train. rewrite !bind_modify.
  set (s1 := set_env _ (set_a _ _)).
  destruct (find_agent_seat s1) as (s2 & Hfind & Henv & Hseat & Hp & Hq).
  rewrite (bind_Ok _ _ _ _ _ Hfind).
  assert (Hpar : alpha s2 = alpha self /\ gamma s2 = gamma self).
  { rewrite find_agent_Ok in Hfind. by injection Hfind as <-. }
  assert (Hready : ready_within (seat self) legal_of B (alpha self)
                     (gamma self) (reset (env self)) s2).
  { split; [| split; [| exact Hpar]].
    - split; [exact Henv |]. split; [exact Hseat |].
      intros o. specialize (Hstore o). rewrite Hp, Hq. exact Hstore.
    - intros o qf i r. rewrite Hq. apply Hb. }
  destruct (traverse_tree_within (seat self) legal_of B (alpha self)
              (gamma self) B_nonneg Hal Hga fuel (reset (env self)) s2
              Hready Hwf Hpw Hh)
    as (r & self' & Hrun & Hready' & _ & _).
  rewrite (bind_Ok _ _ _ _ _ Hrun). by exists self'.
Qed.

(** X20: training never stores a quality beyond what the game pays.  On
    a well-formed game whose leaves pay the agent between [-B] and [B],
    with a step size and a discount between 0 and 1, any number of
    training iterations from a store within the bound (a new agent has
    an empty one) return normally and leave every finite quality between
    [-B] and [B]. *)
Theorem training_keeps_qualities_within_payoffs (k : nat) self (fuel : nat) :
  (0 <= alpha self <= 1)%R -> (0 <= gamma self <= 1)%R ->
  height (g_root (env self)) <= fuel ->
  wf_store (g_num_actions (env self)) legal_of self ->
  wf_game (seat self) legal_of (reset (env self)) ->
  payoffs_within (seat self) B (g_root (env self)) ->
  bounded_store B self ->
  exists self',
    repeat_train k fuel self = Ok tt self' /\ bounded_store B self'.
Proof.
  revert self. induction k as [| k IH];
    intros self Hal Hga Hh Hstore Hwf Hpw Hb.
  - by exists self.
  - destruct (train_within self fuel Hal Hga Hh Hstore Hwf Hpw Hb)
      as (s1 & Hrun & ((Henv & Hid & Hstore1) & Hb1 & Hal1 & Hga1)).
    assert (Hseat : seat s1 = seat self).
    { apply seat_stable; [done |]. by rewrite Henv. }
    destruct (IH s1) as (self' & Hrest & Hb').
    { by rewrite Hal1. }
    { by rewrite Hga1. }
    { by rewrite Henv. }
    { by rewrite Henv. }
    { rewrite Hseat, Henv. exact Hwf. }
    { rewrite Hseat, Henv. exact Hpw. }
    { done. }
    exists self'. cbn [repeat_train]. by rewrite (bind_Ok _ _ _ _ _ Hrun).
Qed.

End TrainBounded.

Lemma training_keeps_qualities_within_payoffs_witness :
  exists self',
    repeat_train 3 2 fresh_agent = Ok tt self' /\ bounded_store 1 self'.
Proof.
  apply (training_keeps_qualities_within_payoffs two_node_legal 1).
  - lra.
  - simpl. lra.
  - simpl. lra.
  - simpl. lia.
  - done.
  - apply two_node_game_wf.
  - apply two_node_payoffs_within.
  - apply fresh_agent_bounded.
Defined.
